(** * Notes API: the handlers, the table and the key-value-store layer

    A shallow embedding of [app/redis_client.py], [app/cache.py],
    [app/rate_limit.py], [app/recent.py], [app/crud.py], [app/schemas.py]
    and the handlers of [app/main.py], over an executable model of the Redis
    commands they issue and of the table they read and write, followed by
    the properties of the specification that hold of them and by further
    properties of the handlers. *)

From Stdlib Require Import ZArith Lia List Bool Sorted.
From Stdlib Require Import Ascii String DecimalString DecimalZ.
From stdpp Require Import base option list gmap strings fin_maps.

Open Scope string_scope.
Open Scope Z_scope.

Set Warnings "-register-all".

(** ** Python values the code relies on *)

(** [str(n)] for a Python [int]: decimal digits, with a leading minus sign. *)
Definition str (z : Z) : string := NilZero.string_of_int (Z.to_int z).

(** [int(v)] for text made of an optional minus sign and digits; [None]
    stands for the [ValueError] of the interpreter. *)
Definition py_int (s : string) : option Z :=
  option_map Z.of_int (NilZero.int_of_string s).

(** ** The Redis server, as far as the application drives it

    Keys hold a string or a list of strings and an optional absolute expiry
    time in milliseconds.  A key whose expiry time has passed is removed the
    next time a command touches it.  Integers are unbounded here: the signed
    64-bit limits of counters and expiry times are not modelled. *)
Module Redis.

Inductive rvalue :=
| VString (s : string)
| VList (l : list string).

Record entry := Entry { e_value : rvalue; e_expire : option Z }.

Abbreviation keyspace := (gmap string entry).

Inductive command :=
| GET (key : string)
| SET (key value : string) (ex : option Z)
| DEL (key : string)
| INCRBY (key : string) (amount : Z)
| EXPIRE (key : string) (seconds : Z) (nx : bool)
| LREM (key : string) (count : Z) (value : string)
| LPUSH (key value : string)
| LTRIM (key : string) (start stop : Z)
| LRANGE (key : string) (start stop : Z).

Inductive reply :=
| Nil
| Bulk (s : string)
| Integer (z : Z)
| Ok_
| Array (l : list string)
| Error (msg : string).

Definition key_of (c : command) : string :=
  match c with
  | GET k | SET k _ _ | DEL k | INCRBY k _ | EXPIRE k _ _
  | LREM k _ _ | LPUSH k _ | LTRIM k _ _ | LRANGE k _ _ => k
  end.

(** [now > when], as in the server's [keyIsExpired]. *)
Definition expired (now : Z) (e : entry) : bool :=
  match e_expire e with
  | Some t => t <? now
  | None => false
  end.

Definition expire_if_needed (now : Z) (k : string) (db : keyspace) : keyspace :=
  match db !! k with
  | Some e => if expired now e then delete k db else db
  | None => db
  end.

(** The strict integer syntax of the server: what [str] prints and nothing
    else (no sign [+], no leading zero, no [-0]). *)
Definition string2ll (s : string) : option Z :=
  match py_int s with
  | Some z => if String.eqb (str z) s then Some z else None
  | None => None
  end.

Definition wrongtype : reply :=
  Error "WRONGTYPE Operation against a key holding the wrong kind of value".

(** Storing a list: an empty list removes the key. *)
Definition store_list (k : string) (l : list string) (ttl : option Z)
    (db : keyspace) : keyspace :=
  match l with
  | [] => delete k db
  | _ => <[k := Entry (VList l) ttl]> db
  end.

(** [LREM key count value]: all occurrences for [count = 0], the first
    [count] from the head for [count > 0], the last [-count] from the tail
    for [count < 0]. *)
Fixpoint remove_first (n : nat) (v : string) (l : list string) : list string :=
  match n, l with
  | O, _ => l
  | _, [] => []
  | S n', x :: l' =>
      if String.eqb x v then remove_first n' v l' else x :: remove_first n v l'
  end.

Definition lrem_list (count : Z) (v : string) (l : list string) : list string :=
  if count =? 0 then filter (fun x => negb (String.eqb x v)) l
  else if 0 <? count then remove_first (Z.to_nat count) v l
  else rev (remove_first (Z.to_nat (- count)) v (rev l)).

(** The index arithmetic shared by [LTRIM] and [LRANGE]: negative indices
    count from the tail, the range is inclusive and clipped to the list. *)
Definition range (start stop : Z) (l : list string) : list string :=
  let llen := Z.of_nat (length l) in
  let start := if start <? 0 then llen + start else start in
  let stop := if stop <? 0 then llen + stop else stop in
  let start := if start <? 0 then 0 else start in
  if (stop <? start) || (llen <=? start) then []
  else
    let stop := if llen <=? stop then llen - 1 else stop in
    take (Z.to_nat (stop - start + 1)) (drop (Z.to_nat start) l).

(** One command at server time [now], on a key space from which the
    command's key has been dropped if it had expired. *)
Definition exec (now : Z) (c : command) (db : keyspace) : reply * keyspace :=
  match c with
  | GET k =>
      match db !! k with
      | None => (Nil, db)
      | Some (Entry (VString s) _) => (Bulk s, db)
      | Some (Entry (VList _) _) => (wrongtype, db)
      end
  | SET k v ex =>
      match ex with
      | None => (Ok_, <[k := Entry (VString v) None]> db)
      | Some secs =>
          if secs <=? 0 then (Error "ERR invalid expire time in 'set' command", db)
          else (Ok_, <[k := Entry (VString v) (Some (now + secs * 1000))]> db)
      end
  | DEL k =>
      match db !! k with
      | None => (Integer 0, db)
      | Some _ => (Integer 1, delete k db)
      end
  | INCRBY k amount =>
      match db !! k with
      | None => (Integer amount, <[k := Entry (VString (str amount)) None]> db)
      | Some (Entry (VString s) ttl) =>
          match string2ll s with
          | Some n =>
              (Integer (n + amount), <[k := Entry (VString (str (n + amount))) ttl]> db)
          | None => (Error "ERR value is not an integer or out of range", db)
          end
      | Some (Entry (VList _) _) => (wrongtype, db)
      end
  | EXPIRE k secs nx =>
      match db !! k with
      | None => (Integer 0, db)
      | Some (Entry v ttl) =>
          if nx && bool_decide (ttl <> None) then (Integer 0, db)
          else if secs <=? 0 then (Integer 1, delete k db)
          else (Integer 1, <[k := Entry v (Some (now + secs * 1000))]> db)
      end
  | LREM k count v =>
      match db !! k with
      | None => (Integer 0, db)
      | Some (Entry (VList l) ttl) =>
          let l' := lrem_list count v l in
          (Integer (Z.of_nat (length l) - Z.of_nat (length l')), store_list k l' ttl db)
      | Some (Entry (VString _) _) => (wrongtype, db)
      end
  | LPUSH k v =>
      match db !! k with
      | None => (Integer 1, <[k := Entry (VList [v]) None]> db)
      | Some (Entry (VList l) ttl) =>
          (Integer (Z.of_nat (S (length l))), <[k := Entry (VList (v :: l)) ttl]> db)
      | Some (Entry (VString _) _) => (wrongtype, db)
      end
  | LTRIM k start stop =>
      match db !! k with
      | None => (Ok_, db)
      | Some (Entry (VList l) ttl) => (Ok_, store_list k (range start stop l) ttl db)
      | Some (Entry (VString _) _) => (wrongtype, db)
      end
  | LRANGE k start stop =>
      match db !! k with
      | None => (Array [], db)
      | Some (Entry (VList l) _) => (Array (range start stop l), db)
      | Some (Entry (VString _) _) => (wrongtype, db)
      end
  end.

(** One command at server time [now]. *)
Definition run (now : Z) (c : command) (db : keyspace) : reply * keyspace :=
  exec now c (expire_if_needed now (key_of c) db).

(** A [MULTI]/[EXEC] block: every command runs, in order, with nothing in
    between; a command that fails does not stop or undo the others. *)
Fixpoint run_all (now : Z) (cs : list command) (db : keyspace)
    : list reply * keyspace :=
  match cs with
  | [] => ([], db)
  | c :: cs' =>
      let '(r, db1) := run now c db in
      let '(rs, db2) := run_all now cs' db1 in
      (r :: rs, db2)
  end.

(** What a client at time [now] sees under a key. *)
Definition peek (now : Z) (k : string) (db : keyspace) : option entry :=
  match db !! k with
  | Some e => if expired now e then None else Some e
  | None => None
  end.

End Redis.

(** ** JSON text, as [json.loads] reads it and [model_dump_json] writes it

    Characters are Rocq's [ascii], one to a byte.  The reader covers [null],
    the booleans, integers, strings with their escapes, arrays and objects,
    with white space between tokens: what the writer produces, and more.  It
    is a part of the library's reader, not the whole: number literals with a
    fraction or an exponent, escapes above code point 255, the non-standard
    [NaN]/[Infinity] and text outside ASCII (which the library decodes as
    UTF-8 first) are outside the model and read as malformed here, so a
    [None] of the reader is taken for the library's verdict only on text shown
    to be no document at all. *)
Module Json.

Inductive json :=
| JNull
| JBool (b : bool)
| JInt (z : Z)
| JStr (s : string)
| JArr (l : list json)
| JObj (members : list (string * json)).

Definition dquote : ascii := "034"%char.
Definition backslash : ascii := "\"%char.

Definition is_digit (c : ascii) : bool :=
  let n := nat_of_ascii c in (48 <=? n)%nat && (n <=? 57)%nat.

Definition is_control (c : ascii) : bool := (nat_of_ascii c <? 32)%nat.

Definition is_space (c : ascii) : bool :=
  match nat_of_ascii c with
  | 32%nat | 9%nat | 10%nat | 13%nat => true
  | _ => false
  end.

Definition hex_digit (n : nat) : ascii :=
  if (n <? 10)%nat then ascii_of_nat (48 + n) else ascii_of_nat (87 + n).

Definition hex_value (c : ascii) : option nat :=
  let n := nat_of_ascii c in
  if (48 <=? n)%nat && (n <=? 57)%nat then Some (n - 48)%nat
  else if (97 <=? n)%nat && (n <=? 102)%nat then Some (n - 87)%nat
  else if (65 <=? n)%nat && (n <=? 70)%nat then Some (n - 55)%nat
  else None.

(** *** Writing *)

Definition escape_char (c : ascii) : string :=
  let n := nat_of_ascii c in
  if Ascii.eqb c dquote then String backslash (String dquote EmptyString)
  else if Ascii.eqb c backslash then String backslash (String backslash EmptyString)
  else if (n =? 8)%nat then "\b"
  else if (n =? 9)%nat then "\t"
  else if (n =? 10)%nat then "\n"
  else if (n =? 12)%nat then "\f"
  else if (n =? 13)%nat then "\r"
  else if is_control c then
    "\u00" +:+ String (hex_digit (n / 16)) (String (hex_digit (n mod 16)) EmptyString)
  else String c EmptyString.

Fixpoint escape (s : string) : string :=
  match s with
  | EmptyString => EmptyString
  | String c s' => escape_char c +:+ escape s'
  end.

Definition quote (s : string) : string :=
  String dquote (escape s +:+ String dquote EmptyString).

(** The elements of an array or the members of an object, separated by
    commas, up to and including the closing bracket. *)
Section Items.
Context {A : Type} (f : A -> string) (close : string).

Fixpoint items_with (l : list A) : string :=
  match l with
  | [] => close
  | [x] => f x +:+ close
  | x :: l' => f x +:+ String "," (items_with l')
  end.
End Items.

(** The compact form, without white space. *)
Fixpoint dumps (j : json) : string :=
  match j with
  | JNull => "null"
  | JBool true => "true"
  | JBool false => "false"
  | JInt z => str z
  | JStr s => quote s
  | JArr l => String "[" (items_with dumps "]" l)
  | JObj ms =>
      String "{" (items_with (fun m => quote (fst m) +:+ String ":" (dumps (snd m))) "}" ms)
  end.

(** *** Reading *)

Fixpoint skip_ws (s : string) : string :=
  match s with
  | String c s' => if is_space c then skip_ws s' else s
  | EmptyString => s
  end.

Definition simple_escape (e : ascii) : option ascii :=
  if Ascii.eqb e dquote then Some dquote
  else if Ascii.eqb e backslash then Some backslash
  else if Ascii.eqb e "/" then Some "/"%char
  else if Ascii.eqb e "b" then Some (ascii_of_nat 8)
  else if Ascii.eqb e "f" then Some (ascii_of_nat 12)
  else if Ascii.eqb e "n" then Some (ascii_of_nat 10)
  else if Ascii.eqb e "r" then Some (ascii_of_nat 13)
  else if Ascii.eqb e "t" then Some (ascii_of_nat 9)
  else None.

Definition hex4 (a b c d : ascii) : option ascii :=
  match hex_value a, hex_value b, hex_value c, hex_value d with
  | Some 0%nat, Some 0%nat, Some x, Some y => Some (ascii_of_nat (16 * x + y))
  | _, _, _, _ => None
  end.

(** The characters of a string literal after its opening quote, up to and
    including the closing one. *)
Fixpoint parse_chars (s : string) : option (string * string) :=
  match s with
  | EmptyString => None
  | String c s1 =>
      if Ascii.eqb c dquote then Some (EmptyString, s1)
      else if Ascii.eqb c backslash then
        match s1 with
        | EmptyString => None
        | String e s2 =>
            match simple_escape e with
            | Some c' =>
                match parse_chars s2 with
                | Some (t, rest) => Some (String c' t, rest)
                | None => None
                end
            | None =>
                if Ascii.eqb e "u" then
                  match s2 with
                  | String h1 (String h2 (String h3 (String h4 s3))) =>
                      match hex4 h1 h2 h3 h4, parse_chars s3 with
                      | Some c', Some (t, rest) => Some (String c' t, rest)
                      | _, _ => None
                      end
                  | _ => None
                  end
                else None
            end
        end
      else if is_control c then None
      else
        match parse_chars s1 with
        | Some (t, rest) => Some (String c t, rest)
        | None => None
        end
  end.

Fixpoint span_digits (s : string) : string * string :=
  match s with
  | String c s' =>
      if is_digit c then let '(ds, rest) := span_digits s' in (String c ds, rest)
      else (EmptyString, s)
  | EmptyString => (EmptyString, EmptyString)
  end.

Definition starts_fraction (s : string) : bool :=
  match s with
  | String c _ => Ascii.eqb c "." || Ascii.eqb c "e" || Ascii.eqb c "E"
  | EmptyString => false
  end.

Definition parse_number (s : string) : option (Z * string) :=
  let '(sign, s1) :=
    match s with
    | String c s' => if Ascii.eqb c "-" then ("-", s') else (EmptyString, s)
    | EmptyString => (EmptyString, s)
    end in
  let '(ds, rest) := span_digits s1 in
  if starts_fraction rest then None
  else
    let text := sign +:+ ds in
    if String.eqb text "-0" then Some (0, rest)
    else
      match py_int text with
      | Some z => if String.eqb (str z) text then Some (z, rest) else None
      | None => None
      end.

(** The rest of [s] after the character [c], when [s] starts with it. *)
Definition after (c : ascii) (s : string) : option string :=
  match s with
  | String c' s' => if Ascii.eqb c' c then Some s' else None
  | EmptyString => None
  end.

Fixpoint after_word (word s : string) : option string :=
  match word with
  | EmptyString => Some s
  | String c word' =>
      match after c s with
      | Some s' => after_word word' s'
      | None => None
      end
  end.

Definition expect (word : string) (v : json) (s : string) : option (json * string) :=
  match after_word word s with
  | Some rest => Some (v, rest)
  | None => None
  end.

Fixpoint parse_value (fuel : nat) (s : string) : option (json * string) :=
  match fuel with
  | O => None
  | S fuel' =>
      match skip_ws s with
      | EmptyString => None
      | String c s1 =>
          if Ascii.eqb c dquote then
            match parse_chars s1 with
            | Some (t, rest) => Some (JStr t, rest)
            | None => None
            end
          else if Ascii.eqb c "[" then
            match after "]" (skip_ws s1) with
            | Some rest => Some (JArr [], rest)
            | None =>
                match parse_items fuel' s1 with
                | Some (l, rest) => Some (JArr l, rest)
                | None => None
                end
            end
          else if Ascii.eqb c "{" then
            match after "}" (skip_ws s1) with
            | Some rest => Some (JObj [], rest)
            | None =>
                match parse_members fuel' s1 with
                | Some (ms, rest) => Some (JObj ms, rest)
                | None => None
                end
            end
          else if Ascii.eqb c "n" then expect "null" JNull (String c s1)
          else if Ascii.eqb c "t" then expect "true" (JBool true) (String c s1)
          else if Ascii.eqb c "f" then expect "false" (JBool false) (String c s1)
          else
            match parse_number (String c s1) with
            | Some (z, rest) => Some (JInt z, rest)
            | None => None
            end
      end
  end
with parse_items (fuel : nat) (s : string) : option (list json * string) :=
  match fuel with
  | O => None
  | S fuel' =>
      match parse_value fuel' s with
      | Some (x, rest) =>
          match after "]" (skip_ws rest) with
          | Some rest' => Some ([x], rest')
          | None =>
              match after "," (skip_ws rest) with
              | Some rest' =>
                  match parse_items fuel' rest' with
                  | Some (l, rest'') => Some (x :: l, rest'')
                  | None => None
                  end
              | None => None
              end
          end
      | None => None
      end
  end
with parse_members (fuel : nat) (s : string) : option (list (string * json) * string) :=
  match fuel with
  | O => None
  | S fuel' =>
      match after dquote (skip_ws s) with
      | Some s1 =>
          match parse_chars s1 with
          | Some (k, rest) =>
              match after ":" (skip_ws rest) with
              | Some rest1 =>
                  match parse_value fuel' rest1 with
                  | Some (v, rest2) =>
                      match after "}" (skip_ws rest2) with
                      | Some rest3 => Some ([(k, v)], rest3)
                      | None =>
                          match after "," (skip_ws rest2) with
                          | Some rest3 =>
                              match parse_members fuel' rest3 with
                              | Some (ms, rest4) => Some ((k, v) :: ms, rest4)
                              | None => None
                              end
                          | None => None
                          end
                      end
                  | None => None
                  end
              | None => None
              end
          | None => None
          end
      | None => None
      end
  end.

(** [json.loads]: one value, then nothing but white space; [None] stands
    for [json.JSONDecodeError]. *)
Definition loads (s : string) : option json :=
  match parse_value (S (String.length s)) s with
  | Some (j, rest) =>
      match skip_ws rest with
      | EmptyString => Some j
      | _ => None
      end
  | None => None
  end.

End Json.

(** ** Timestamps: naive [datetime] values and their ISO 8601 text *)
Module Datetime.

Record datetime := Datetime {
  year : Z; month : Z; day : Z;
  hour : Z; minute : Z; second : Z; microsecond : Z
}.

Definition is_leap (y : Z) : bool :=
  ((y mod 4 =? 0) && negb (y mod 100 =? 0)) || (y mod 400 =? 0).

Definition days_in_month (y m : Z) : Z :=
  if m =? 2 then (if is_leap y then 29 else 28)
  else if (m =? 4) || (m =? 6) || (m =? 9) || (m =? 11) then 30
  else 31.

(** The invariant of every [datetime] object of the interpreter. *)
Definition valid (d : datetime) : bool :=
  (1 <=? year d) && (year d <=? 9999) &&
  (1 <=? month d) && (month d <=? 12) &&
  (1 <=? day d) && (day d <=? days_in_month (year d) (month d)) &&
  (0 <=? hour d) && (hour d <? 24) &&
  (0 <=? minute d) && (minute d <? 60) &&
  (0 <=? second d) && (second d <? 60) &&
  (0 <=? microsecond d) && (microsecond d <? 1000000).

Definition digit_char (n : Z) : ascii := ascii_of_nat (48 + Z.to_nat n).
Definition digit_value (c : ascii) : Z := Z.of_nat (nat_of_ascii c) - 48.

(** [n] written with exactly [width] digits, in front of [tail]. *)
Fixpoint digits (width : nat) (n : Z) (tail : string) : string :=
  match width with
  | O => tail
  | S w => digits w (n / 10) (String (digit_char (n mod 10)) tail)
  end.

Fixpoint read_digits (width : nat) (s : string) (acc : Z) : option (Z * string) :=
  match width with
  | O => Some (acc, s)
  | S w =>
      match s with
      | String c s' =>
          if Json.is_digit c then read_digits w s' (acc * 10 + digit_value c) else None
      | EmptyString => None
      end
  end.

(** [YYYY-MM-DDTHH:MM:SS], followed by [.ffffff] when the microseconds are
    not zero. *)
Definition isoformat (d : datetime) : string :=
  digits 4 (year d) (String "-" (digits 2 (month d) (String "-" (digits 2 (day d)
    (String "T" (digits 2 (hour d) (String ":" (digits 2 (minute d) (String ":"
      (digits 2 (second d)
         (if microsecond d =? 0 then EmptyString
          else String "." (digits 6 (microsecond d) EmptyString)))))))))))).

(** The reader for the text [isoformat] writes; [None] stands for a
    validation failure.  The other spellings the validation library accepts
    (a space for [T], a zone suffix, a numeric timestamp) are not modelled. *)
Definition fromisoformat (s : string) : option datetime :=
  '(y, s) ← read_digits 4 s 0; s ← Json.after "-" s;
  '(mo, s) ← read_digits 2 s 0; s ← Json.after "-" s;
  '(d, s) ← read_digits 2 s 0; s ← Json.after "T" s;
  '(h, s) ← read_digits 2 s 0; s ← Json.after ":" s;
  '(mi, s) ← read_digits 2 s 0; s ← Json.after ":" s;
  '(se, s) ← read_digits 2 s 0;
  '(us, s) ← match s with
             | EmptyString => Some (0, s)
             | _ => s ← Json.after "." s; read_digits 6 s 0
             end;
  let d := Datetime y mo d h mi se us in
  match s with
  | EmptyString => if valid d then Some d else None
  | _ => None
  end.

(** The order of [datetime] objects: by year, then month, and so on down
    to the microsecond. *)
Definition fields (d : datetime) : list Z :=
  [year d; month d; day d; hour d; minute d; second d; microsecond d].

Fixpoint lex_leb (a b : list Z) : bool :=
  match a, b with
  | [], _ => true
  | _ :: _, [] => false
  | x :: a', y :: b' => (x <? y) || ((x =? y) && lex_leb a' b')
  end.

(** [a <= b] *)
Definition leb (a b : datetime) : bool := lex_leb (fields a) (fields b).

(** A reading of the clock: a [datetime] object, with its invariant. *)
Record instant := Instant {
  reading :> datetime;
  reading_valid : valid reading = true
}.

End Datetime.

(** ** [app/config.py] *)
Module Config.

Record Settings := {
  redis_url : string;
  rate_limit : Z;
  rate_limit_window_seconds : Z;
  note_cache_ttl_seconds : Z;
  recent_notes_limit : Z
}.

(** The values [Settings()] takes when the environment sets none. *)
Definition defaults : Settings := {|
  redis_url := "redis://localhost:6379/0";
  rate_limit := 100;
  rate_limit_window_seconds := 600;
  note_cache_ttl_seconds := 300;
  recent_notes_limit := 5
|}.

End Config.

(** ** [app/models.py]: a row of the table [notes] *)
Module Models.

Record Note := {
  id : Z;
  title : string;
  content : string;
  tags : option (list string);
  created_at : Datetime.datetime;
  updated_at : Datetime.datetime;
  is_deleted : bool;
  deleted_at : option Datetime.datetime
}.

End Models.

(** ** Exceptions and the world the handlers run in *)

(** The subclasses of [redis.RedisError] the client raises. *)
Inductive redis_failure :=
| ConnectionError
| TimeoutError
| ResponseError (msg : string).

Inductive exn :=
| RedisError (what : redis_failure)
| JSONDecodeError
| ValidationError
| TypeError
| ValueError
| AttributeError
| OverflowError
| HTTPException (status_code : Z) (detail : string).

Inductive result (A : Type) :=
| Ok (a : A)
| Raise (e : exn).
Arguments Ok {A} a.
Arguments Raise {A} e.

(** A client object built by [redis.from_url]; [client_no] tells the
    instances apart. *)
Record RedisClient := { client_no : nat }.

(** One round trip to the server: the commands of a pipeline, and whether
    they were wrapped in [MULTI]/[EXEC]. *)
Record batch := Batch { transactional : bool; commands : list Redis.command }.

Record world := World {
  redis_now : Z;                        (* the server's clock, milliseconds *)
  redis_fault : option redis_failure;   (* [Some f]: every command fails with [f] *)
  redis_db : gmap string Redis.entry;
  redis_wire : list batch;              (* what reached the server, newest first *)
  sql_rows : gmap Z Models.Note;        (* the table [notes], by primary key *)
  utcnow : Datetime.datetime;           (* what the clock of the application reads next *)
  _redis_instance : option RedisClient; (* the global of [redis_client.py] *)
  constructed : nat;                    (* clients built so far *)
  utc_later : list Datetime.instant     (* the readings of the clock after the next *)
}.

Definition with_redis (db : gmap string Redis.entry) (wire : list batch) (w : world) : world :=
  World (redis_now w) (redis_fault w) db wire (sql_rows w) (utcnow w)
        (_redis_instance w) (constructed w) (utc_later w).

Definition with_rows (rows : gmap Z Models.Note) (w : world) : world :=
  World (redis_now w) (redis_fault w) (redis_db w) (redis_wire w) rows (utcnow w)
        (_redis_instance w) (constructed w) (utc_later w).

(** The clock of the server moves to [t] between two requests. *)
Definition at_time (t : Z) (w : world) : world :=
  World t (redis_fault w) (redis_db w) (redis_wire w) (sql_rows w) (utcnow w)
        (_redis_instance w) (constructed w) (utc_later w).

(** The clock of the application after one reading: it shows the next of
    the readings to come, and stands still once they are used up. *)
Definition tick (w : world) : world :=
  match utc_later w with
  | [] => w
  | t :: later =>
      World (redis_now w) (redis_fault w) (redis_db w) (redis_wire w) (sql_rows w)
            (Datetime.reading t) (_redis_instance w) (constructed w) later
  end.

(** Computations that read and write the world and may raise. *)
Definition Py (A : Type) : Type := world -> result A * world.

Definition ret {A} (a : A) : Py A := fun w => (Ok a, w).
Definition raise {A} (e : exn) : Py A := fun w => (Raise e, w).
Definition bind {A B} (m : Py A) (k : A -> Py B) : Py B :=
  fun w => match m w with
           | (Ok a, w') => k a w'
           | (Raise e, w') => (Raise e, w')
           end.

Notation "'do' x <- m ; k" := (bind m (fun x => k))
  (at level 10, x name, m at level 100, k at level 200).

(** [datetime.utcnow()]: every call is a reading of its own. *)
Definition datetime_utcnow : Py Datetime.datetime :=
  fun w => (Ok (utcnow w), tick w).

(** [try: body / except redis.RedisError: handler]. *)
Definition try_except_RedisError {A} (body handler : Py A) : Py A :=
  fun w => match body w with
           | (Raise (RedisError _), w') => handler w'
           | r => r
           end.

(** ** The client library, as the application calls it *)

Definition py_truthy (r : Redis.reply) : bool :=
  match r with
  | Redis.Nil => false
  | Redis.Bulk s => negb (String.eqb s EmptyString)
  | Redis.Integer z => negb (z =? 0)
  | Redis.Ok_ => true
  | Redis.Array l => negb (Nat.eqb (length l) 0)
  | Redis.Error _ => true
  end.

(** [int(x)] on a value the client returned. *)
Definition py_int_of (r : Redis.reply) : Py Z :=
  match r with
  | Redis.Integer z => ret z
  | Redis.Bulk s => match py_int s with Some z => ret z | None => raise ValueError end
  | _ => raise TypeError
  end.

Fixpoint first_error (rs : list Redis.reply) : option string :=
  match rs with
  | [] => None
  | Redis.Error msg :: _ => Some msg
  | _ :: rs' => first_error rs'
  end.

(** One round trip.  An unreachable server fails it as a whole and nothing
    runs; otherwise the commands run back to back and the first error among
    the replies, if any, is raised once all of them have run. *)
Definition send (b : batch) : Py (list Redis.reply) :=
  fun w =>
    match redis_fault w with
    | Some f => (Raise (RedisError f), w)
    | None =>
        let '(rs, db) := Redis.run_all (redis_now w) (commands b) (redis_db w) in
        let w' := with_redis db (b :: redis_wire w) w in
        match first_error rs with
        | Some msg => (Raise (RedisError (ResponseError msg)), w')
        | None => (Ok rs, w')
        end
    end.

Definition call (c : Redis.command) : Py Redis.reply :=
  do rs <- send (Batch false [c]);
  match rs with
  | [r] => ret r
  | _ => raise (RedisError (ResponseError "protocol"))
  end.

(** Attribute access on a name that may hold [None]. *)
Definition deref {A} (o : option A) : Py A :=
  match o with
  | Some a => ret a
  | None => raise AttributeError
  end.

Module Client.

(** [await client.get(key)] *)
Definition get (client : option RedisClient) (key : string) : Py (option string) :=
  do _ <- deref client;
  do r <- call (Redis.GET key);
  match r with
  | Redis.Bulk s => ret (Some s)
  | _ => ret None
  end.

(** [await client.set(key, value, ex=seconds)] *)
Definition set (client : option RedisClient) (key value : string) (ex : Z) : Py unit :=
  do _ <- deref client;
  do _ <- call (Redis.SET key value (Some ex));
  ret tt.

(** [await client.delete(key)] *)
Definition delete (client : option RedisClient) (key : string) : Py unit :=
  do _ <- deref client;
  do _ <- call (Redis.DEL key);
  ret tt.

(** [await client.lrange(key, start, end)] *)
Definition lrange (client : option RedisClient) (key : string) (start stop : Z)
    : Py (list string) :=
  do _ <- deref client;
  do r <- call (Redis.LRANGE key start stop);
  match r with
  | Redis.Array l => ret l
  | _ => ret []
  end.

(** [client.pipeline()]: an empty transactional pipeline; the commands
    queue up in the object until [execute]. *)
Definition pipeline (client : option RedisClient) : Py (list Redis.command) :=
  do _ <- deref client;
  ret [].

Definition incr (pipe : list Redis.command) (key : string) (amount : Z) :=
  (pipe ++ [Redis.INCRBY key amount])%list.
Definition expire (pipe : list Redis.command) (key : string) (seconds : Z) (nx : bool) :=
  (pipe ++ [Redis.EXPIRE key seconds nx])%list.
Definition lrem (pipe : list Redis.command) (key : string) (count : Z) (value : string) :=
  (pipe ++ [Redis.LREM key count value])%list.
Definition lpush (pipe : list Redis.command) (key value : string) :=
  (pipe ++ [Redis.LPUSH key value])%list.
Definition ltrim (pipe : list Redis.command) (key : string) (start stop : Z) :=
  (pipe ++ [Redis.LTRIM key start stop])%list.

(** [await pipe.execute()] *)
Definition execute (pipe : list Redis.command) : Py (list Redis.reply) :=
  send (Batch true pipe).

End Client.

(** ** [app/schemas.py]: the validated [Note] *)
Module Schemas.
Import Json.

Record Note := {
  title : string;
  content : string;
  tags : option (list string);
  id : Z;
  created_at : Datetime.datetime;
  updated_at : Datetime.datetime;
  is_deleted : bool;
  deleted_at : option Datetime.datetime
}.

Definition len_between (lo hi : nat) (s : string) : bool :=
  (lo <=? String.length s)%nat && (String.length s <=? hi)%nat.

(** [validate_tags]: every tag is a string of 1 to 30 characters. *)
Definition validate_tags (tags : option (list string)) : bool :=
  match tags with
  | None => true
  | Some l => forallb (len_between 1 30) l
  end.

(** What construction checks: the [Field] bounds and the tag validator. *)
Definition fields_ok (t c : string) (tg : option (list string)) : bool :=
  len_between 1 100 t && len_between 1 5000 c && validate_tags tg.

(** The invariant of an instance: its fields passed validation and its
    timestamps are [datetime] objects. *)
Definition valid (n : Note) : bool :=
  fields_ok (title n) (content n) (tags n) &&
  Datetime.valid (created_at n) && Datetime.valid (updated_at n) &&
  match deleted_at n with Some d => Datetime.valid d | None => true end.

Definition json_of_datetime (d : Datetime.datetime) : json :=
  JStr (Datetime.isoformat d).

(** [note.model_dump_json()] *)
Definition model_dump_json (n : Note) : string :=
  dumps (JObj [
    ("title", JStr (title n));
    ("content", JStr (content n));
    ("tags", match tags n with Some l => JArr (map JStr l) | None => JNull end);
    ("id", JInt (id n));
    ("created_at", json_of_datetime (created_at n));
    ("updated_at", json_of_datetime (updated_at n));
    ("is_deleted", JBool (is_deleted n));
    ("deleted_at", match deleted_at n with
                   | Some d => json_of_datetime d
                   | None => JNull
                   end)]).

(** A key of the dictionary [json.loads] builds: the last binding wins. *)
Fixpoint dict_get (name : string) (ms : list (string * json)) : option json :=
  match ms with
  | [] => None
  | (k, v) :: ms' =>
      match dict_get name ms' with
      | Some v' => Some v'
      | None => if String.eqb k name then Some v else None
      end
  end.

Definition as_str (j : json) : option string :=
  match j with JStr s => Some s | _ => None end.
Definition as_int (j : json) : option Z :=
  match j with JInt z => Some z | _ => None end.
Definition as_bool (j : json) : option bool :=
  match j with JBool b => Some b | _ => None end.
Definition as_datetime (j : json) : option Datetime.datetime :=
  match j with JStr s => Datetime.fromisoformat s | _ => None end.

Fixpoint as_str_list (l : list json) : option (list string) :=
  match l with
  | [] => Some []
  | x :: l' =>
      match as_str x, as_str_list l' with
      | Some s, Some ss => Some (s :: ss)
      | _, _ => None
      end
  end.

(** An optional field: absent or [null] gives [None]. *)
Definition optional {A} (read : json -> option A) (o : option json)
    : option (option A) :=
  match o with
  | None | Some JNull => Some None
  | Some j => match read j with Some a => Some (Some a) | None => None end
  end.

Definition required {A} (read : json -> option A) (o : option json) : option A :=
  match o with
  | Some j => read j
  | None => None
  end.

(** Validation of the keyword arguments; extra keys are ignored.  The
    coercions of the library's lax mode (a numeric string for [id], and the
    like) are not modelled: a field of another JSON type is rejected here,
    so a [None] is taken for the library's verdict only where a required
    field is missing. *)
Definition validate (ms : list (string * json)) : option Note :=
  match required as_str (dict_get "title" ms),
        required as_str (dict_get "content" ms),
        optional (fun j => match j with JArr l => as_str_list l | _ => None end)
                 (dict_get "tags" ms),
        required as_int (dict_get "id" ms),
        required as_datetime (dict_get "created_at" ms),
        required as_datetime (dict_get "updated_at" ms),
        required as_bool (dict_get "is_deleted" ms),
        optional as_datetime (dict_get "deleted_at" ms) with
  | Some t, Some c, Some tg, Some i, Some ca, Some ua, Some del, Some da =>
      if fields_ok t c tg
      then Some {| title := t; content := c; tags := tg; id := i;
                   created_at := ca; updated_at := ua;
                   is_deleted := del; deleted_at := da |}
      else None
  | _, _, _, _, _, _, _, _ => None
  end.

(** The constructor [Note], called with the keys of [payload] as its
    keyword arguments. *)
Definition new (payload : json) : Py Note :=
  match payload with
  | JObj ms =>
      match validate ms with
      | Some n => ret n
      | None => raise ValidationError
      end
  | _ => raise TypeError
  end.

(** [Note.model_validate(row)], reading the attributes of a row. *)
Definition model_validate (row : Models.Note) : Py Note :=
  if fields_ok (Models.title row) (Models.content row) (Models.tags row)
  then ret {| title := Models.title row; content := Models.content row;
              tags := Models.tags row; id := Models.id row;
              created_at := Models.created_at row;
              updated_at := Models.updated_at row;
              is_deleted := Models.is_deleted row;
              deleted_at := Models.deleted_at row |}
  else raise ValidationError.

(** [NoteCreate]: the body of a creation request.  The framework builds
    it, and checks it as [fields_ok] does, before the handler runs.  (Its
    fields are those of [NoteBase]; the names are prefixed here, those of
    [Note] being taken.) *)
Record NoteCreate := {
  nc_title : string;
  nc_content : string;
  nc_tags : option (list string)
}.

Record NotesListResponse := {
  total : Z;
  items : list Note
}.

End Schemas.

(** A request, as far as the handlers look at it. *)
Record Address := { host : string; port : Z }.
Record Request := { client : option Address }.

(** ** [app/redis_client.py] *)
Module RedisClientModule.
Section WithSettings.
Variable settings : Config.Settings.

(** What the client library makes of a URL: the exception it raises on
  it, if any ([ValueError] for a URL whose scheme is none of [redis://],
  [rediss://] and [unix://], or whose port or options do not parse).
  The library is not part of the application; the definitions below are
  given for whatever it decides. *)
Variable url_error : string -> option exn.

(** [redis.from_url(url)]: parses the URL, builds a client object and
  connects to nothing; the server is first contacted by a command. *)
Definition from_url (url : string) : Py RedisClient :=
fun w =>
  match url_error url with
  | Some e => (Raise e, w)
  | None =>
      let c := {| client_no := constructed w |} in
      (Ok c, World (redis_now w) (redis_fault w) (redis_db w) (redis_wire w)
                   (sql_rows w) (utcnow w) (_redis_instance w) (S (constructed w))
                   (utc_later w))
  end.

Definition read_instance : Py (option RedisClient) :=
fun w => (Ok (_redis_instance w), w).

Definition write_instance (c : RedisClient) : Py unit :=
fun w => (Ok tt, World (redis_now w) (redis_fault w) (redis_db w) (redis_wire w)
                       (sql_rows w) (utcnow w) (Some c) (constructed w)
                       (utc_later w)).

(** [get_redis], run without interruption: the lock is free when it is
  taken and is released before the return, or when an exception leaves
  the block. *)
Definition get_redis : Py (option RedisClient) :=
do outer <- read_instance;
do _ <- match outer with
        | None =>
            do inner <- read_instance;
            match inner with
            | None =>
                do c <- from_url (Config.redis_url settings);
                write_instance c
            | Some _ => ret tt
            end
        | Some _ => ret tt
        end;
read_instance.

(** [redis_dependency]: the client the framework hands to a handler. *)
Definition redis_dependency : Py (option RedisClient) := get_redis.

(** *** [get_redis] under interleaving

  Several callers run [get_redis] at once.  Each is at one of its
  statements; a scheduler picks which caller takes the next step.  The
  granularity is one statement, finer than the event loop's, which only
  switches at an [await]. *)
Inductive pc :=
| AtOuterCheck                        (* if _redis_instance is None: *)
| AtAcquire                           (*   async with _lock: *)
| AtInnerCheck                        (*     if _redis_instance is None: *)
| AtConstruct                         (*       _redis_instance = redis.from_url(...) *)
| AtRelease                           (*   the end of the [with] block *)
| AtReturn                            (* return _redis_instance *)
| Returned (c : option RedisClient)
| Raised (e : exn).                   (* an exception left the call *)

(** The callers, the world they share, and [_lock]: free, or held by the
  caller of that index. *)
Record callers := Callers {
shared : world;
lock : option nat;
pcs : list pc
}.

Definition is_none {A} (o : option A) : bool :=
match o with None => true | Some _ => false end.

Definition at_pc (i : nat) (p : pc) (st : callers) : callers :=
Callers (shared st) (lock st) (<[i := p]> (pcs st)).

(** One step of caller [i]; [None] when it has returned or raised, waits
  for the lock, or does not exist.  An exception raised in the [with]
  block releases the lock on its way out. *)
Definition step (i : nat) (st : callers) : option callers :=
match pcs st !! i with
| Some AtOuterCheck =>
    Some (at_pc i (if is_none (_redis_instance (shared st))
                   then AtAcquire else AtReturn) st)
| Some AtAcquire =>
    match lock st with
    | None => Some (Callers (shared st) (Some i) (<[i := AtInnerCheck]> (pcs st)))
    | Some _ => None
    end
| Some AtInnerCheck =>
    Some (at_pc i (if is_none (_redis_instance (shared st))
                   then AtConstruct else AtRelease) st)
| Some AtConstruct =>
    match (do c <- from_url (Config.redis_url settings);
           write_instance c) (shared st) with
    | (Ok _, w) => Some (Callers w (lock st) (<[i := AtRelease]> (pcs st)))
    | (Raise e, w) => Some (Callers w None (<[i := Raised e]> (pcs st)))
    end
| Some AtRelease =>
    Some (Callers (shared st) None (<[i := AtReturn]> (pcs st)))
| Some AtReturn =>
    Some (at_pc i (Returned (_redis_instance (shared st))) st)
| Some (Returned _) | Some (Raised _) | None => None
end.

(** A schedule names the caller to step, turn by turn; a turn given to a
  caller that cannot step is lost. *)
Fixpoint run (schedule : list nat) (st : callers) : callers :=
match schedule with
| [] => st
| i :: schedule' =>
    run schedule' (match step i st with Some st' => st' | None => st end)
end.

(** [n] callers enter [get_redis] with the lock free. *)
Definition start (n : nat) (w : world) : callers :=
Callers w None (replicate n AtOuterCheck).

End WithSettings.
End RedisClientModule.

(** ** [app/cache.py] *)
Module Cache.
Section WithSettings.
Variable settings : Config.Settings.

Definition _note_cache_key (note_id : Z) : string := "note:" +:+ str note_id.

Definition get_cached_note (client : option RedisClient) (note_id : Z)
  : Py (option Schemas.Note) :=
do data <- Client.get client (_note_cache_key note_id);
match data with
| None => ret None
| Some EmptyString => ret None
| Some bytes =>
    match Json.loads bytes with
    | None => raise JSONDecodeError
    | Some payload =>
        do note <- Schemas.new payload;
        ret (Some note)
    end
end.

Definition cache_note (client : option RedisClient) (note : Schemas.Note) : Py unit :=
Client.set client (_note_cache_key (Schemas.id note))
  (Schemas.model_dump_json note) (Config.note_cache_ttl_seconds settings).

Definition invalidate_note_cache (client : option RedisClient) (note_id : Z) : Py unit :=
Client.delete client (_note_cache_key note_id).

End WithSettings.
End Cache.

(** ** [app/rate_limit.py] *)
Module RateLimit.
Section WithSettings.
Variable settings : Config.Settings.

Definition _rate_limit_key (ip : string) : string := "rate:ip:" +:+ ip.

Definition HTTP_429_TOO_MANY_REQUESTS : Z := 429.

Definition rate_limiter (request : Request) (client_ : option RedisClient) : Py unit :=
let client_ip := match client request with
                 | Some a => host a
                 | None => "unknown"
                 end in
let key := _rate_limit_key client_ip in
do pipe <- Client.pipeline client_;
do counted <-
  try_except_RedisError
    (let pipe := Client.incr pipe key 1 in
     let pipe := Client.expire pipe key (Config.rate_limit_window_seconds settings) true in
     do replies <- Client.execute pipe;
     match replies with
     | [current_count; _] => ret (Some current_count)
     | _ => raise ValueError
     end)
    (* if Redis fails, skip throttling to favor availability. *)
    (ret None);
match counted with
| None => ret tt
| Some current_count =>
    if py_truthy current_count then
      do n <- py_int_of current_count;
      if n >? Config.rate_limit settings
      then raise (HTTPException HTTP_429_TOO_MANY_REQUESTS
                    "Rate limit exceeded. Try again later.")
      else ret tt
    else ret tt
end.

End WithSettings.
End RateLimit.

(** ** [app/recent.py] *)
Module Recent.
Section WithSettings.
Variable settings : Config.Settings.

Definition _recent_key (ip : string) : string := "recent:ip:" +:+ ip.

Definition push_recent_note (client : option RedisClient) (ip : string) (note_id : Z)
  : Py unit :=
let key := _recent_key ip in
do pipe <- Client.pipeline client;
let pipe := Client.lrem pipe key 0 (str note_id) in
let pipe := Client.lpush pipe key (str note_id) in
let pipe := Client.ltrim pipe key 0 (Config.recent_notes_limit settings - 1) in
let pipe := Client.expire pipe key (Config.rate_limit_window_seconds settings) false in
do _ <- Client.execute pipe;
ret tt.

Fixpoint ints (values : list string) : Py (list Z) :=
match values with
| [] => ret []
| v :: values' =>
    match py_int v with
    | Some n => do ns <- ints values'; ret (n :: ns)
    | None => raise ValueError
    end
end.

Definition get_recent_notes (client : option RedisClient) (ip : string) : Py (list Z) :=
let key := _recent_key ip in
do values <- Client.lrange client key 0 (Config.recent_notes_limit settings - 1);
ints values.

End WithSettings.
End Recent.

(** ** The table [notes], as the statements of [app/crud.py] read it

    The semantics are those of SQLite, the default [DATABASE_URL]: [LIKE]
    has the wildcards [%] and [_] and no escape character, and folds the
    case of the ASCII letters, as [lower] does; an inserted row gets the
    rowid after the largest in the table; an integer parameter outside 64
    bits is refused by the driver with [OverflowError] before the statement
    runs.  Characters are the 256 of [ascii]. *)
Module Sql.

Definition is_upper (c : ascii) : bool :=
  (65 <=? nat_of_ascii c)%nat && (nat_of_ascii c <=? 90)%nat.

Definition lower_char (c : ascii) : ascii :=
  if is_upper c then ascii_of_nat (nat_of_ascii c + 32) else c.

(** [lower(x)] *)
Fixpoint lower (s : string) : string :=
  match s with
  | EmptyString => EmptyString
  | String c s' => String (lower_char c) (lower s')
  end.

(** [text LIKE pattern] *)
Fixpoint like (pattern text : string) : bool :=
  match pattern with
  | EmptyString => match text with EmptyString => true | _ => false end
  | String p pattern' =>
      if Ascii.eqb p "%" then
        (fix rest (text : string) : bool :=
           like pattern' text ||
           match text with
           | EmptyString => false
           | String _ text' => rest text'
           end) text
      else
        match text with
        | EmptyString => false
        | String c text' =>
            (Ascii.eqb p "_" || Ascii.eqb (lower_char p) (lower_char c)) &&
            like pattern' text'
        end
  end.

(** [column.ilike(pattern)], which the SQLite dialect renders as
    [lower(column) LIKE lower(pattern)]. *)
Definition ilike (column pattern : string) : bool :=
  like (lower pattern) (lower column).

(** [ORDER BY]: [before x y] tells that [x] may come before [y].  Rows
    that compare equal come in an order the database is free to choose;
    here it is the order of the scan. *)
Section OrderBy.
Context {A : Type} (before : A -> A -> bool).

Fixpoint insert_row (x : A) (l : list A) : list A :=
  match l with
  | [] => [x]
  | y :: l' => if before x y then x :: l else y :: insert_row x l'
  end.

Definition order_by (l : list A) : list A := foldr insert_row [] l.
End OrderBy.

(** The rows of a table, as a scan meets them. *)
Definition scan {A} (rows : gmap Z A) : list A := map snd (map_to_list rows).

(** The range of an [INTEGER] column, and of a bound integer parameter:
    64 bits, signed. *)
Definition min_integer : Z := - 2 ^ 63.
Definition max_integer : Z := 2 ^ 63 - 1.

Definition fits_integer (z : Z) : bool := (min_integer <=? z) && (z <=? max_integer).

Definition largest_rowid {A} (rows : gmap Z A) : option Z :=
  foldr (fun k acc => Some (match acc with Some m => Z.max k m | None => k end))
        None (map fst (map_to_list rows)).

(** The rowid of an inserted row: 1 in an empty table, else one more than
    the largest.  (Once the largest is [max_integer], SQLite tries unused
    rowids at random instead; that corner is outside the model, and what is
    proved of the new identifier is proved of tables below it.) *)
Definition next_rowid {A} (rows : gmap Z A) : Z :=
  match largest_rowid rows with
  | Some m => m + 1
  | None => 1
  end.

End Sql.

(** ** [app/crud.py] *)
Module Crud.

(** The statement selects on the primary key.  Binding a [note_id]
    outside the range of the column raises.  No row is stored under such
    an identifier, so the two tests are taken in the order that reads a row
    first: on every table the database can hold the result is the same. *)
Definition get_note (note_id : Z) (include_deleted : bool) : Py (option Models.Note) :=
  fun w =>
    match sql_rows w !! note_id with
    | Some row =>
        (Ok (if negb include_deleted && Models.is_deleted row then None else Some row), w)
    | None =>
        if Sql.fits_integer note_id then (Ok None, w) else (Raise OverflowError, w)
    end.

(** The row is marked and stamped by the function, which reads the clock
    for [deleted_at]; at the commit the [onupdate] default of the column
    [updated_at] reads it again, and the row is written back. *)
Definition soft_delete_note (note : Models.Note) : Py Models.Note :=
  do deleted_at <- datetime_utcnow;
  do updated_at <- datetime_utcnow;
  fun w =>
    let note' := {| Models.id := Models.id note;
                    Models.title := Models.title note;
                    Models.content := Models.content note;
                    Models.tags := Models.tags note;
                    Models.created_at := Models.created_at note;
                    Models.updated_at := updated_at;
                    Models.is_deleted := true;
                    Models.deleted_at := Some deleted_at |} in
    (Ok note', with_rows (<[Models.id note := note']> (sql_rows w)) w).

(** The row is inserted with the defaults of its columns and read back.
    Each of the two timestamps is a reading of the clock of its own, taken
    at the commit in the order of the columns. *)
Definition create_note (note_in : Schemas.NoteCreate) : Py Models.Note :=
  do created_at <- datetime_utcnow;
  do updated_at <- datetime_utcnow;
  fun w =>
    let note := {| Models.id := Sql.next_rowid (sql_rows w);
                   Models.title := Schemas.nc_title note_in;
                   Models.content := Schemas.nc_content note_in;
                   Models.tags := Some (match Schemas.nc_tags note_in with
                                        | Some ((_ :: _) as tags) => tags
                                        | _ => []
                                        end);
                   Models.created_at := created_at;
                   Models.updated_at := updated_at;
                   Models.is_deleted := false;
                   Models.deleted_at := None |} in
    (Ok note, with_rows (<[Models.id note := note]> (sql_rows w)) w).

(** [note.tags and tag in note.tags] *)
Definition tagged (tag : string) (note : Models.Note) : bool :=
  match Models.tags note with
  | Some ((_ :: _) as tags) => existsb (String.eqb tag) tags
  | _ => false
  end.

(** The rows that pass the filters, newest first; the filter on the tag
    runs in the interpreter, on the rows the statement returned. *)
Definition list_notes (tag title_contains : option string) (include_deleted : bool)
  : Py (list Models.Note) :=
  fun w =>
    let stmt := Sql.scan (sql_rows w) in
    let stmt := if negb include_deleted
                then filter (fun note => negb (Models.is_deleted note)) stmt
                else stmt in
    let stmt := match title_contains with
                | Some ((String _ _) as title_contains) =>
                    filter (fun note =>
                              Sql.ilike (Models.title note)
                                ("%" +:+ title_contains +:+ "%")) stmt
                | _ => stmt
                end in
    let results :=
      Sql.order_by (fun a b => Datetime.leb (Models.created_at b) (Models.created_at a))
                   stmt in
    let results := match tag with
                   | Some ((String _ _) as tag) =>
                       filter (fun note => tagged tag note) results
                   | _ => results
                   end in
    (Ok results, w).

End Crud.

(** ** [app/main.py] *)
Module Main.
Section WithSettings.
Variable settings : Config.Settings.
(** The client library's verdict on a URL, as in [redis_client.py]. *)
Variable url_error : string -> option exn.

Definition HTTP_404_NOT_FOUND : Z := 404.

Definition is_none {A} (o : option A) : bool :=
match o with None => true | Some _ => false end.

Definition _safe_cache_note (client_ : option RedisClient) (note : Schemas.Note) : Py unit :=
if is_none client_ then ret tt
else try_except_RedisError (Cache.cache_note settings client_ note) (ret tt).

Definition _safe_get_cached_note (client_ : option RedisClient) (note_id : Z)
  : Py (option Schemas.Note) :=
if is_none client_ then ret None
else try_except_RedisError (Cache.get_cached_note client_ note_id) (ret None).

Definition _safe_invalidate_cache (client_ : option RedisClient) (note_id : Z) : Py unit :=
if is_none client_ then ret tt
else try_except_RedisError (Cache.invalidate_note_cache client_ note_id) (ret tt).

Definition _safe_push_recent (client_ : option RedisClient) (request : Request)
  (note_id : Z) : Py unit :=
if is_none client_ then ret tt
else if is_none (client request) then ret tt
else
  try_except_RedisError
    (do a <- deref (client request);
     Recent.push_recent_note settings client_ (host a) note_id)
    (ret tt).

Definition _safe_get_recent (client_ : option RedisClient) (request : Request)
  : Py (list Z) :=
if is_none client_ || is_none (client request) then ret []
else
  try_except_RedisError
    (do a <- deref (client request);
     Recent.get_recent_notes settings client_ (host a))
    (ret []).

Definition read_note (note_id : Z) (request : Request)
  (cache_client : option RedisClient) (use_cache include_deleted : bool)
  : Py Schemas.Note :=
do cached <-
  (if use_cache then
     do note_schema <- _safe_get_cached_note cache_client note_id;
     match note_schema with
     | Some _ =>
         do _ <- _safe_push_recent cache_client request note_id;
         ret note_schema
     | None => ret None
     end
   else ret None);
match cached with
| Some note_schema => ret note_schema
| None =>
    do note <- Crud.get_note note_id include_deleted;
    match note with
    | None => raise (HTTPException HTTP_404_NOT_FOUND "Note not found")
    | Some note =>
        do note_schema <- Schemas.model_validate note;
        do _ <- _safe_cache_note cache_client note_schema;
        do _ <- _safe_push_recent cache_client request note_id;
        ret note_schema
    end
end.

Definition delete_note (note_id : Z) (cache_client : option RedisClient)
  : Py Schemas.Note :=
do note <- Crud.get_note note_id true;
match note with
| None => raise (HTTPException HTTP_404_NOT_FOUND "Note not found")
| Some note =>
    if Models.is_deleted note
    then raise (HTTPException HTTP_404_NOT_FOUND "Note not found")
    else
      do note <- Crud.soft_delete_note note;
      do note_schema <- Schemas.model_validate note;
      do _ <- _safe_invalidate_cache cache_client note_id;
      ret note_schema
end.

Definition HTTP_201_CREATED : Z := 201.

Definition create_note (note_in : Schemas.NoteCreate) (cache_client : option RedisClient)
: Py Schemas.Note :=
do note <- Crud.create_note note_in;
do note_schema <- Schemas.model_validate note;
do _ <- _safe_cache_note cache_client note_schema;
ret note_schema.

(** [[schemas.Note.model_validate(note) for note in notes]] *)
Fixpoint model_validate_each (notes : list Models.Note) : Py (list Schemas.Note) :=
match notes with
| [] => ret []
| note :: notes' =>
    do item <- Schemas.model_validate note;
    do items <- model_validate_each notes';
    ret (item :: items)
end.

Definition list_notes (tag title_contains : option string) (include_deleted : bool)
: Py Schemas.NotesListResponse :=
do notes <- Crud.list_notes tag title_contains include_deleted;
do items <- model_validate_each notes;
ret {| Schemas.total := Z.of_nat (length items); Schemas.items := items |}.

(** The loop of [recent_notes], from the identifiers still to visit and
  the items appended so far. *)
Fixpoint for_note_id (note_ids : list Z) (items : list Schemas.Note)
: Py (list Schemas.Note) :=
match note_ids with
| [] => ret items
| note_id :: note_ids' =>
    do note <- Crud.get_note note_id false;
    match note with
    | Some note =>
        do item <- Schemas.model_validate note;
        for_note_id note_ids' (items ++ [item])%list
    | None => for_note_id note_ids' items
    end
end.

Definition recent_notes (request : Request) (cache_client : option RedisClient)
: Py (list Schemas.Note) :=
do note_ids <- _safe_get_recent cache_client request;
for_note_id note_ids [].

(** A route declared with [dependencies=[Depends(rate_limiter)]]: the
  framework resolves [redis_dependency] once for the request, runs the
  limiter with the client and, when the limiter has returned, calls the
  handler with that same client.  An exception of [redis_dependency]
  ends the request before either runs. *)
Definition route {A} (request : Request) (handler : option RedisClient -> Py A) : Py A :=
do client_ <- RedisClientModule.redis_dependency settings url_error;
do _ <- RateLimit.rate_limiter settings request client_;
handler client_.

End WithSettings.
End Main.

(** ** The vocabulary of the properties *)

(** The identity the limiter and the tracker file a request under. *)
Definition client_ip (request : Request) : string :=
  match client request with
  | Some a => host a
  | None => "unknown"
  end.

Definition rate_key (request : Request) : string :=
  RateLimit._rate_limit_key (client_ip request).

(** The rejection of the limiter. *)
Definition too_many : exn :=
  HTTPException RateLimit.HTTP_429_TOO_MANY_REQUESTS "Rate limit exceeded. Try again later.".

Definition not_found : exn :=
  HTTPException Main.HTTP_404_NOT_FOUND "Note not found".

(** The one round trip of the limiter. *)
Definition rate_batch (s : Config.Settings) (request : Request) : batch :=
  Batch true [Redis.INCRBY (rate_key request) 1;
              Redis.EXPIRE (rate_key request) (Config.rate_limit_window_seconds s) true].

(** The one round trip of a push onto the recent list. *)
Definition push_batch (s : Config.Settings) (ip : string) (note_id : Z) : batch :=
  Batch true [Redis.LREM (Recent._recent_key ip) 0 (str note_id);
              Redis.LPUSH (Recent._recent_key ip) (str note_id);
              Redis.LTRIM (Recent._recent_key ip) 0 (Config.recent_notes_limit s - 1);
              Redis.EXPIRE (Recent._recent_key ip) (Config.rate_limit_window_seconds s) false].

(** The count the server holds for a client: 0 when the key is absent or
    has expired. *)
Definition counter (ip : string) (w : world) : Z :=
  match Redis.peek (redis_now w) (RateLimit._rate_limit_key ip) (redis_db w) with
  | Some (Redis.Entry (Redis.VString v) _) => default 0 (py_int v)
  | _ => 0
  end.

(** The absolute expiry time of a key, when it is live and has one. *)
Definition expiry (k : string) (w : world) : option Z :=
  match Redis.peek (redis_now w) k (redis_db w) with
  | Some e => Redis.e_expire e
  | None => None
  end.

(** The requests of one client, arriving at the given times of the
    server's clock. *)
Fixpoint requests (s : Config.Settings) (req : Request) (c : option RedisClient)
    (times : list Z) (w : world) : list (result unit) * world :=
  match times with
  | [] => ([], w)
  | t :: ts =>
      let '(r, w1) := RateLimit.rate_limiter s req c (at_time t w) in
      let '(rs, w2) := requests s req c ts w1 in
      (r :: rs, w2)
  end.

(** The window a first request at [t0] opens. *)
Definition in_window (s : Config.Settings) (t0 t : Z) : Prop :=
  t0 <= t <= t0 + Config.rate_limit_window_seconds s * 1000.


(** The list a client would read under a key: empty when the key is absent
    or has expired. *)
Definition stored_list (now : Z) (k : string) (db : gmap string Redis.entry) : list string :=
  match Redis.peek now k db with
  | Some (Redis.Entry (Redis.VList l) _) => l
  | _ => []
  end.

(** The key does not hold a plain string. *)
Definition no_string (now : Z) (k : string) (db : gmap string Redis.entry) : Prop :=
  forall v t, Redis.peek now k db <> Some (Redis.Entry (Redis.VString v) t).

(** An expiry time that has not passed. *)
Definition live (now : Z) (ttl : option Z) : Prop :=
  match ttl with Some t => now <= t | None => True end.

(** A push, in the words of the specification: any earlier occurrence is
    removed, the identifier goes in front, the list is cut to the maximum. *)
Definition move_to_front (limit : nat) (id : Z) (l : list Z) : list Z :=
  take limit (id :: filter (fun x => x <> id) l).





(** The configured maximum, as a length. *)
Definition limit_of (s : Config.Settings) : nat := Z.to_nat (Config.recent_notes_limit s).


(** A list without the occurrences of [v], as [LREM key 0 v] leaves it. *)
Definition without (v : string) (l : list string) : list string :=
  filter (fun x => negb (String.eqb x v)) l.

(** The store is unusable for a caller: unreachable or timing out, or the
    caller holds no client. *)
Definition store_fails (client_ : option RedisClient) (w : world) : Prop :=
  client_ = None \/ redis_fault w <> None.

(** The round trips of the cache. *)
Definition get_batch (note_id : Z) : batch :=
  Batch false [Redis.GET (Cache._note_cache_key note_id)].

Definition set_batch (s : Config.Settings) (note : Schemas.Note) : batch :=
  Batch false [Redis.SET (Cache._note_cache_key (Schemas.id note))
                 (Schemas.model_dump_json note)
                 (Some (Config.note_cache_ttl_seconds s))].

Definition del_batch (note_id : Z) : batch :=
  Batch false [Redis.DEL (Cache._note_cache_key note_id)].

(** *** JSON text *)

(** A string of decimal digits. *)
Fixpoint digits_only (s : string) : bool :=
  match s with
  | EmptyString => true
  | String c s' => Json.is_digit c && digits_only s'
  end.

(** What may follow a number in a document: nothing, or a character that
    is neither a digit nor the start of a fraction or an exponent. *)
Definition ends_number (rest : string) : Prop :=
  match rest with
  | EmptyString => True
  | String c _ => Json.is_digit c = false /\ Json.starts_fraction rest = false
  end.

(** The fuel the reader needs for a document. *)
Fixpoint size (j : Json.json) : nat :=
  match j with
  | Json.JArr l => S (fold_right (fun x n => S (size x + n)) O l)
  | Json.JObj ms => S (fold_right (fun m n => S (size (snd m) + n)) O ms)
  | _ => 1%nat
  end.

(** A character a document may start with. *)
Definition opens_value (c : ascii) : Prop :=
  Json.is_space c = false /\ Ascii.eqb c "]" = false /\ Ascii.eqb c "}" = false.

(** The reader returns the document from its text, whatever follows. *)
Definition reads_back (j : Json.json) : Prop :=
  forall fuel rest, (size j <= fuel)%nat -> ends_number rest ->
    Json.parse_value fuel (Json.dumps j +:+ rest) = Some (j, rest).

Definition items_size (l : list Json.json) : nat :=
  fold_right (fun x n => S (size x + n)) O l.

Definition members_size (ms : list (string * Json.json)) : nat :=
  fold_right (fun m n => S (size (snd m) + n)) O ms.

(** A member of an object, as the writer prints it. *)
Definition member_text (m : string * Json.json) : string :=
  Json.quote (fst m) +:+ String ":" (Json.dumps (snd m)).

(** [s] starts with [word]. *)
Definition has_prefix (word s : string) : bool :=
  match Json.after_word word s with Some _ => true | None => false end.






(** *** Concrete inputs *)

Definition noon : Datetime.datetime := Datetime.Datetime 2024 2 29 12 0 5 0.

Definition a_client : RedisClient := {| client_no := 0 |}.

Definition a_request : Request :=
  {| client := Some {| host := "203.0.113.7"; port := 51234 |} |}.

(** Three requests a minute, five recent records, the other settings at
    their defaults. *)
Definition three_a_minute : Config.Settings := {|
  Config.redis_url := "redis://localhost:6379/0";
  Config.rate_limit := 3;
  Config.rate_limit_window_seconds := 60;
  Config.note_cache_ttl_seconds := 300;
  Config.recent_notes_limit := 5
|}.

(** A reachable, empty store and an empty table, one second into the
    server's clock. *)
Definition quiet_world : world := World 1000 None ∅ [] ∅ noon None 0 [].

(** The same world with the server out of reach. *)
Definition unreachable_world : world :=
  World 1000 (Some ConnectionError) ∅ [] ∅ noon None 0 [].

Definition a_note : Schemas.Note := {|
  Schemas.title := "groceries";
  Schemas.content := "milk, eggs";
  Schemas.tags := Some ["home"; "todo"];
  Schemas.id := 1;
  Schemas.created_at := noon;
  Schemas.updated_at := noon;
  Schemas.is_deleted := false;
  Schemas.deleted_at := None
|}.

(** A row that has been soft-deleted. *)
Definition a_deleted_row : Models.Note := {|
  Models.id := 1;
  Models.title := "groceries";
  Models.content := "milk, eggs";
  Models.tags := Some ["home"; "todo"];
  Models.created_at := noon;
  Models.updated_at := noon;
  Models.is_deleted := true;
  Models.deleted_at := Some noon
|}.

Definition world_with_deleted_row : world :=
  World 1000 None ∅ [] {[ 1 := a_deleted_row ]} noon None 0 [].

(** A store whose cache entry for record 1 is not JSON. *)
Definition world_with_bad_entry : world :=
  World 1000 None {[ "note:1" := Redis.Entry (Redis.VString "not json") None ]} []
        ∅ noon None 0 [].

(** *** The callers of [get_redis] *)

(** The statements a caller runs while it holds the lock. *)
Definition in_critical (p : RedisClientModule.pc) : Prop :=
  p = RedisClientModule.AtInnerCheck \/ p = RedisClientModule.AtConstruct \/ p = RedisClientModule.AtRelease.

(** The client the first construction of a process builds. *)
Definition first_client : RedisClient := {| client_no := 0 |}.

(** What holds of the callers at every turn, for the settings and the
    verdict of the library they run under. *)
Record callers_ok (s : Config.Settings) (url_error : string -> option exn)
    (st : RedisClientModule.callers) : Prop := {
  ok_lock : forall i,
    (exists p, RedisClientModule.pcs st !! i = Some p /\ in_critical p) <-> RedisClientModule.lock st = Some i;
  ok_built :
    match _redis_instance (RedisClientModule.shared st) with
    | Some c => c = first_client /\ constructed (RedisClientModule.shared st) = 1%nat
    | None => constructed (RedisClientModule.shared st) = 0%nat
    end;
  ok_construct : forall i,
    RedisClientModule.pcs st !! i = Some RedisClientModule.AtConstruct -> _redis_instance (RedisClientModule.shared st) = None;
  ok_after : forall i,
    RedisClientModule.pcs st !! i = Some RedisClientModule.AtRelease \/ RedisClientModule.pcs st !! i = Some RedisClientModule.AtReturn ->
    _redis_instance (RedisClientModule.shared st) = Some first_client;
  ok_returned : forall i c,
    RedisClientModule.pcs st !! i = Some (RedisClientModule.Returned c) ->
    c = Some first_client /\ _redis_instance (RedisClientModule.shared st) = Some first_client;
  ok_raised : forall i e,
    RedisClientModule.pcs st !! i = Some (RedisClientModule.Raised e) ->
    url_error (Config.redis_url s) = Some e;
  ok_rejected :
    url_error (Config.redis_url s) <> None ->
    _redis_instance (RedisClientModule.shared st) = None
}.

(** The statements a caller has yet to run, at most. *)
Definition remaining (p : RedisClientModule.pc) : nat :=
  match p with
  | RedisClientModule.AtOuterCheck => 6
  | RedisClientModule.AtAcquire => 5
  | RedisClientModule.AtInnerCheck => 4
  | RedisClientModule.AtConstruct => 3
  | RedisClientModule.AtRelease => 2
  | RedisClientModule.AtReturn => 1
  | RedisClientModule.Returned _ | RedisClientModule.Raised _ => 0
  end.

Definition work (st : RedisClientModule.callers) : nat :=
  sum_list (map remaining (RedisClientModule.pcs st)).

(** A stretch of a schedule in which every one of [n] callers gets a turn. *)
Definition round (n : nat) (turns : list nat) : Prop :=
  forall i, (i < n)%nat -> i ∈ turns.

(** A schedule that starts with [k] rounds, one after another: no caller is
    kept waiting for ever. *)
Inductive fair (n : nat) : nat -> list nat -> Prop :=
| fair_rest schedule : fair n 0 schedule
| fair_round k turns schedule :
    round n turns -> fair n k schedule -> fair n (S k) (turns ++ schedule).

(** A verdict of the client library that asks for one of its three schemes
    and for nothing more. *)
Definition scheme_required (url : string) : option exn :=
  if has_prefix "redis://" url || has_prefix "rediss://" url ||
     has_prefix "unix://" url
  then None else Some ValueError.

(** Settings whose URL names a host and a port and no scheme. *)
Definition no_scheme : Config.Settings := {|
  Config.redis_url := "localhost:6379";
  Config.rate_limit := 3;
  Config.rate_limit_window_seconds := 60;
  Config.note_cache_ttl_seconds := 300;
  Config.recent_notes_limit := 5
|}.



(** Three callers race, taking turns statement by statement. *)
Definition round_robin : list nat :=
  concat (replicate 18 [0; 1; 2]%nat).

(** *** Round trips at the server *)









(** *** The table and its handlers *)

(** A row, as the response model shows it. *)
Definition to_schema (row : Models.Note) : Schemas.Note := {|
  Schemas.title := Models.title row;
  Schemas.content := Models.content row;
  Schemas.tags := Models.tags row;
  Schemas.id := Models.id row;
  Schemas.created_at := Models.created_at row;
  Schemas.updated_at := Models.updated_at row;
  Schemas.is_deleted := Models.is_deleted row;
  Schemas.deleted_at := Models.deleted_at row
|}.

(** The row passes the checks of the response model. *)
Definition row_ok (row : Models.Note) : Prop :=
  Schemas.fields_ok (Models.title row) (Models.content row) (Models.tags row) = true.

(** Every row sits under its own identifier and passes those checks. *)
Definition table_ok (rows : gmap Z Models.Note) : Prop :=
  forall k row, rows !! k = Some row -> Models.id row = k /\ row_ok row.

(** What may become of a row: its identifier, text, tags and creation time
    stay, and once it is marked deleted nothing of it changes any more. *)
Definition row_kept (row row' : Models.Note) : Prop :=
  Models.id row' = Models.id row /\
  Models.title row' = Models.title row /\
  Models.content row' = Models.content row /\
  Models.tags row' = Models.tags row /\
  Models.created_at row' = Models.created_at row /\
  (Models.is_deleted row = true -> row' = row).

(** No row is lost, and each is kept in that sense. *)
Definition rows_kept (rows rows' : gmap Z Models.Note) : Prop :=
  forall k row, rows !! k = Some row ->
    exists row', rows' !! k = Some row' /\ row_kept row row'.

(** Two worlds that differ in the content of the store and in the log of
    the round trips alone. *)
Definition store_only (w w' : world) : Prop :=
  exists db wire, w' = with_redis db wire w.

(** The row a soft delete leaves: marked, with the reading of the clock the
    function took for [deleted_at] and the one the commit took for
    [updated_at]. *)
Definition marked_deleted (deleted updated : Datetime.datetime) (row : Models.Note)
    : Models.Note := {|
  Models.id := Models.id row;
  Models.title := Models.title row;
  Models.content := Models.content row;
  Models.tags := Models.tags row;
  Models.created_at := Models.created_at row;
  Models.updated_at := updated;
  Models.is_deleted := true;
  Models.deleted_at := Some deleted
|}.

(** The server comes back, or goes away. *)
Definition with_fault (f : option redis_failure) (w : world) : world :=
  World (redis_now w) f (redis_db w) (redis_wire w) (sql_rows w) (utcnow w)
        (_redis_instance w) (constructed w) (utc_later w).

(** A computation that changes the content of the store and the log of
    the round trips alone. *)
Definition store_bound {A} (m : Py A) : Prop :=
  forall w, store_only w (snd (m w)).

(** What the table alone answers to a read of a record: the row, 404 for a
    record that is absent or left out as deleted, and the error of the driver
    for an identifier no row can have. *)
Definition table_read (note_id : Z) (include_deleted : bool) (rows : gmap Z Models.Note)
    : result Schemas.Note :=
  match rows !! note_id with
  | Some row =>
      if negb include_deleted && Models.is_deleted row then Raise not_found
      else if Schemas.fields_ok (Models.title row) (Models.content row) (Models.tags row)
           then Ok (to_schema row)
           else Raise ValidationError
  | None => if Sql.fits_integer note_id then Raise not_found else Raise OverflowError
  end.

(** The entry the cache holds for a record, to a client at time [now]. *)
Definition cached (now : Z) (note_id : Z) (db : gmap string Redis.entry) : option Redis.entry :=
  Redis.peek now (Cache._note_cache_key note_id) db.

(** The records of the identifiers that are in the table and not deleted,
    in the order of the identifiers. *)
Definition live_notes (rows : gmap Z Models.Note) (ids : list Z) : list Schemas.Note :=
  omap (fun id => match rows !! id with
                  | Some row => if Models.is_deleted row then None else Some (to_schema row)
                  | None => None
                  end) ids.

(** A computation that leaves what the store holds under a key as it is. *)
Definition leaves_key {A} (k : string) (m : Py A) : Prop :=
  forall w, redis_db (snd (m w)) !! k = redis_db w !! k.

(** *** Listings *)

(** A row passes the filters of a listing.  An empty text for the title or
    for the tag is no filter. *)
Definition selected (tag title_contains : option string) (include_deleted : bool)
    (row : Models.Note) : Prop :=
  (include_deleted = false -> Models.is_deleted row = false) /\
  (forall t, title_contains = Some t -> t <> EmptyString ->
     Sql.ilike (Models.title row) ("%" +:+ t +:+ "%") = true) /\
  (forall t, tag = Some t -> t <> EmptyString ->
     exists tags, Models.tags row = Some tags /\ t ∈ tags).

(** [a] may come before [b] in a listing: it was created no earlier. *)
Definition newer (a b : Models.Note) : Prop :=
  Datetime.leb (Models.created_at b) (Models.created_at a) = true.



(** *** Concrete tables *)

Definition a_new_note : Schemas.NoteCreate := {|
  Schemas.nc_title := "groceries";
  Schemas.nc_content := "milk, eggs";
  Schemas.nc_tags := Some ["home"; "todo"]
|}.

(** The row of record 1 before it was deleted. *)
Definition a_row : Models.Note := {|
  Models.id := 1;
  Models.title := "groceries";
  Models.content := "milk, eggs";
  Models.tags := Some ["home"; "todo"];
  Models.created_at := noon;
  Models.updated_at := noon;
  Models.is_deleted := false;
  Models.deleted_at := None
|}.

(** A later row, without tags. *)
Definition another_row : Models.Note := {|
  Models.id := 2;
  Models.title := "Garden plan";
  Models.content := "beans along the fence";
  Models.tags := Some [];
  Models.created_at := Datetime.Datetime 2024 3 1 8 30 0 0;
  Models.updated_at := Datetime.Datetime 2024 3 1 8 30 0 0;
  Models.is_deleted := false;
  Models.deleted_at := None
|}.

Definition world_with_row : world :=
  World 1000 None ∅ [] {[ 1 := a_row ]} noon None 0 [].

(** The same world, with a clock that has moved on by the next reading
    and again by the one after. *)
Definition a_moment_later : Datetime.instant :=
  Datetime.Instant (Datetime.Datetime 2024 2 29 12 0 5 180) eq_refl.

Definition two_moments_later : Datetime.instant :=
  Datetime.Instant (Datetime.Datetime 2024 2 29 12 0 5 950) eq_refl.

Definition world_with_row_ticking : world :=
  World 1000 None ∅ [] {[ 1 := a_row ]} noon None 0 [a_moment_later; two_moments_later].

Definition two_rows : gmap Z Models.Note := <[ 2 := another_row ]> {[ 1 := a_row ]}.

Definition world_with_two_rows : world :=
  World 1000 None ∅ [] two_rows noon None 0 [].

(** Record 1 is in the cache and the server is out of reach. *)
Definition world_cached_unreachable : world :=
  World 1000 (Some ConnectionError)
        {[ "note:1" := Redis.Entry (Redis.VString (Schemas.model_dump_json (to_schema a_row)))
                         (Some 301000) ]}
        [] {[ 1 := a_row ]} noon None 0 [].

(** The list of the client is full: five records viewed, record 1 among
    them. *)
Definition world_with_full_list : world :=
  World 1000 None
        {[ "recent:ip:203.0.113.7" :=
             Redis.Entry (Redis.VList ["3"; "1"; "4"; "5"; "6"]) (Some 61000) ]}
        [] two_rows noon None 0 [].

(** The client has viewed record 2 and then record 1, which has been
    deleted since. *)
Definition world_with_recent_list : world :=
  World 1000 None
        {[ "recent:ip:203.0.113.7" := Redis.Entry (Redis.VList ["1"; "2"]) (Some 61000) ]}
        [] (<[ 2 := another_row ]> {[ 1 := a_deleted_row ]}) noon None 0 [].
(** * Properties *)

Arguments Redis.run : simpl never.
Arguments Redis.run_all : simpl never.

(** ** Decimal text *)

Lemma py_int_str (z : Z) : py_int (str z) = Some z.
Proof.
  unfold py_int, str.
  rewrite NilZero.isi.
  - simpl. f_equal. apply DecimalZ.of_to.
  - destruct z; simpl; try discriminate.
    intros [= H]. exact (DecimalPos.Unsigned.to_uint_nonnil _ H).
  - destruct z; simpl; try discriminate.
    intros [= H]. exact (DecimalPos.Unsigned.to_uint_nonnil _ H).
Qed.

Lemma string2ll_str (z : Z) : Redis.string2ll (str z) = Some z.
Proof.
  unfold Redis.string2ll. rewrite py_int_str, String.eqb_refl. reflexivity.
Qed.

Lemma str_inj (a b : Z) : str a = str b -> a = b.
Proof.
  intros H. apply (f_equal py_int) in H. rewrite !py_int_str in H. congruence.
Qed.

(** ** The server: lazy expiry *)

Section RedisFacts.
Import Redis.
Implicit Types (db : gmap string entry) (k : string) (now : Z).

Lemma expire_if_needed_live now k db e :
  db !! k = Some e -> expired now e = false -> expire_if_needed now k db = db.
Proof. intros H1 H2. unfold expire_if_needed. now rewrite H1, H2. Qed.

Lemma expire_if_needed_gone now k db :
  peek now k db = None -> expire_if_needed now k db = delete k db.
Proof.
  unfold peek, expire_if_needed. destruct (db !! k) as [e|] eqn:E.
  - destruct (expired now e); [reflexivity | discriminate].
  - intros _. symmetry. now apply delete_id.
Qed.

Lemma expire_if_needed_lookup now k db :
  expire_if_needed now k db !! k = peek now k db.
Proof.
  unfold peek, expire_if_needed. destruct (db !! k) as [e|] eqn:E; [|exact E].
  destruct (expired now e); [apply lookup_delete_eq | exact E].
Qed.

Lemma expire_if_needed_other now k k' db :
  k <> k' -> expire_if_needed now k db !! k' = db !! k'.
Proof.
  intros Hne. unfold expire_if_needed. destruct (db !! k) as [e|]; [|reflexivity].
  destruct (expired now e); [now apply lookup_delete_ne | reflexivity].
Qed.

Lemma run_live now c db e :
  db !! key_of c = Some e -> expired now e = false -> run now c db = exec now c db.
Proof. intros H1 H2. unfold run. now rewrite (expire_if_needed_live _ _ _ _ H1 H2). Qed.

Lemma run_gone now c db :
  peek now (key_of c) db = None -> run now c db = exec now c (delete (key_of c) db).
Proof. intros H. unfold run. now rewrite (expire_if_needed_gone _ _ _ H). Qed.

Lemma expired_live now v t : now <= t -> expired now (Entry v (Some t)) = false.
Proof. intros H. unfold expired. cbn. lia. Qed.

Lemma run_all_cons now c cs db :
  run_all now (c :: cs) db =
    (let '(r, db1) := run now c db in
     let '(rs, db2) := run_all now cs db1 in (r :: rs, db2)).
Proof. reflexivity. Qed.

Lemma run_all_nil now db : run_all now [] db = ([], db).
Proof. reflexivity. Qed.

End RedisFacts.

(** ** The rate limiter *)

Section RateLimiterFacts.
Import Redis.
Variable s : Config.Settings.
Variable req : Request.
Variable c : RedisClient.

Lemma run_INCRBY_live now k a (db : gmap string entry) n ttl :
  db !! k = Some (Entry (VString (str n)) ttl) ->
  expired now (Entry (VString (str n)) ttl) = false ->
  run now (INCRBY k a) db =
    (Integer (n + a), <[k := Entry (VString (str (n + a))) ttl]> db).
Proof.
  intros Hk He. rewrite (run_live now (INCRBY k a) db _ Hk He). cbn [exec].
  now rewrite Hk, string2ll_str.
Qed.

Lemma run_INCRBY_fresh now k a (db : gmap string entry) :
  peek now k db = None ->
  run now (INCRBY k a) db = (Integer a, <[k := Entry (VString (str a)) None]> db).
Proof.
  intros Hk. rewrite (run_gone now (INCRBY k a) db Hk). cbn [exec key_of].
  now rewrite lookup_delete_eq, insert_delete_eq.
Qed.

Lemma run_INCRBY_keeps_expiry now k a (db : gmap string entry) v e :
  db !! k = Some (Entry v (Some e)) -> now <= e ->
  exists v', snd (run now (INCRBY k a) db) !! k = Some (Entry v' (Some e)).
Proof.
  intros Hk He.
  rewrite (run_live now (INCRBY k a) db _ Hk (expired_live _ _ _ He)). cbn [exec].
  rewrite Hk. destruct v as [v|l].
  - destruct (string2ll v); cbn; [rewrite lookup_insert_eq|]; eauto.
  - cbn. eauto.
Qed.

Lemma run_EXPIRE_nx_kept now k secs (db : gmap string entry) v t :
  db !! k = Some (Entry v (Some t)) -> now <= t ->
  run now (EXPIRE k secs true) db = (Integer 0, db).
Proof.
  intros Hk Ht.
  rewrite (run_live now (EXPIRE k secs true) db _ Hk (expired_live _ _ _ Ht)). cbn [exec].
  now rewrite Hk.
Qed.

Lemma run_EXPIRE_set now k secs nx (db : gmap string entry) v :
  db !! k = Some (Entry v None) -> 0 < secs ->
  run now (EXPIRE k secs nx) db =
    (Integer 1, <[k := Entry v (Some (now + secs * 1000))]> db).
Proof.
  intros Hk Hs. rewrite (run_live now (EXPIRE k secs nx) db _ Hk) by reflexivity.
  cbn [exec].
  rewrite Hk, andb_false_r.
  destruct (secs <=? 0) eqn:E; [lia | reflexivity].
Qed.

(** What the limiter does with the replies of its batch. *)
Lemma rate_limiter_counted w n r2 db :
  redis_fault w = None ->
  run_all (redis_now w) (commands (rate_batch s req)) (redis_db w)
    = ([Integer n; Integer r2], db) ->
  RateLimit.rate_limiter s req (Some c) w =
    (if negb (n =? 0) && (n >? Config.rate_limit s) then Raise too_many else Ok tt,
     with_redis db (rate_batch s req :: redis_wire w) w).
Proof.
  intros Hf Hrun.
  unfold RateLimit.rate_limiter, Client.pipeline, Client.execute, Client.incr,
    Client.expire, send, deref, try_except_RedisError, bind, ret.
  cbn [app]. fold (client_ip req). fold (rate_key req). fold (rate_batch s req).
  rewrite Hf, Hrun. cbn.
  destruct (n =? 0); cbn; [reflexivity|].
  unfold bind, ret, raise. destruct (n >? Config.rate_limit s); reflexivity.
Qed.

(** Whatever the replies, the limiter has sent its batch and nothing else. *)
Lemma rate_limiter_world w :
  redis_fault w = None ->
  snd (RateLimit.rate_limiter s req (Some c) w) =
    with_redis (snd (run_all (redis_now w) (commands (rate_batch s req)) (redis_db w)))
               (rate_batch s req :: redis_wire w) w.
Proof.
  intros Hf.
  unfold RateLimit.rate_limiter, Client.pipeline, Client.execute, Client.incr,
    Client.expire, send, deref, try_except_RedisError, bind, ret.
  cbn [app]. fold (client_ip req). fold (rate_key req). fold (rate_batch s req).
  rewrite Hf.
  destruct (run_all _ _ _) as [rs db]. cbn [snd].
  destruct (first_error rs); [reflexivity|].
  destruct rs as [|r1 [|r2 [|r3 rs]]]; try reflexivity.
  cbn. destruct (py_truthy r1); [|reflexivity].
  unfold bind. destruct r1; cbn; try reflexivity.
  - destruct (py_int s0); cbn; [|reflexivity].
    destruct (_ >? _); reflexivity.
  - destruct (_ >? _); reflexivity.
Qed.

(** A request that finds a live counter. *)
Lemma rate_limiter_next w n e :
  redis_fault w = None ->
  redis_db w !! rate_key req = Some (Entry (VString (str n)) (Some e)) ->
  redis_now w <= e -> 0 <= n ->
  RateLimit.rate_limiter s req (Some c) w =
    (if n + 1 >? Config.rate_limit s then Raise too_many else Ok tt,
     with_redis (<[rate_key req := Entry (VString (str (n + 1))) (Some e)]> (redis_db w))
                (rate_batch s req :: redis_wire w) w).
Proof.
  intros Hf Hk He Hn.
  rewrite (rate_limiter_counted w (n + 1) 0
             (<[rate_key req := Entry (VString (str (n + 1))) (Some e)]> (redis_db w)));
    auto.
  - replace (n + 1 =? 0) with false by lia. reflexivity.
  - cbn [rate_batch commands]. unfold run_all.
    rewrite (run_INCRBY_live _ _ _ _ _ _ Hk (expired_live _ _ _ He)).
    erewrite run_EXPIRE_nx_kept; [reflexivity | apply lookup_insert_eq | lia].
Qed.

(** A request that finds no counter, or an expired one. *)
Lemma rate_limiter_first w :
  redis_fault w = None ->
  peek (redis_now w) (rate_key req) (redis_db w) = None ->
  0 < Config.rate_limit_window_seconds s ->
  RateLimit.rate_limiter s req (Some c) w =
    (if 1 >? Config.rate_limit s then Raise too_many else Ok tt,
     with_redis (<[rate_key req := Entry (VString (str 1))
                     (Some (redis_now w + Config.rate_limit_window_seconds s * 1000))]>
                   (redis_db w))
                (rate_batch s req :: redis_wire w) w).
Proof.
  intros Hf Hk Hw.
  rewrite (rate_limiter_counted w 1 1
             (<[rate_key req := Entry (VString (str 1))
                     (Some (redis_now w + Config.rate_limit_window_seconds s * 1000))]>
                   (redis_db w))); auto.
  cbn [rate_batch commands]. unfold run_all.
  rewrite (run_INCRBY_fresh _ _ _ _ Hk).
  erewrite run_EXPIRE_set; [| apply lookup_insert_eq | lia].
  now rewrite insert_insert_eq.
Qed.

Lemma requests_counted ts : forall w n e,
  redis_fault w = None ->
  redis_db w !! rate_key req = Some (Entry (VString (str n)) (Some e)) ->
  0 <= n -> Forall (fun t => t <= e) ts ->
  let w' := snd (requests s req (Some c) ts w) in
  redis_fault w' = None /\
  redis_db w' !! rate_key req =
    Some (Entry (VString (str (n + Z.of_nat (length ts)))) (Some e)).
Proof.
  induction ts as [|t ts IH]; intros w n e Hf Hk Hn Hts; cbn [requests length].
  - cbn. rewrite Z.add_0_r. auto.
  - inversion Hts as [|? ? Ht Hts']; subst.
    rewrite (rate_limiter_next (at_time t w) n e) by (cbn; auto).
    destruct (requests s req (Some c) ts _) as [rs w2] eqn:E. cbn [snd].
    specialize (IH (with_redis
                 (<[rate_key req := Entry (VString (str (n + 1))) (Some e)]>
                    (redis_db (at_time t w)))
                 (rate_batch s req :: redis_wire (at_time t w)) (at_time t w))
                 (n + 1) e).
    rewrite E in IH. cbn [snd] in IH.
    replace (n + Z.of_nat (S (length ts))) with (n + 1 + Z.of_nat (length ts)) by lia.
    apply IH; auto; try lia. cbn. apply lookup_insert_eq.
Qed.

Lemma counter_live w n e :
  redis_db w !! rate_key req = Some (Entry (VString (str n)) (Some e)) ->
  redis_now w <= e ->
  counter (client_ip req) w = n.
Proof.
  intros Hk He. unfold counter, peek. fold (rate_key req). rewrite Hk.
  rewrite (expired_live _ _ _ He). cbn. now rewrite py_int_str.
Qed.

(** C1.  A first request at [t0] opens a window; after [N] requests in it
    the counter of that client reads [N]; one more request in the window is
    rejected with the 429 outcome exactly when [N + 1] exceeds the limit and
    is let through otherwise; a request after the counter has expired finds
    the count restarted at 1 and, for a limit of at least 1, is let
    through. *)
Theorem C1_rate_limiter_counts w t0 ts :
  0 < Config.rate_limit_window_seconds s ->
  redis_fault w = None ->
  peek t0 (rate_key req) (redis_db w) = None ->
  Forall (in_window s t0) ts ->
  let N := Z.of_nat (S (length ts)) in
  let wN := snd (requests s req (Some c) (t0 :: ts) w) in
  (forall t, in_window s t0 t -> counter (client_ip req) (at_time t wN) = N) /\
  (forall t, in_window s t0 t ->
     let r := fst (RateLimit.rate_limiter s req (Some c) (at_time t wN)) in
     (r = Raise too_many <-> Config.rate_limit s < N + 1) /\
     (r = Ok tt <-> N + 1 <= Config.rate_limit s)) /\
  (forall t, t0 + Config.rate_limit_window_seconds s * 1000 < t ->
     let '(r, w') := RateLimit.rate_limiter s req (Some c) (at_time t wN) in
     counter (client_ip req) w' = 1 /\
     (1 <= Config.rate_limit s -> r = Ok tt)).
Proof.
  intros HW Hf Hfresh Hts N wN.
  set (e := t0 + Config.rate_limit_window_seconds s * 1000).
  assert (HN : redis_fault wN = None /\
               redis_db wN !! rate_key req = Some (Entry (VString (str N)) (Some e))).
  { subst wN. cbn [requests].
    rewrite (rate_limiter_first (at_time t0 w)) by (cbn; auto).
    destruct (requests s req (Some c) ts _) as [rs w2] eqn:E. cbn [snd].
    pose proof (requests_counted ts
      (with_redis
         (<[rate_key req := Entry (VString (str 1))
              (Some (redis_now (at_time t0 w) + Config.rate_limit_window_seconds s * 1000))]>
            (redis_db (at_time t0 w)))
         (rate_batch s req :: redis_wire (at_time t0 w)) (at_time t0 w)) 1 e) as IH.
    rewrite E in IH. cbn [snd] in IH.
    replace N with (1 + Z.of_nat (length ts)) by (subst N; lia).
    apply IH; auto; try lia.
    - cbn. apply lookup_insert_eq.
    - eapply Forall_impl; [exact Hts|]. unfold in_window. intros; subst e; lia. }
  destruct HN as [HfN HkN].
  split; [|split].
  - intros t Ht. apply (counter_live _ N e); cbn; auto.
    unfold in_window in Ht. subst e; lia.
  - intros t Ht r. subst r.
    rewrite (rate_limiter_next (at_time t wN) N e)
      by (cbn; auto; unfold in_window in Ht; subst e N; lia).
    cbn [fst]. destruct (N + 1 >? Config.rate_limit s) eqn:E; split; split;
      intros; try discriminate; try reflexivity; lia.
  - intros t Ht.
    rewrite (rate_limiter_first (at_time t wN)); cbn; auto.
    + split.
      * erewrite counter_live; [reflexivity | cbn; apply lookup_insert_eq | cbn; lia].
      * intros Hl. destruct (1 >? Config.rate_limit s) eqn:E; [lia | reflexivity].
    + unfold peek. rewrite HkN. unfold expired. cbn.
      replace (e <? t) with true by (subst e; lia). reflexivity.
Qed.

(** C6.  The limiter sends one transactional batch, the increment followed
    by [EXPIRE ... NX], and no other command.  The first increment of a
    window gives the key the window length as its time to live; an
    increment that finds a live key with an expiry time leaves that time as
    it was. *)
Theorem C6_expiry_set_once w :
  redis_fault w = None ->
  let w' := snd (RateLimit.rate_limiter s req (Some c) w) in
  redis_wire w' =
    Batch true [INCRBY (rate_key req) 1;
                EXPIRE (rate_key req) (Config.rate_limit_window_seconds s) true]
    :: redis_wire w /\
  (peek (redis_now w) (rate_key req) (redis_db w) = None ->
   0 < Config.rate_limit_window_seconds s ->
   expiry (rate_key req) w' =
     Some (redis_now w + Config.rate_limit_window_seconds s * 1000)) /\
  (forall e, expiry (rate_key req) w = Some e -> expiry (rate_key req) w' = Some e).
Proof.
  intros Hf w'. subst w'. rewrite (rate_limiter_world w Hf).
  split; [reflexivity|]. split.
  - intros Hk HW. cbn [rate_batch commands]. unfold run_all.
    rewrite (run_INCRBY_fresh _ _ _ _ Hk).
    erewrite run_EXPIRE_set; [| apply lookup_insert_eq | lia].
    cbn. unfold expiry, peek. cbn. rewrite lookup_insert_eq.
    rewrite expired_live by lia. reflexivity.
  - intros e. unfold expiry at 1. unfold peek.
    destruct (redis_db w !! rate_key req) as [[v ttl]|] eqn:Hk; [|discriminate].
    destruct (expired _ _) eqn:Hx; [discriminate|]. cbn. intros ->.
    unfold expired in Hx. cbn in Hx.
    assert (He : redis_now w <= e) by lia.
    destruct (run_INCRBY_keeps_expiry (redis_now w) (rate_key req) 1 _ _ _ Hk He)
      as [v' Hv'].
    cbn [rate_batch commands]. unfold run_all.
    destruct (run (redis_now w) (INCRBY _ _) _) as [r1 db1]. cbn [snd] in Hv'.
    rewrite (run_EXPIRE_nx_kept _ _ _ _ _ _ Hv' He). cbn.
    unfold expiry, peek. cbn. rewrite Hv'.
    rewrite expired_live by lia. reflexivity.
Qed.

End RateLimiterFacts.

(** ** The recent list *)

Section RecentRedis.
Import Redis.

Lemma live_expired now v ttl : live now ttl -> expired now (Entry v ttl) = false.
Proof. destruct ttl; cbn; unfold expired; cbn; [lia | reflexivity]. Qed.

Lemma insert_expire_if_needed now k e (db : gmap string entry) :
<[k := e]> (expire_if_needed now k db) = <[k := e]> db.
Proof.
unfold expire_if_needed. destruct (db !! k) as [e0|]; [|reflexivity].
destruct (expired now e0); [apply insert_delete_eq | reflexivity].
Qed.

Lemma range_from_0 (stop : Z) (l : list string) :
0 <= stop -> range 0 stop l = take (Z.to_nat (stop + 1)) l.
Proof.
intros H. unfold range. cbv zeta. change (0 <? 0) with false. cbv iota.
replace (stop <? 0) with false by lia. cbv iota. change (0 <? 0) with false. cbv iota.
replace (stop <? 0) with false by lia. rewrite orb_false_l.
destruct (Z.leb_spec (Z.of_nat (length l)) 0) as [E0|E0].
- destruct l; [now rewrite take_nil | cbn [length] in E0; lia].
- cbn [Z.to_nat drop]. destruct (Z.leb_spec (Z.of_nat (length l)) stop) as [E1|E1].
  + rewrite (take_ge l (Z.to_nat (stop + 1))) by lia.
    apply take_ge. lia.
  + f_equal. lia.
Qed.

Section PushRun.
Variables (now : Z) (k v : string) (limit W : Z).
Hypothesis Hlimit : 1 <= limit.

Lemma run_LREM_LPUSH (db : gmap string entry) :
no_string now k db ->
exists n1 n2 db1 ttl,
  run now (LREM k 0 v) db = (Integer n1, db1) /\
  run now (LPUSH k v) db1 =
    (Integer n2, <[k := Entry (VList (v :: without v (stored_list now k db))) ttl]> db) /\
  live now ttl.
Proof.
intros Hns. unfold run at 1. cbn [key_of exec].
unfold stored_list. specialize (Hns).
rewrite expire_if_needed_lookup.
destruct (peek now k db) as [[[s|l] ttl]|] eqn:Hp.
- exfalso. exact (Hns s ttl Hp).
- assert (Hl : live now ttl).
  { unfold peek in Hp. destruct (db !! k) as [e|]; [|discriminate].
    destruct (expired now e) eqn:E; [discriminate|]. injection Hp as ->.
    unfold expired in E. destruct ttl; cbn in *; lia. }
  cbn [lrem_list Z.eqb]. fold (without v l).
  destruct (without v l) as [|x l1] eqn:Hk; cbn [store_list].
  + do 4 eexists. split; [reflexivity|]. split.
    * rewrite (run_gone now (LPUSH k v)) by
        (cbn [key_of]; unfold peek; now rewrite lookup_delete_eq).
      cbn [exec key_of]. rewrite lookup_delete_eq.
      rewrite !insert_delete_eq, insert_expire_if_needed. reflexivity.
    * exact I.
  + do 4 eexists. split; [reflexivity|]. split.
    * erewrite (run_live now (LPUSH k v));
        [| cbn [key_of]; apply lookup_insert_eq | now apply live_expired ].
      cbn [exec]. rewrite lookup_insert_eq.
      rewrite insert_insert_eq, insert_expire_if_needed. reflexivity.
    * exact Hl.
- do 4 eexists. split; [reflexivity|]. split.
  + rewrite (run_gone now (LPUSH k v)) by
      (cbn [key_of]; unfold peek; rewrite expire_if_needed_lookup, Hp; reflexivity).
    cbn [exec key_of]. rewrite lookup_delete_eq.
    rewrite !insert_delete_eq, insert_expire_if_needed. reflexivity.
  + exact I.
Qed.

Lemma run_LTRIM_head (db : gmap string entry) l ttl :
db !! k = Some (Entry (VList (v :: l)) ttl) -> live now ttl ->
run now (LTRIM k 0 (limit - 1)) db =
  (Ok_, <[k := Entry (VList (take (Z.to_nat limit) (v :: l))) ttl]> db).
Proof.
intros Hk Hl.
rewrite (run_live now (LTRIM k 0 (limit - 1)) db _ Hk (live_expired _ _ _ Hl)).
cbn [exec]. rewrite Hk, range_from_0 by lia.
replace (limit - 1 + 1) with limit by lia.
destruct (Z.to_nat limit) as [|n] eqn:E; [lia|]. reflexivity.
Qed.

Lemma run_EXPIRE_plain (db : gmap string entry) val ttl :
db !! k = Some (Entry val ttl) -> live now ttl ->
run now (EXPIRE k W false) db =
  (Integer 1,
   if W <=? 0 then delete k db else <[k := Entry val (Some (now + W * 1000))]> db).
Proof.
intros Hk Hl.
rewrite (run_live now (EXPIRE k W false) db _ Hk (live_expired _ _ _ Hl)).
cbn [exec]. rewrite Hk. cbn [andb]. now destruct (W <=? 0).
Qed.

(** The four commands of a push, run back to back. *)
Lemma push_run (db : gmap string entry) :
no_string now k db ->
exists rs,
  first_error rs = None /\
  run_all now [LREM k 0 v; LPUSH k v; LTRIM k 0 (limit - 1); EXPIRE k W false] db =
    (rs,
     if W <=? 0 then delete k db
     else <[k := Entry (VList (take (Z.to_nat limit) (v :: without v (stored_list now k db))))
                   (Some (now + W * 1000))]> db).
Proof.
intros Hns.
destruct (run_LREM_LPUSH db Hns) as (n1 & n2 & db1 & ttl & H1 & H2 & Hl).
unfold run_all. rewrite H1, H2.
erewrite run_LTRIM_head; [| apply lookup_insert_eq | exact Hl].
erewrite run_EXPIRE_plain; [| apply lookup_insert_eq | exact Hl].
eexists. split; cycle 1.
- f_equal. destruct (W <=? 0).
  + now rewrite insert_insert_eq, delete_insert_eq.
  + now rewrite !insert_insert_eq.
- reflexivity.
Qed.
End PushRun.

Lemma push_recent_note_up s c ip note_id w :
redis_fault w = None ->
1 <= Config.recent_notes_limit s ->
no_string (redis_now w) (Recent._recent_key ip) (redis_db w) ->
Recent.push_recent_note s (Some c) ip note_id w =
  (Ok tt,
   with_redis
     (if Config.rate_limit_window_seconds s <=? 0
      then delete (Recent._recent_key ip) (redis_db w)
      else <[Recent._recent_key ip :=
               Entry (VList (take (Z.to_nat (Config.recent_notes_limit s))
                               (str note_id ::
                                filter (fun x => negb (String.eqb x (str note_id)))
                                  (stored_list (redis_now w) (Recent._recent_key ip)
                                     (redis_db w)))))
                     (Some (redis_now w + Config.rate_limit_window_seconds s * 1000))]>
             (redis_db w))
     (push_batch s ip note_id :: redis_wire w) w).
Proof.
intros Hf Hl Hns.
destruct (push_run (redis_now w) (Recent._recent_key ip) (str note_id)
            (Config.recent_notes_limit s) (Config.rate_limit_window_seconds s)
            Hl (redis_db w) Hns) as (rs & Hrs & Hrun).
unfold Recent.push_recent_note, Client.pipeline, Client.execute, Client.lrem,
  Client.lpush, Client.ltrim, Client.expire, send, deref, bind, ret.
cbn [app commands]. rewrite Hf, Hrun, Hrs. reflexivity.
Qed.





Section MoveToFront.
Implicit Types (l : list Z) (id : Z) (n : nat).





Lemma move_to_front_length n id l : (length (move_to_front n id l) <= n)%nat.
Proof. apply firstn_le_length. Qed.






Lemma filter_str id l :
filter (fun x => negb (String.eqb x (str id))) (map str l) =
map str (filter (fun z => z <> id) l).
Proof.
induction l as [|z l IH]; [reflexivity|]. cbn [map].
destruct (decide (z = id)) as [->|Hne].
- rewrite filter_cons_False by (rewrite String.eqb_refl; cbn; tauto).
  rewrite filter_cons_False by (intros H; now apply H). exact IH.
- rewrite filter_cons_True.
  + rewrite filter_cons_True by exact Hne. cbn [map]. now rewrite IH.
  + destruct (String.eqb_spec (str z) (str id)) as [E|E]; [|exact I].
    apply str_inj in E. contradiction.
Qed.
End MoveToFront.





Section RecentFacts.
Variable s : Config.Settings.
Variable c : RedisClient.
Variable ip : string.
Hypothesis Hlimit : 1 <= Config.recent_notes_limit s.

Local Abbreviation k := (Recent._recent_key ip).



Lemma ints_str ids w : Recent.ints (map str ids) w = (Ok ids, w).
Proof.
induction ids as [|z ids IH]; [reflexivity|]. cbn [map Recent.ints].
rewrite py_int_str. unfold bind. now rewrite IH.
Qed.

(** Reading the list back. *)
Lemma get_recent_notes_up w ids :
redis_fault w = None ->
no_string (redis_now w) k (redis_db w) ->
stored_list (redis_now w) k (redis_db w) = map str ids ->
(length ids <= limit_of s)%nat ->
fst (Recent.get_recent_notes s (Some c) ip w) = Ok ids.
Proof.
intros Hf Hns Hst Hlen.
unfold Recent.get_recent_notes, Client.lrange, call, send, deref, bind, ret.
fold k. cbn [commands]. rewrite Hf. unfold run_all, run. cbn [key_of exec].
rewrite expire_if_needed_lookup.
unfold stored_list in Hst. unfold no_string in Hns.
destruct (peek (redis_now w) k (redis_db w)) as [[[x|l] ttl]|] eqn:Hp.
- exfalso. exact (Hns x ttl eq_refl).
- cbn. rewrite range_from_0 by lia.
  replace (Config.recent_notes_limit s - 1 + 1) with (Config.recent_notes_limit s) by lia.
  rewrite Hst, take_ge by (rewrite length_map; exact Hlen).
  now rewrite ints_str.
- cbn. destruct ids; [reflexivity | discriminate].
Qed.



Lemma push_stored w note_id ids t :
0 < Config.rate_limit_window_seconds s ->
redis_fault w = None ->
no_string (redis_now w) k (redis_db w) ->
stored_list (redis_now w) k (redis_db w) = map str ids ->
t <= redis_now w + Config.rate_limit_window_seconds s * 1000 ->
let w' := snd (Recent.push_recent_note s (Some c) ip note_id w) in
redis_fault w' = None /\
no_string t k (redis_db w') /\
stored_list t k (redis_db w') = map str (move_to_front (limit_of s) note_id ids).
Proof.
intros HW Hf Hns Hst Ht.
rewrite push_recent_note_up; auto.
cbn. fold k. split; [exact Hf|].
destruct (Z.leb_spec (Config.rate_limit_window_seconds s) 0) as [E|E]; [lia|].
rewrite Hst, filter_str.
unfold no_string, stored_list, peek. rewrite lookup_insert_eq.
rewrite expired_live by lia. split; [discriminate|].
unfold move_to_front.
change (str note_id :: map str ?l) with (map str (note_id :: l)).
now rewrite firstn_map.
Qed.

End RecentFacts.


Lemma push_keeps_clock s c ip note_id w :
redis_now (snd (Recent.push_recent_note s c ip note_id w)) = redis_now w.
Proof.
unfold Recent.push_recent_note, Client.pipeline, Client.execute, send, deref, bind, ret.
destruct c; [|reflexivity]. cbn [commands].
destruct (redis_fault w); [reflexivity|].
destruct (run_all _ _ _) as [rs db]. now destruct (first_error rs).
Qed.


End RecentRedis.

(** ** Degradation: a failing store, an absent client *)

Section Degradation.
Variable s : Config.Settings.

Lemma send_down b w f :
  redis_fault w = Some f -> send b w = (Raise (RedisError f), w).
Proof. intros H. unfold send. now rewrite H. Qed.

Ltac down H :=
  unfold Client.get, Client.set, Client.delete, Client.lrange, Client.pipeline,
    Client.execute, call, deref, try_except_RedisError, bind, ret;
  cbn; rewrite ?(send_down _ _ _ H); reflexivity.

Lemma safe_get_cached_note_fails client_ note_id w :
  store_fails client_ w ->
  Main._safe_get_cached_note client_ note_id w = (Ok None, w).
Proof.
  intros [->|H]; [reflexivity|]. destruct client_ as [c|]; [|reflexivity].
  destruct (redis_fault w) as [f|] eqn:Hf; [|contradiction].
  unfold Main._safe_get_cached_note, Cache.get_cached_note. down Hf.
Qed.


Lemma safe_invalidate_cache_fails client_ note_id w :
  store_fails client_ w ->
  Main._safe_invalidate_cache client_ note_id w = (Ok tt, w).
Proof.
  intros [->|H]; [reflexivity|]. destruct client_ as [c|]; [|reflexivity].
  destruct (redis_fault w) as [f|] eqn:Hf; [|contradiction].
  unfold Main._safe_invalidate_cache, Cache.invalidate_note_cache. down Hf.
Qed.


Lemma safe_get_recent_fails client_ request w :
  store_fails client_ w ->
  Main._safe_get_recent s client_ request w = (Ok [], w).
Proof.
  intros [->|H]; [reflexivity|]. destruct client_ as [c|]; [|reflexivity].
  destruct (redis_fault w) as [f|] eqn:Hf; [|contradiction].
  unfold Main._safe_get_recent, Recent.get_recent_notes.
  destruct (client request); cbn; [|reflexivity]. down Hf.
Qed.

(** The limiter lets every request through when the server cannot be
    reached. *)
Lemma rate_limiter_fails_open request c w :
  redis_fault w <> None ->
  RateLimit.rate_limiter s request (Some c) w = (Ok tt, w).
Proof.
  intros H. destruct (redis_fault w) as [f|] eqn:Hf; [|contradiction].
  unfold RateLimit.rate_limiter. down Hf.
Qed.



End Degradation.

(** ** JSON text and the record: reading back what was written *)

Section JsonFacts.
Import Json.

Lemma app_assoc_s (a b c : string) : (a +:+ b) +:+ c = a +:+ (b +:+ c).
Proof.
induction a as [|x a IH]; [reflexivity|].
change (String x ((a +:+ b) +:+ c) = String x (a +:+ (b +:+ c))). now rewrite IH.
Qed.

Lemma app_cons_s x (a b : string) : String x a +:+ b = String x (a +:+ b).
Proof. reflexivity. Qed.

Lemma app_nil_s (b : string) : EmptyString +:+ b = b.
Proof. reflexivity. Qed.

Lemma length_app_s (a b : string) :
String.length (a +:+ b) = (String.length a + String.length b)%nat.
Proof.
induction a as [|x a IH]; [reflexivity|].
change (S (String.length (a +:+ b)) = S (String.length a + String.length b)). now rewrite IH.
Qed.

Lemma parse_chars_escape_char c tail :
parse_chars (escape_char c +:+ tail) =
  match parse_chars tail with
  | Some (t, r) => Some (String c t, r)
  | None => None
  end.
Proof.
destruct c as [[] [] [] [] [] [] [] []]; reflexivity.
Qed.

Lemma parse_chars_escape s rest :
parse_chars (escape s +:+ String dquote rest) = Some (s, rest).
Proof.
induction s as [|c s IH]; [reflexivity|].
change (escape (String c s)) with (escape_char c +:+ escape s).
rewrite app_assoc_s, parse_chars_escape_char, IH. reflexivity.
Qed.

Lemma parse_chars_quote s rest :
exists body, quote s +:+ rest = String dquote body /\ parse_chars body = Some (s, rest).
Proof.
unfold quote. eexists. split; [reflexivity|].
rewrite app_assoc_s. apply parse_chars_escape.
Qed.

Lemma span_digits_app ds rest :
digits_only ds = true -> ends_number rest ->
span_digits (ds +:+ rest) = (ds, rest).
Proof.
intros Hd Hr. induction ds as [|c ds IH].
- change (EmptyString +:+ rest) with rest.
  destruct rest as [|c rest]; [reflexivity|]. destruct Hr as [Hc _].
  cbn [span_digits]. now rewrite Hc.
- cbn [digits_only] in Hd. apply andb_true_iff in Hd as [Hc Hd].
  change (String c ds +:+ rest) with (String c (ds +:+ rest)).
  cbn [span_digits]. rewrite Hc, (IH Hd). reflexivity.
Qed.

Lemma digits_only_uint (u : Decimal.uint) : digits_only (NilEmpty.string_of_uint u) = true.
Proof. induction u; cbn; auto. Qed.

Lemma uint_nonempty (u : Decimal.uint) :
u <> Decimal.Nil -> NilEmpty.string_of_uint u <> EmptyString.
Proof. destruct u; cbn; congruence. Qed.

Lemma str_shape (z : Z) :
exists ds, digits_only ds = true /\ ds <> EmptyString /\
           (str z = ds \/ str z = String "-" ds).
Proof.
unfold str. destruct z as [|p|p]; cbn.
- exists "0". auto.
- pose proof (DecimalPos.Unsigned.to_uint_nonnil p) as Hn.
  exists (NilEmpty.string_of_uint (Pos.to_uint p)).
  split; [apply digits_only_uint|]. split; [now apply uint_nonempty|].
  left. unfold NilZero.string_of_uint. now destruct (Pos.to_uint p).
- pose proof (DecimalPos.Unsigned.to_uint_nonnil p) as Hn.
  exists (NilEmpty.string_of_uint (Pos.to_uint p)).
  split; [apply digits_only_uint|]. split; [now apply uint_nonempty|].
  right. unfold NilZero.string_of_uint. now destruct (Pos.to_uint p).
Qed.

Lemma digit_not_minus c : is_digit c = true -> Ascii.eqb c "-" = false.
Proof. destruct c as [[] [] [] [] [] [] [] []]; vm_compute; congruence. Qed.

Lemma str_not_minus_zero z : String.eqb (str z) "-0" = false.
Proof.
apply String.eqb_neq. intros H. pose proof (py_int_str z) as E. rewrite H in E.
cbn in E. injection E as <-. discriminate.
Qed.

Lemma parse_number_str z rest :
ends_number rest -> parse_number (str z +:+ rest) = Some (z, rest).
Proof.
intros Hr. destruct (str_shape z) as (ds & Hd & Hne & [E|E]).
- destruct ds as [|c ds]; [congruence|].
  unfold parse_number. rewrite E.
  change (String c ds +:+ rest) with (String c (ds +:+ rest)).
  assert (Hc : is_digit c = true)
    by (cbn [digits_only] in Hd; apply andb_true_iff in Hd; tauto).
  cbv beta iota. rewrite (digit_not_minus c Hc).
  change (String c (ds +:+ rest)) with (String c ds +:+ rest).
  rewrite (span_digits_app _ _ Hd Hr).
  assert (Hf : starts_fraction rest = false) by (destruct rest; [reflexivity | apply Hr]).
  rewrite Hf. change (EmptyString +:+ String c ds) with (String c ds). rewrite <- E.
  now rewrite str_not_minus_zero, py_int_str, String.eqb_refl.
- unfold parse_number. rewrite E.
  change (String "-" ds +:+ rest) with (String "-" (ds +:+ rest)).
  cbv beta iota. change (Ascii.eqb "-" "-") with true. cbv beta iota.
  rewrite (span_digits_app _ _ Hd Hr).
  assert (Hf : starts_fraction rest = false) by (destruct rest; [reflexivity | apply Hr]).
  rewrite Hf. change ("-" +:+ ds) with (String "-" ds). rewrite <- E.
  now rewrite str_not_minus_zero, py_int_str, String.eqb_refl.
Qed.

Section JsonInduction.
Variable P : json -> Prop.
Hypothesis HNull : P JNull.
Hypothesis HBool : forall b, P (JBool b).
Hypothesis HInt : forall z, P (JInt z).
Hypothesis HStr : forall s, P (JStr s).
Hypothesis HArr : forall l, Forall P l -> P (JArr l).
Hypothesis HObj : forall ms, Forall (fun m => P (snd m)) ms -> P (JObj ms).

Lemma json_induction : forall j, P j.
Proof.
exact (fix go (j : json) : P j :=
         match j with
         | JNull => HNull
         | JBool b => HBool b
         | JInt z => HInt z
         | JStr s => HStr s
         | JArr l =>
             HArr l ((fix all (l : list json) : Forall P l :=
                        match l with
                        | [] => @List.Forall_nil _ P
                        | x :: l' => @List.Forall_cons _ P x l' (go x) (all l')
                        end) l)
         | JObj ms =>
             HObj ms ((fix all (ms : list (string * json))
                         : Forall (fun m => P (snd m)) ms :=
                         match ms with
                         | [] => @List.Forall_nil _ _
                         | m :: ms' =>
                             @List.Forall_cons _ (fun m => P (snd m)) m ms' (go (snd m)) (all ms')
                         end) ms)
         end).
Qed.
End JsonInduction.

Lemma digit_opens c : is_digit c = true -> opens_value c.
Proof. unfold opens_value. destruct c as [[] [] [] [] [] [] [] []]; vm_compute; intuition congruence. Qed.

Lemma dumps_head j tail :
exists c s', dumps j +:+ tail = String c s' /\ opens_value c.
Proof.
destruct j as [| [] | z | s | l | ms];
  try (do 2 eexists; split; [reflexivity | vm_compute; auto]).
cbn [dumps]. destruct (str_shape z) as (ds & Hd & Hne & [E|E]); rewrite E.
- destruct ds as [|c ds]; [congruence|]. do 2 eexists. split; [reflexivity|].
  apply digit_opens. cbn [digits_only] in Hd. apply andb_true_iff in Hd. tauto.
- do 2 eexists. split; [reflexivity | vm_compute; auto].
Qed.

Lemma skip_ws_head c s : is_space c = false -> skip_ws (String c s) = String c s.
Proof. intros H. cbn [skip_ws]. now rewrite H. Qed.

Lemma ends_number_close c rest :
is_digit c = false -> starts_fraction (String c rest) = false ->
ends_number (String c rest).
Proof. intros; split; auto. Qed.

Lemma after_hit c s : after c (String c s) = Some s.
Proof. cbn [after]. now rewrite Ascii.eqb_refl. Qed.

Lemma after_miss c c' s : Ascii.eqb c' c = false -> after c (String c' s) = None.
Proof. intros H. cbn [after]. now rewrite H. Qed.

Lemma parse_items_dumps l :
Forall reads_back l -> l <> [] -> forall fuel rest,
(items_size l <= fuel)%nat ->
parse_items fuel (items_with dumps "]" l +:+ rest) = Some (l, rest).
Proof.
induction 1 as [|x l Hx Hl IH]; [congruence|]. intros _ fuel rest Hfuel.
cbn [items_size fold_right] in Hfuel. fold (items_size l) in Hfuel.
destruct fuel as [|f]; [lia|]. cbn [parse_items].
destruct l as [|y l].
- cbn [items_with]. rewrite app_assoc_s.
  change ("]" +:+ rest) with (String "]" rest).
  rewrite Hx; [| lia | now apply ends_number_close].
  rewrite skip_ws_head by reflexivity. now rewrite after_hit.
- change (items_with dumps "]" (x :: y :: l))
    with (dumps x +:+ String "," (items_with dumps "]" (y :: l))).
  rewrite app_assoc_s.
  change (String "," (items_with dumps "]" (y :: l)) +:+ rest)
    with (String "," (items_with dumps "]" (y :: l) +:+ rest)).
  rewrite Hx; [| lia | now apply ends_number_close].
  rewrite skip_ws_head by reflexivity.
  rewrite after_miss by reflexivity. rewrite after_hit.
  rewrite IH; [reflexivity | congruence | lia].
Qed.

Lemma parse_members_dumps ms :
Forall (fun m => reads_back (snd m)) ms -> ms <> [] -> forall fuel rest,
(members_size ms <= fuel)%nat ->
parse_members fuel (items_with member_text "}" ms +:+ rest) = Some (ms, rest).
Proof.
induction 1 as [|[k v] ms Hx Hl IH]; [congruence|]. intros _ fuel rest Hfuel.
cbn [members_size fold_right snd] in Hfuel. fold (members_size ms) in Hfuel.
cbn [snd] in Hx.
destruct fuel as [|f]; [lia|]. cbn [parse_members].
destruct ms as [|m' ms].
- cbn [items_with]. unfold member_text at 1. cbn [fst snd]. unfold quote.
  rewrite !app_assoc_s.
  change (String dquote (escape k +:+ String dquote EmptyString) +:+ ?t)
    with (String dquote ((escape k +:+ String dquote EmptyString) +:+ t)).
  rewrite skip_ws_head by reflexivity. rewrite after_hit.
  rewrite app_assoc_s.
  change (String dquote EmptyString +:+ ?t) with (String dquote t).
  rewrite parse_chars_escape.
  change (String ":" (dumps v) +:+ ?t) with (String ":" (dumps v +:+ t)).
  rewrite skip_ws_head by reflexivity. rewrite after_hit.
  change ("}" +:+ rest) with (String "}" rest).
  rewrite Hx; [| lia | now apply ends_number_close].
  rewrite skip_ws_head by reflexivity. now rewrite after_hit.
- change (items_with member_text "}" ((k, v) :: m' :: ms))
    with (member_text (k, v) +:+ String "," (items_with member_text "}" (m' :: ms))).
  unfold member_text at 1. cbn [fst snd]. unfold quote.
  rewrite !app_assoc_s.
  change (String dquote (escape k +:+ String dquote EmptyString) +:+ ?t)
    with (String dquote ((escape k +:+ String dquote EmptyString) +:+ t)).
  rewrite skip_ws_head by reflexivity. rewrite after_hit.
  rewrite app_assoc_s.
  change (String dquote EmptyString +:+ ?t) with (String dquote t).
  rewrite parse_chars_escape.
  change (String ":" (dumps v) +:+ ?t) with (String ":" (dumps v +:+ t)).
  rewrite skip_ws_head by reflexivity. rewrite after_hit.
  change (String "," (items_with member_text "}" (m' :: ms)) +:+ rest)
    with (String "," (items_with member_text "}" (m' :: ms) +:+ rest)).
  rewrite Hx; [| lia | now apply ends_number_close].
  rewrite skip_ws_head by reflexivity.
  rewrite after_miss by reflexivity. rewrite after_hit.
  rewrite IH; [reflexivity | congruence | lia].
Qed.

Lemma digit_dispatch c :
is_digit c = true ->
Ascii.eqb c dquote = false /\ Ascii.eqb c "[" = false /\ Ascii.eqb c "{" = false /\
Ascii.eqb c "n" = false /\ Ascii.eqb c "t" = false /\ Ascii.eqb c "f" = false.
Proof. destruct c as [[] [] [] [] [] [] [] []]; vm_compute; intuition congruence. Qed.

Lemma parse_value_number fuel s z rest :
(1 <= fuel)%nat ->
(exists c s', s = String c s' /\ (is_digit c = true \/ c = "-"%char)) ->
parse_number s = Some (z, rest) ->
parse_value fuel s = Some (JInt z, rest).
Proof.
intros Hf (c & s' & -> & Hc) Hp. destruct fuel as [|f]; [lia|]. cbn [parse_value].
destruct Hc as [Hc| ->].
- rewrite skip_ws_head by (apply (digit_opens c Hc)).
  destruct (digit_dispatch c Hc) as (-> & -> & -> & -> & -> & ->). now rewrite Hp.
- rewrite skip_ws_head by reflexivity.
  change (Ascii.eqb "-" dquote) with false. cbv iota.
  change (Ascii.eqb "-" "[") with false. cbv iota.
  change (Ascii.eqb "-" "{") with false. cbv iota.
  change (Ascii.eqb "-" "n") with false. cbv iota.
  change (Ascii.eqb "-" "t") with false. cbv iota.
  change (Ascii.eqb "-" "f") with false. cbv iota.
  now rewrite Hp.
Qed.

Theorem parse_value_dumps j : reads_back j.
Proof.
induction j as [| b | z | s | l IH | ms IH] using json_induction;
  intros fuel rest Hfuel Hrest; cbn [size] in Hfuel;
  (destruct fuel as [|f]; [lia|]).
- reflexivity.
- destruct b; reflexivity.
- apply parse_value_number; [lia | | now apply parse_number_str].
  cbn [dumps]. destruct (str_shape z) as (ds & Hd & Hne & [E|E]); rewrite E.
  + destruct ds as [|c ds]; [congruence|]. do 2 eexists. split; [reflexivity|].
    left. cbn [digits_only] in Hd. apply andb_true_iff in Hd. tauto.
  + do 2 eexists. split; [reflexivity | now right].
- cbn [dumps parse_value]. unfold quote.
  change (String dquote (escape s +:+ String dquote EmptyString) +:+ rest)
    with (String dquote ((escape s +:+ String dquote EmptyString) +:+ rest)).
  rewrite skip_ws_head by reflexivity. rewrite Ascii.eqb_refl.
  rewrite app_assoc_s. change (String dquote EmptyString +:+ rest) with (String dquote rest).
  now rewrite parse_chars_escape.
- cbn [dumps parse_value].
  change (String "[" (items_with dumps "]" l) +:+ rest)
    with (String "[" (items_with dumps "]" l +:+ rest)).
  rewrite skip_ws_head by reflexivity.
  change (Ascii.eqb "[" dquote) with false. cbv iota.
  change (Ascii.eqb "[" "[") with true. cbv iota.
  destruct l as [|x l]; [reflexivity|].
  assert (Hhead : after "]" (skip_ws (items_with dumps "]" (x :: l) +:+ rest)) = None).
  { assert (E : exists t, items_with dumps "]" (x :: l) +:+ rest = dumps x +:+ t).
    { destruct l; cbn [items_with]; rewrite app_assoc_s; eauto. }
    destruct E as (t & ->). destruct (dumps_head x t) as (c & s' & -> & Hs & Hb & _).
    rewrite skip_ws_head by exact Hs. now apply after_miss. }
  rewrite Hhead, (parse_items_dumps (x :: l) IH); [reflexivity | congruence |].
  fold (items_size (x :: l)) in Hfuel. lia.
- cbn [dumps parse_value]. fold member_text.
  change (String "{" (items_with member_text "}" ms) +:+ rest)
    with (String "{" (items_with member_text "}" ms +:+ rest)).
  rewrite skip_ws_head by reflexivity.
  change (Ascii.eqb "{" dquote) with false. cbv iota.
  change (Ascii.eqb "{" "[") with false. cbv iota.
  change (Ascii.eqb "{" "{") with true. cbv iota.
  destruct ms as [|m ms]; [reflexivity|].
  assert (Hhead : after "}" (skip_ws (items_with member_text "}" (m :: ms) +:+ rest)) = None).
  { assert (E : exists t, items_with member_text "}" (m :: ms) +:+ rest
                          = String dquote t).
    { destruct ms; cbn [items_with]; unfold member_text at 1, quote;
        rewrite !app_assoc_s; eexists; reflexivity. }
    destruct E as (t & ->). rewrite skip_ws_head by reflexivity.
    now apply after_miss. }
  rewrite Hhead, (parse_members_dumps (m :: ms) IH); [reflexivity | congruence |].
  fold (members_size (m :: ms)) in Hfuel. lia.
Qed.

Lemma app_nil_r_s (a : string) : a +:+ EmptyString = a.
Proof.
induction a as [|x a IH]; [reflexivity|].
change (String x (a +:+ EmptyString) = String x a). now rewrite IH.
Qed.

Lemma str_length z : (1 <= String.length (str z))%nat.
Proof.
destruct (str_shape z) as (ds & _ & Hne & [E|E]); rewrite E.
- destruct ds; [congruence | cbn; lia].
- cbn. lia.
Qed.

Lemma items_size_le l :
Forall (fun j => (size j <= String.length (dumps j))%nat) l ->
(items_size l <= String.length (items_with dumps "]" l))%nat.
Proof.
induction 1 as [|x l Hx Hl IH]; [cbn; lia|].
cbn [items_size fold_right]. fold (items_size l).
destruct l as [|y l].
- cbn [items_with items_size fold_right]. rewrite length_app_s. cbn. lia.
- change (items_with dumps "]" (x :: y :: l))
    with (dumps x +:+ String "," (items_with dumps "]" (y :: l))).
  rewrite length_app_s. cbn [String.length]. lia.
Qed.

Lemma members_size_le ms :
Forall (fun m => (size (snd m) <= String.length (dumps (snd m)))%nat) ms ->
(members_size ms <= String.length (items_with member_text "}" ms))%nat.
Proof.
induction 1 as [|[k v] ms Hx Hl IH]; [cbn; lia|].
cbn [members_size fold_right snd]. fold (members_size ms). cbn [snd] in Hx.
assert (Hm : (size v <= String.length (member_text (k, v)))%nat).
{ unfold member_text. cbn [fst snd]. rewrite length_app_s. cbn [String.length]. lia. }
destruct ms as [|m' ms].
- cbn [items_with members_size fold_right]. rewrite length_app_s. cbn. lia.
- change (items_with member_text "}" ((k, v) :: m' :: ms))
    with (member_text (k, v) +:+ String "," (items_with member_text "}" (m' :: ms))).
  rewrite length_app_s. cbn [String.length]. lia.
Qed.

Lemma size_le_length j : (size j <= String.length (dumps j))%nat.
Proof.
induction j as [| b | z | s | l IH | ms IH] using json_induction.
- cbn. lia.
- destruct b; cbn; lia.
- cbn [size dumps]. apply str_length.
- cbn. lia.
- cbn [size dumps String.length]. fold (items_size l).
  pose proof (items_size_le l IH). lia.
- cbn [size dumps String.length]. fold (members_size ms). fold member_text.
  pose proof (members_size_le ms IH). lia.
Qed.

(** [json.loads] reads back what the writer wrote. *)
Theorem loads_dumps j : loads (dumps j) = Some j.
Proof.
unfold loads. rewrite <- (app_nil_r_s (dumps j)) at 2.
rewrite parse_value_dumps; [reflexivity | | exact I].
pose proof (size_le_length j). lia.
Qed.

Import Datetime.

Lemma digit_char_ok d :
0 <= d < 10 -> is_digit (digit_char d) = true /\ digit_value (digit_char d) = d.
Proof.
intros H.
assert (E : d = 0 \/ d = 1 \/ d = 2 \/ d = 3 \/ d = 4 \/ d = 5 \/ d = 6 \/ d = 7 \/
            d = 8 \/ d = 9) by lia.
destruct E as [->|[->|[->|[->|[->|[->|[->|[->|[->| ->]]]]]]]]]; split; reflexivity.
Qed.

Lemma read_digits_digits w : forall k m rest acc,
0 <= m < 10 ^ Z.of_nat w ->
read_digits (w + k) (digits w m rest) acc = read_digits k rest (acc * 10 ^ Z.of_nat w + m).
Proof.
induction w as [|w IH]; intros k m rest acc Hm.
- cbn [digits Nat.add]. f_equal. cbn in Hm. lia.
- cbn [digits]. replace (S w + k)%nat with (w + S k)%nat by lia.
  assert (Hp : 10 ^ Z.of_nat (S w) = 10 * 10 ^ Z.of_nat w)
    by (rewrite Nat2Z.inj_succ, Z.pow_succ_r; lia).
  rewrite IH by (split; [apply Z.div_pos; lia | apply Z.div_lt_upper_bound; lia]).
  cbn [read_digits].
  destruct (digit_char_ok (m mod 10)) as [-> ->]; [apply Z.mod_pos_bound; lia|].
  f_equal. rewrite Hp. pose proof (Z.div_mod m 10). lia.
Qed.

Lemma read_digits_exact w m rest :
0 <= m < 10 ^ Z.of_nat w ->
read_digits w (digits w m rest) 0 = Some (m, rest).
Proof.
intros H. pose proof (read_digits_digits w 0 m rest 0 H) as E.
rewrite Nat.add_0_r in E. rewrite E. cbn [read_digits]. repeat f_equal; lia.
Qed.

Lemma days_in_month_le y m : days_in_month y m <= 31.
Proof. unfold days_in_month. repeat destruct (_ =? _); try destruct (is_leap y); cbn; lia. Qed.

Lemma fromisoformat_isoformat d : valid d = true -> fromisoformat (isoformat d) = Some d.
Proof.
intros Hv. pose proof Hv as Hv'. unfold valid in Hv'.
repeat (apply andb_true_iff in Hv' as [Hv' ?]).
pose proof (days_in_month_le (year d) (month d)).
destruct d as [y mo da h mi se us]. cbn [year month day hour minute second microsecond] in *.
unfold fromisoformat, isoformat.
cbn [year month day hour minute second microsecond].
rewrite (read_digits_exact 4) by (cbn; lia). cbn [mbind option_bind]. rewrite after_hit.
cbn [mbind option_bind].
rewrite (read_digits_exact 2) by (cbn; lia). cbn [mbind option_bind]. rewrite after_hit.
cbn [mbind option_bind].
rewrite (read_digits_exact 2) by (cbn; lia). cbn [mbind option_bind]. rewrite after_hit.
cbn [mbind option_bind].
rewrite (read_digits_exact 2) by (cbn; lia). cbn [mbind option_bind]. rewrite after_hit.
cbn [mbind option_bind].
rewrite (read_digits_exact 2) by (cbn; lia). cbn [mbind option_bind]. rewrite after_hit.
cbn [mbind option_bind].
rewrite (read_digits_exact 2) by (cbn; lia). cbn [mbind option_bind].
destruct (Z.eqb_spec us 0) as [->|Hus].
- cbn [mbind option_bind]. now rewrite Hv.
- rewrite after_hit. cbn [mbind option_bind].
  rewrite (read_digits_exact 6) by (cbn; lia). cbn [mbind option_bind]. now rewrite Hv.
Qed.

Lemma as_str_list_map l : Schemas.as_str_list (map JStr l) = Some l.
Proof. induction l as [|x l IH]; [reflexivity|]. cbn [map Schemas.as_str_list Schemas.as_str]. now rewrite IH. Qed.

Lemma validate_dumped (n : Schemas.Note) :
Schemas.valid n = true ->
Schemas.validate
  [("title", JStr (Schemas.title n));
   ("content", JStr (Schemas.content n));
   ("tags", match Schemas.tags n with Some l => JArr (map JStr l) | None => JNull end);
   ("id", JInt (Schemas.id n));
   ("created_at", Schemas.json_of_datetime (Schemas.created_at n));
   ("updated_at", Schemas.json_of_datetime (Schemas.updated_at n));
   ("is_deleted", JBool (Schemas.is_deleted n));
   ("deleted_at", match Schemas.deleted_at n with
                  | Some d => Schemas.json_of_datetime d
                  | None => JNull
                  end)] = Some n.
Proof.
intros Hv. unfold Schemas.valid in Hv.
apply andb_true_iff in Hv as [Hv Hd]. apply andb_true_iff in Hv as [Hv Hu].
apply andb_true_iff in Hv as [Hf Hc].
destruct n as [t c tg i ca ua del da].
cbn [Schemas.title Schemas.content Schemas.tags Schemas.id Schemas.created_at
     Schemas.updated_at Schemas.is_deleted Schemas.deleted_at] in *.
unfold Schemas.validate.
change (Schemas.dict_get "title" _) with (Some (JStr t)).
change (Schemas.dict_get "content" _) with (Some (JStr c)).
change (Schemas.dict_get "tags" _)
  with (Some (match tg with Some l => JArr (map JStr l) | None => JNull end)).
change (Schemas.dict_get "id" _) with (Some (JInt i)).
change (Schemas.dict_get "created_at" _) with (Some (Schemas.json_of_datetime ca)).
change (Schemas.dict_get "updated_at" _) with (Some (Schemas.json_of_datetime ua)).
change (Schemas.dict_get "is_deleted" _) with (Some (JBool del)).
change (Schemas.dict_get "deleted_at" _)
  with (Some (match da with Some d => Schemas.json_of_datetime d | None => JNull end)).
cbn [Schemas.required Schemas.as_str Schemas.as_int Schemas.as_bool
     Schemas.as_datetime Schemas.json_of_datetime].
rewrite !fromisoformat_isoformat by assumption.
assert (Htg : Schemas.optional
                (fun j => match j with JArr l => Schemas.as_str_list l | _ => None end)
                (Some (match tg with Some l => JArr (map JStr l) | None => JNull end))
              = Some tg).
{ destruct tg as [l|]; [|reflexivity]. cbn [Schemas.optional]. now rewrite as_str_list_map. }
rewrite Htg.
assert (Hda : Schemas.optional Schemas.as_datetime
                (Some (match da with
                       | Some d => Schemas.json_of_datetime d
                       | None => JNull
                       end)) = Some da).
{ destruct da as [d|]; [|reflexivity].
  cbn [Schemas.optional Schemas.json_of_datetime Schemas.as_datetime].
  now rewrite fromisoformat_isoformat. }
rewrite Hda, Hf. reflexivity.
Qed.

Lemma new_dumped (n : Schemas.Note) w :
Schemas.valid n = true ->
exists payload,
  loads (Schemas.model_dump_json n) = Some payload /\
  Schemas.new payload w = (Ok n, w).
Proof.
intros Hv. unfold Schemas.model_dump_json. rewrite loads_dumps.
eexists. split; [reflexivity|]. unfold Schemas.new. now rewrite validate_dumped.
Qed.

(** *** Text that is no document, objects that are no record *)






End JsonFacts.

(** ** The handlers: what they send *)

Arguments Main._safe_cache_note : simpl never.
Arguments Main._safe_get_cached_note : simpl never.
Arguments Main._safe_invalidate_cache : simpl never.
Arguments Main._safe_push_recent : simpl never.
Arguments Main._safe_get_recent : simpl never.

(** A reading of the clock touches nothing but the clock. *)
Lemma wire_tick w : redis_wire (tick w) = redis_wire w.
Proof. unfold tick. now destruct (utc_later w). Qed.

Lemma fault_tick w : redis_fault (tick w) = redis_fault w.
Proof. unfold tick. now destruct (utc_later w). Qed.

Lemma db_tick w : redis_db (tick w) = redis_db w.
Proof. unfold tick. now destruct (utc_later w). Qed.

Lemma now_tick w : redis_now (tick w) = redis_now w.
Proof. unfold tick. now destruct (utc_later w). Qed.

Lemma rows_tick w : sql_rows (tick w) = sql_rows w.
Proof. unfold tick. now destruct (utc_later w). Qed.

Lemma instance_tick w : _redis_instance (tick w) = _redis_instance w.
Proof. unfold tick. now destruct (utc_later w). Qed.

Lemma constructed_tick w : constructed (tick w) = constructed w.
Proof. unfold tick. now destruct (utc_later w). Qed.

Section Handlers.
Variable s : Config.Settings.
Variable c : RedisClient.

Lemma send_up b w :
  redis_fault w = None ->
  exists r db,
    send b w = (r, with_redis db (b :: redis_wire w) w) /\
    match r with Raise (RedisError _) | Ok _ => True | _ => False end.
Proof.
  intros H. unfold send. rewrite H.
  destruct (Redis.run_all _ _ _) as [rs db].
  destruct (first_error rs); do 2 eexists; (split; [reflexivity | exact I]).
Qed.

Lemma safe_get_cached_note_up note_id w :
  redis_fault w = None ->
  exists r db,
    Main._safe_get_cached_note (Some c) note_id w =
      (r, with_redis db (get_batch note_id :: redis_wire w) w).
Proof.
  intros H. destruct (send_up (get_batch note_id) w H) as (r & db & E & Hr).
  unfold Main._safe_get_cached_note, Cache.get_cached_note, Client.get, call, deref,
    try_except_RedisError, bind, ret. cbn [Main.is_none].
  fold (get_batch note_id). rewrite E.
  destruct r as [[|r1 [|r2 rs]]|[]]; try contradiction; cbn; eauto.
  destruct r1; cbn; eauto. destruct s0; cbn; eauto.
  destruct (Json.loads _) as [j|]; cbn; eauto.
  unfold Schemas.new. destruct j; cbn; eauto.
  destruct (Schemas.validate _); cbn; eauto.
Qed.

Lemma safe_cache_note_up note w :
  redis_fault w = None ->
  exists db,
    Main._safe_cache_note s (Some c) note w =
      (Ok tt, with_redis db (set_batch s note :: redis_wire w) w).
Proof.
  intros H. destruct (send_up (set_batch s note) w H) as (r & db & E & Hr).
  unfold Main._safe_cache_note, Cache.cache_note, Client.set, call, deref,
    try_except_RedisError, bind, ret. cbn [Main.is_none].
  fold (set_batch s note). rewrite E.
  destruct r as [[|r1 [|r2 rs]]|[]]; try contradiction; cbn; eauto.
Qed.

Lemma safe_invalidate_cache_up c' note_id w :
  redis_fault w = None ->
  exists db,
    Main._safe_invalidate_cache (Some c') note_id w =
      (Ok tt, with_redis db (del_batch note_id :: redis_wire w) w).
Proof.
  intros H. destruct (send_up (del_batch note_id) w H) as (r & db & E & Hr).
  unfold Main._safe_invalidate_cache, Cache.invalidate_note_cache, Client.delete, call,
    deref, try_except_RedisError, bind, ret. cbn [Main.is_none].
  fold (del_batch note_id). rewrite E.
  destruct r as [[|r1 [|r2 rs]]|[]]; try contradiction; cbn; eauto.
Qed.

Lemma safe_push_recent_up request a note_id w :
  redis_fault w = None -> client request = Some a ->
  exists db,
    Main._safe_push_recent s (Some c) request note_id w =
      (Ok tt, with_redis db (push_batch s (host a) note_id :: redis_wire w) w).
Proof.
  intros H Ha. destruct (send_up (push_batch s (host a) note_id) w H) as (r & db & E & Hr).
  unfold Main._safe_push_recent, Recent.push_recent_note, Client.pipeline,
    Client.execute, Client.lrem, Client.lpush, Client.ltrim, Client.expire, deref,
    try_except_RedisError, bind, ret. rewrite Ha. cbn [Main.is_none app].
  fold (push_batch s (host a) note_id). rewrite E.
  destruct r as [rs|[]]; try contradiction; cbn; eauto.
Qed.


(** What the cache read makes of a string stored under the key. *)
Lemma get_cached_note_stored note_id w data ttl :
  redis_fault w = None ->
  Redis.peek (redis_now w) (Cache._note_cache_key note_id) (redis_db w)
    = Some (Redis.Entry (Redis.VString data) ttl) ->
  fst (Cache.get_cached_note (Some c) note_id w) =
    match data with
    | EmptyString => Ok None
    | _ =>
        match Json.loads data with
        | None => Raise JSONDecodeError
        | Some (Json.JObj ms) =>
            match Schemas.validate ms with
            | Some n => Ok (Some n)
            | None => Raise ValidationError
            end
        | Some _ => Raise TypeError
        end
    end.
Proof.
  intros Hf Hp.
  unfold Cache.get_cached_note, Client.get, call, send, deref, bind, ret.
  cbn [commands]. rewrite Hf. unfold Redis.run_all, Redis.run. cbn [Redis.key_of Redis.exec].
  rewrite expire_if_needed_lookup, Hp. cbn.
  destruct data as [|ch data]; [reflexivity|].
  destruct (Json.loads _) as [j|]; [|reflexivity].
  unfold Schemas.new. destruct j; try reflexivity.
  destruct (Schemas.validate _); reflexivity.
Qed.

Lemma safe_get_cached_note_unfold note_id w :
  Main._safe_get_cached_note (Some c) note_id w =
    try_except_RedisError (Cache.get_cached_note (Some c) note_id) (ret None) w.
Proof. reflexivity. Qed.

Lemma try_except_passes {A} (body handler : Py A) w :
  match fst (body w) with Raise (RedisError _) => False | _ => True end ->
  fst (try_except_RedisError body handler w) = fst (body w).
Proof.
  unfold try_except_RedisError. destruct (body w) as [[a|[]] w']; cbn; tauto.
Qed.


Lemma get_cached_note_missing note_id w :
  redis_fault w = None ->
  Redis.peek (redis_now w) (Cache._note_cache_key note_id) (redis_db w) = None ->
  fst (Cache.get_cached_note (Some c) note_id w) = Ok None.
Proof.
  intros Hf Hp.
  unfold Cache.get_cached_note, Client.get, call, send, deref, bind, ret.
  cbn [commands]. rewrite Hf. unfold Redis.run_all, Redis.run. cbn [Redis.key_of Redis.exec].
  now rewrite expire_if_needed_lookup, Hp.
Qed.

(** What a put leaves under the key. *)
Lemma cache_note_stored note w :
  redis_fault w = None ->
  0 < Config.note_cache_ttl_seconds s ->
  let w' := snd (Cache.cache_note s (Some c) note w) in
  redis_fault w' = None /\
  redis_db w' !! Cache._note_cache_key (Schemas.id note) =
    Some (Redis.Entry (Redis.VString (Schemas.model_dump_json note))
            (Some (redis_now w + Config.note_cache_ttl_seconds s * 1000))).
Proof.
  intros Hf Httl.
  unfold Cache.cache_note, Client.set, call, send, deref, bind, ret.
  cbn [commands]. rewrite Hf. unfold Redis.run_all, Redis.run. cbn [Redis.key_of Redis.exec].
  destruct (Z.leb_spec (Config.note_cache_ttl_seconds s) 0) as [E|E]; [lia|].
  cbn. split; [exact Hf | apply lookup_insert_eq].
Qed.

(** What an invalidation leaves under the key. *)
Lemma invalidate_note_cache_gone note_id w :
  redis_fault w = None ->
  let w' := snd (Cache.invalidate_note_cache (Some c) note_id w) in
  redis_fault w' = None /\
  redis_db w' !! Cache._note_cache_key note_id = None.
Proof.
  intros Hf.
  unfold Cache.invalidate_note_cache, Client.delete, call, send, deref, bind, ret.
  cbn [commands]. rewrite Hf. unfold Redis.run_all, Redis.run. cbn [Redis.key_of Redis.exec].
  destruct (Redis.expire_if_needed _ _ _ !! _) eqn:E; cbn.
  - split; [exact Hf | apply lookup_delete_eq].
  - split; [exact Hf | exact E].
Qed.

(** C5.  A record put in the cache and fetched before its time to live
    has run out comes back equal to the original, field by field; once its
    entry has been invalidated, a fetch returns absent. *)
Theorem C5_cache_round_trip note w t :
  Schemas.valid note = true ->
  redis_fault w = None ->
  redis_now w <= t < redis_now w + Config.note_cache_ttl_seconds s * 1000 ->
  let w1 := at_time t (snd (Cache.cache_note s (Some c) note w)) in
  fst (Cache.get_cached_note (Some c) (Schemas.id note) w1) = Ok (Some note) /\
  (let w2 := snd (Cache.invalidate_note_cache (Some c) (Schemas.id note) w1) in
   forall t',
     fst (Cache.get_cached_note (Some c) (Schemas.id note) (at_time t' w2)) = Ok None).
Proof.
  intros Hv Hf Ht w1.
  destruct (cache_note_stored note w Hf) as [Hf1 Hk1]; [lia|].
  split.
  - rewrite (get_cached_note_stored (Schemas.id note) w1
               (Schemas.model_dump_json note)
               (Some (redis_now w + Config.note_cache_ttl_seconds s * 1000))).
    + destruct (new_dumped note w1 Hv) as (payload & Hl & Hn).
      change (Schemas.model_dump_json note)
        with (String "{" (Json.items_with member_text "}"
                [("title", Json.JStr (Schemas.title note));
                 ("content", Json.JStr (Schemas.content note));
                 ("tags", match Schemas.tags note with
                          | Some l => Json.JArr (map Json.JStr l)
                          | None => Json.JNull
                          end);
                 ("id", Json.JInt (Schemas.id note));
                 ("created_at", Schemas.json_of_datetime (Schemas.created_at note));
                 ("updated_at", Schemas.json_of_datetime (Schemas.updated_at note));
                 ("is_deleted", Json.JBool (Schemas.is_deleted note));
                 ("deleted_at", match Schemas.deleted_at note with
                                | Some d => Schemas.json_of_datetime d
                                | None => Json.JNull
                                end)])) at 1.
      cbv iota. rewrite Hl. unfold Schemas.new in Hn.
      destruct payload; try discriminate.
      destruct (Schemas.validate members); [|discriminate].
      injection Hn as ->. reflexivity.
    + exact Hf1.
    + unfold Redis.peek. subst w1. unfold at_time. cbn [redis_db redis_now].
      rewrite Hk1. rewrite expired_live by lia. reflexivity.
  - intros w2 t'.
    destruct (invalidate_note_cache_gone (Schemas.id note) w1 Hf1) as [Hf2 Hk2].
    apply get_cached_note_missing; [exact Hf2|].
    subst w2. unfold Redis.peek. unfold at_time at 1. cbn [redis_db redis_now].
    now rewrite Hk2.
Qed.

Lemma push_batch_not_plain ip note_id cs : push_batch s ip note_id <> Batch false cs.
Proof. discriminate. Qed.

(** The part of [read_note] that goes to the table. *)
Lemma read_note_from_table note_id request a include_deleted w k :
  redis_fault w = None -> client request = Some a ->
  (forall n w', k n w' = (Ok n, w')) ->
  let '(r, w') :=
    (do note <- Crud.get_note note_id include_deleted;
     match note with
     | None => raise not_found
     | Some note =>
         do note_schema <- Schemas.model_validate note;
         do _ <- Main._safe_cache_note s (Some c) note_schema;
         do _ <- Main._safe_push_recent s (Some c) request note_id;
         k note_schema
     end) w in
  exists sent,
    redis_wire w' = (sent ++ redis_wire w)%list /\
    match r with
    | Ok _ => head sent = Some (push_batch s (host a) note_id)
    | Raise _ => push_batch s (host a) note_id ∉ sent
    end.
Proof.
  intros Hf Ha Hk. unfold Crud.get_note, Schemas.model_validate, bind. cbn.
  destruct (sql_rows w !! note_id) as [row|]; cbn.
  2:{ destruct (Sql.fits_integer note_id); cbn;
        (exists []; split; [reflexivity | apply not_elem_of_nil]). }
  destruct (_ && Models.is_deleted row); cbn.
  { exists []. split; [reflexivity | apply not_elem_of_nil]. }
  destruct (Schemas.fields_ok _ _ _); cbn.
  2:{ exists []. split; [reflexivity | apply not_elem_of_nil]. }
  match goal with |- context [Main._safe_cache_note _ _ ?n w] => set (note := n) end.
  destruct (safe_cache_note_up note w Hf) as (db1 & E1). rewrite E1.
  match goal with |- context [Main._safe_push_recent _ _ _ _ ?x] => set (w1 := x) end.
  destruct (safe_push_recent_up request a note_id w1 Hf Ha) as (db2 & E2). rewrite E2.
  rewrite Hk. cbn.
  exists [push_batch s (host a) note_id; set_batch s note]. split; reflexivity.
Qed.

(** C7, as the code has it.  With a reachable store and a client
    address, [read_note] pushes the record onto the client's recent list
    exactly when it returns a record, whatever the soft-delete flag of that
    record: the push batch is the last thing sent by a read that succeeds,
    and is not sent at all by a read that fails. *)
Theorem C7_push_on_every_successful_read note_id request a use_cache include_deleted w :
  redis_fault w = None -> client request = Some a ->
  let '(r, w') :=
    Main.read_note s note_id request (Some c) use_cache include_deleted w in
  exists sent,
    redis_wire w' = (sent ++ redis_wire w)%list /\
    match r with
    | Ok _ => head sent = Some (push_batch s (host a) note_id)
    | Raise _ => push_batch s (host a) note_id ∉ sent
    end.
Proof.
  intros Hf Ha. unfold Main.read_note. unfold bind at 1.
  destruct use_cache.
  - unfold bind at 1.
    destruct (safe_get_cached_note_up note_id w Hf) as (r0 & db0 & E0). rewrite E0.
    set (w0 := with_redis db0 (get_batch note_id :: redis_wire w) w).
    destruct r0 as [[n|]|e].
    + destruct (safe_push_recent_up request a note_id w0 Hf Ha) as (db2 & E2).
      unfold bind. rewrite E2. cbn.
      exists [push_batch s (host a) note_id; get_batch note_id]. split; reflexivity.
    + cbn [ret]. fold not_found.
      pose proof (read_note_from_table note_id request a include_deleted w0 ret Hf Ha
                    (fun n w' => eq_refl)) as H.
      match type of H with
      | (let '(_, _) := ?X in _) => destruct X as [r w'] eqn:E
      end.
      destruct H as (sent & Hw & Hr).
      exists (sent ++ [get_batch note_id])%list. split.
      * rewrite Hw. cbn. now rewrite <- app_assoc.
      * destruct r; [destruct sent; [discriminate | exact Hr]|].
        apply not_elem_of_app. split; [exact Hr|].
        apply not_elem_of_cons. split; [apply push_batch_not_plain | apply not_elem_of_nil].
    + exists [get_batch note_id]. split; [reflexivity|].
      apply not_elem_of_cons. split; [apply push_batch_not_plain | apply not_elem_of_nil].
  - cbn [ret]. fold not_found.
    apply (read_note_from_table note_id request a include_deleted w ret Hf Ha
             (fun n w' => eq_refl)).
Qed.

End Handlers.

(** ** [get_redis]: one client for the process *)

Section GetRedisFacts.
Import RedisClientModule.

Section Callers.
Variable s : Config.Settings.
Variable url_error : string -> option exn.

Lemma start_ok n w :
_redis_instance w = None -> constructed w = 0%nat ->
callers_ok s url_error (start n w).
Proof.
intros Hi Hc. split; cbn.
- intros i. split.
  + intros (p & Hp & Hcrit). apply lookup_replicate in Hp as [-> _].
    destruct Hcrit as [|[|]]; discriminate.
  + discriminate.
- now rewrite Hi.
- intros i Hp. apply lookup_replicate in Hp as [? _]. discriminate.
- intros i [Hp|Hp]; apply lookup_replicate in Hp as [? _]; discriminate.
- intros i c Hp. apply lookup_replicate in Hp as [? _]. discriminate.
- intros i e Hp. apply lookup_replicate in Hp as [? _]. discriminate.
- intros _. exact Hi.
Qed.

(** The program counter of caller [j] after caller [i] moved to [p]. *)
Lemma lookup_moved (l : list pc) i j p q :
l !! i = Some q ->
<[i := p]> l !! j = if decide (i = j) then Some p else l !! j.
Proof.
intros Hi. destruct (decide (i = j)) as [->|Hne].
- apply list_lookup_insert_eq. now apply lookup_lt_Some in Hi.
- now apply list_lookup_insert_ne.
Qed.

Ltac moved H :=
repeat match goal with
| Hx : context [<[_ := _]> _ !! _] |- _ => rewrite (lookup_moved _ _ _ _ _ H) in Hx
| |- context [<[_ := _]> _ !! _] => rewrite (lookup_moved _ _ _ _ _ H)
end.

Ltac other_caller Hp j :=
moved Hp; destruct (decide (_ = j)) as [<-|?].

Lemma step_ok i st st' :
callers_ok s url_error st -> step s url_error i st = Some st' ->
callers_ok s url_error st'.
Proof.
intros [Hlock Hbuilt Hcons Hafter Hret Hraised Hrej] Hstep. unfold step in Hstep.
destruct (pcs st !! i) as [p|] eqn:Hp; [|discriminate].
destruct p.
- (* the outer check *)
  injection Hstep as <-. unfold at_pc.
  assert (Hfree : ~ lock st = Some i).
  { intros H. apply Hlock in H as (q & Hq & Hc). rewrite Hp in Hq.
    injection Hq as <-. destruct Hc as [|[|]]; discriminate. }
  split; cbn [pcs shared lock].
  + intros j. rewrite <- Hlock. other_caller Hp j; [|tauto].
    rewrite Hp. split; [|intros (q & [= <-] & [|[|]]); discriminate].
    intros (q & [= <-] & Hc). exfalso.
    destruct (is_none _); destruct Hc as [|[|]]; discriminate.
  + exact Hbuilt.
  + intros j Hj. other_caller Hp j; [|eauto]. destruct (is_none _); discriminate.
  + intros j Hj. other_caller Hp j; [|eauto].
    destruct (_redis_instance (shared st)) as [c|] eqn:Hinst; cbn [is_none] in Hj.
    * destruct Hbuilt as [-> _]. reflexivity.
    * destruct Hj; discriminate.
  + intros j c Hj. other_caller Hp j; [|eauto]. destruct (is_none _); discriminate.
  + intros j e Hj. other_caller Hp j; [|eauto]. destruct (is_none _); discriminate.
  + exact Hrej.
- (* taking the lock *)
  destruct (lock st) as [h|] eqn:Hl; [discriminate|]. injection Hstep as <-.
  split; cbn [pcs shared lock].
  + intros j. other_caller Hp j.
    * split; [reflexivity|]. intros _. exists AtInnerCheck. split; [reflexivity | now left].
    * rewrite Hlock. split; congruence.
  + exact Hbuilt.
  + intros j Hj. other_caller Hp j; [discriminate | eauto].
  + intros j Hj. other_caller Hp j; [destruct Hj; discriminate | eauto].
  + intros j c Hj. other_caller Hp j; [discriminate | eauto].
  + intros j e Hj. other_caller Hp j; [discriminate | eauto].
  + exact Hrej.
- (* the inner check *)
  injection Hstep as <-. unfold at_pc.
  split; cbn [pcs shared lock].
  + intros j. rewrite <- Hlock. other_caller Hp j; [|tauto].
    rewrite Hp. split; intros _; eexists; (split; [reflexivity|]); unfold in_critical;
      [auto | destruct (is_none _); auto].
  + exact Hbuilt.
  + intros j Hj. other_caller Hp j; [|eauto].
    destruct (_redis_instance (shared st)); [discriminate | reflexivity].
  + intros j Hj. other_caller Hp j; [|eauto].
    destruct (_redis_instance (shared st)) as [c|] eqn:Hinst; cbn [is_none] in Hj.
    * destruct Hbuilt as [-> _]. reflexivity.
    * destruct Hj; discriminate.
  + intros j c Hj. other_caller Hp j; [|eauto]. destruct (is_none _); discriminate.
  + intros j e Hj. other_caller Hp j; [|eauto]. destruct (is_none _); discriminate.
  + exact Hrej.
- (* the construction *)
  assert (Hheld : lock st = Some i)
    by (apply Hlock; exists AtConstruct; split; [exact Hp | right; now left]).
  pose proof (Hcons i Hp) as Hinst. rewrite Hinst in Hbuilt.
  unfold from_url, write_instance, bind in Hstep.
  destruct (url_error (Config.redis_url s)) as [e|] eqn:Hu; cbn in Hstep;
    injection Hstep as <-.
  + (* the library refuses the URL: the exception leaves the block *)
    split; cbn [pcs shared lock].
    * intros j. other_caller Hp j.
      -- split; [|discriminate]. intros (q & [= <-] & [|[|]]); discriminate.
      -- split; [|discriminate]. intros Hj. apply Hlock in Hj. congruence.
    * now rewrite Hinst.
    * intros j Hj. other_caller Hp j; [discriminate | eauto].
    * intros j Hj. other_caller Hp j; [destruct Hj; discriminate | eauto].
    * intros j c Hj. other_caller Hp j; [discriminate | eauto].
    * intros j e' Hj. other_caller Hp j; [now injection Hj as <- | rewrite Hu; eauto].
    * intros _. exact Hinst.
  + rewrite Hbuilt.
    split; cbn [pcs shared lock _redis_instance constructed].
    * intros j. rewrite <- Hlock. other_caller Hp j; [|tauto].
      rewrite Hp. split; intros _; eexists; (split; [reflexivity|]); unfold in_critical; auto.
    * split; reflexivity.
    * intros j Hj. other_caller Hp j; [discriminate|].
      assert (lock st = Some j)
        by (apply Hlock; eexists; split; [exact Hj | right; now left]).
      congruence.
    * reflexivity.
    * intros j c Hj. other_caller Hp j; [discriminate|].
      apply Hret in Hj. destruct Hj as [_ Hj]. congruence.
    * intros j e Hj. other_caller Hp j; [discriminate | rewrite Hu; eauto].
    * congruence.
- (* leaving the block *)
  injection Hstep as <-.
  assert (Hheld : lock st = Some i)
    by (apply Hlock; exists AtRelease; split; [exact Hp | right; now right]).
  split; cbn [pcs shared lock].
  + intros j. other_caller Hp j.
    * split; [|discriminate]. intros (q & [= <-] & [|[|]]); discriminate.
    * split; [|discriminate]. intros Hj. apply Hlock in Hj. congruence.
  + exact Hbuilt.
  + intros j Hj. other_caller Hp j; [discriminate | eauto].
  + intros j Hj. other_caller Hp j; eauto.
  + intros j c Hj. other_caller Hp j; [discriminate | eauto].
  + intros j e Hj. other_caller Hp j; [discriminate | eauto].
  + exact Hrej.
- (* the return *)
  injection Hstep as <-. unfold at_pc.
  pose proof (Hafter i (or_intror Hp)) as Hinst.
  assert (Hfree : ~ lock st = Some i).
  { intros H. apply Hlock in H as (q & Hq & Hc). rewrite Hp in Hq.
    injection Hq as <-. destruct Hc as [|[|]]; discriminate. }
  split; cbn [pcs shared lock].
  + intros j. rewrite <- Hlock. other_caller Hp j; [|tauto].
    rewrite Hp. split; intros (q & [= <-] & [|[|]]); discriminate.
  + exact Hbuilt.
  + intros j Hj. other_caller Hp j; [discriminate | eauto].
  + intros j Hj. other_caller Hp j; [destruct Hj; discriminate | eauto].
  + intros j c Hj. other_caller Hp j; [|eauto].
    injection Hj as <-. auto.
  + intros j e Hj. other_caller Hp j; [discriminate | eauto].
  + exact Hrej.
- discriminate.
- discriminate.
Qed.

Lemma run_ok schedule : forall st,
callers_ok s url_error st -> callers_ok s url_error (run s url_error schedule st).
Proof.
induction schedule as [|i schedule IH]; intros st Hok; cbn [run]; [exact Hok|].
apply IH. destruct (step s url_error i st) as [st'|] eqn:E; [|exact Hok].
exact (step_ok i st st' Hok E).
Qed.

(** *** Progress: every step uses up a statement *)

Lemma work_moved (l : list pc) i p q :
l !! i = Some p -> (remaining q < remaining p)%nat ->
(sum_list (map remaining (<[i := q]> l)) < sum_list (map remaining l))%nat.
Proof.
revert i. induction l as [|x l IH]; intros [|i] Hi Hlt; try discriminate.
- injection Hi as ->. change (remaining q + sum_list (map remaining l) <
                              remaining p + sum_list (map remaining l))%nat. lia.
- change (remaining x + sum_list (map remaining (<[i := q]> l)) <
          remaining x + sum_list (map remaining l))%nat.
  pose proof (IH i Hi Hlt). lia.
Qed.

Lemma step_work i st st' : step s url_error i st = Some st' -> (work st' < work st)%nat.
Proof.
unfold step, work, at_pc. intros Hstep.
destruct (pcs st !! i) as [p|] eqn:Hp; [|discriminate].
destruct p; try discriminate.
- injection Hstep as <-. cbn [pcs]. apply (work_moved _ _ _ _ Hp).
  destruct (is_none _); cbn; lia.
- destruct (lock st); [discriminate|]. injection Hstep as <-. cbn [pcs].
  apply (work_moved _ _ _ _ Hp). cbn; lia.
- injection Hstep as <-. cbn [pcs]. apply (work_moved _ _ _ _ Hp).
  destruct (is_none _); cbn; lia.
- destruct (bind _ _ _) as [[?|e] w']; injection Hstep as <-; cbn [pcs];
    apply (work_moved _ _ _ _ Hp); cbn; lia.
- injection Hstep as <-. cbn [pcs]. apply (work_moved _ _ _ _ Hp). cbn; lia.
- injection Hstep as <-. cbn [pcs]. apply (work_moved _ _ _ _ Hp). cbn; lia.
Qed.

Lemma step_length i st st' :
step s url_error i st = Some st' -> length (pcs st') = length (pcs st).
Proof.
unfold step, at_pc. intros Hstep.
destruct (pcs st !! i) as [p|]; [|discriminate].
destruct p; try discriminate.
- injection Hstep as <-. apply length_insert.
- destruct (lock st); [discriminate|]. injection Hstep as <-. apply length_insert.
- injection Hstep as <-. apply length_insert.
- destruct (bind _ _ _) as [[?|e] w']; injection Hstep as <-; apply length_insert.
- injection Hstep as <-. apply length_insert.
- injection Hstep as <-. apply length_insert.
Qed.

Lemma run_length schedule : forall st,
length (pcs (run s url_error schedule st)) = length (pcs st).
Proof.
induction schedule as [|i schedule IH]; intros st; cbn [run]; [reflexivity|].
rewrite IH. destruct (step s url_error i st) as [st'|] eqn:E; [|reflexivity].
exact (step_length i st st' E).
Qed.

Lemma run_work schedule : forall st, (work (run s url_error schedule st) <= work st)%nat.
Proof.
induction schedule as [|i schedule IH]; intros st; cbn [run]; [lia|].
destruct (step s url_error i st) as [st'|] eqn:E; [|apply IH].
pose proof (step_work i st st' E). pose proof (IH st'). lia.
Qed.

(** A stretch of schedule that uses up no statement found nobody able to
  step. *)
Lemma run_stuck schedule : forall st,
work (run s url_error schedule st) = work st ->
forall i, i ∈ schedule -> step s url_error i st = None.
Proof.
induction schedule as [|j schedule IH]; intros st H i Hi.
- now apply elem_of_nil in Hi.
- cbn [run] in H. destruct (step s url_error j st) as [st'|] eqn:E.
  + pose proof (step_work j st st' E). pose proof (run_work schedule st'). lia.
  + apply elem_of_cons in Hi as [->|Hi]; [exact E | now apply IH].
Qed.

Lemma run_app a b st :
run s url_error (a ++ b) st = run s url_error b (run s url_error a st).
Proof. revert st. induction a as [|i a IH]; intros st; cbn [run app]; auto. Qed.

(** A caller that is not waiting for a held lock can step. *)
Lemma step_enabled i st p :
pcs st !! i = Some p -> remaining p <> 0%nat ->
(p = AtAcquire -> lock st = None) ->
exists st', step s url_error i st = Some st'.
Proof.
intros Hp Hr Hl. unfold step. rewrite Hp.
destruct p; try (eexists; reflexivity); try (now destruct Hr).
- rewrite Hl by reflexivity. eauto.
- destruct (bind _ _ _) as [[?|e] w']; eauto.
Qed.

Lemma no_deadlock st :
callers_ok s url_error st ->
(exists i p, pcs st !! i = Some p /\ remaining p <> 0%nat) ->
exists i st', step s url_error i st = Some st'.
Proof.
intros Hok (i & p & Hp & Hr).
destruct (lock st) as [h|] eqn:Hl.
- destruct (proj2 (ok_lock _ _ st Hok h) Hl) as (q & Hq & Hc).
  exists h. apply (step_enabled h st q Hq).
  + destruct Hc as [->|[->| ->]]; discriminate.
  + intros ->. destruct Hc as [|[|]]; discriminate.
- exists i. now apply (step_enabled i st p Hp Hr).
Qed.

Lemma work_pending (l : list pc) :
sum_list (map remaining l) <> 0%nat ->
exists i p, l !! i = Some p /\ remaining p <> 0%nat.
Proof.
induction l as [|x l IH]; cbn; [intros H; now destruct H|]. intros H.
destruct (remaining x) as [|k] eqn:E.
- destruct (IH H) as (i & p & Hi & Hp). now exists (S i), p.
- exists 0%nat, x. split; [reflexivity | lia].
Qed.

Lemma work_done (l : list pc) :
sum_list (map remaining l) = 0%nat -> forall i p, l !! i = Some p -> remaining p = 0%nat.
Proof.
induction l as [|x l IH]; cbn; intros H [|i] p Hp; try discriminate.
- injection Hp as <-. lia.
- apply (IH ltac:(lia) i p Hp).
Qed.

(** In a round somebody steps, unless everybody is through. *)
Lemma round_progress n turns st :
callers_ok s url_error st -> length (pcs st) = n -> round n turns ->
work st <> 0%nat -> (work (run s url_error turns st) < work st)%nat.
Proof.
intros Hok Hn Hround Hw.
pose proof (run_work turns st) as Hle.
destruct (decide (work (run s url_error turns st) = work st)) as [Heq|]; [|lia].
exfalso.
destruct (no_deadlock st Hok (work_pending _ Hw)) as (i & st' & Hstep).
assert (Hi : (i < n)%nat).
{ unfold step in Hstep. destruct (pcs st !! i) as [p|] eqn:Hp; [|discriminate].
  rewrite <- Hn. now apply lookup_lt_Some in Hp. }
rewrite (run_stuck turns st Heq i (Hround i Hi)) in Hstep. discriminate.
Qed.

Lemma fair_work n k schedule :
fair n k schedule -> forall st,
callers_ok s url_error st -> length (pcs st) = n ->
(work (run s url_error schedule st) <= work st - k)%nat.
Proof.
induction 1 as [schedule|k turns schedule Hround Hfair IH]; intros st Hok Hn.
- pose proof (run_work schedule st). lia.
- rewrite run_app.
  assert (Hok1 : callers_ok s url_error (run s url_error turns st)) by now apply run_ok.
  assert (Hn1 : length (pcs (run s url_error turns st)) = n) by now rewrite run_length.
  specialize (IH _ Hok1 Hn1).
  destruct (decide (work st = 0%nat)) as [E|E].
  + pose proof (run_work turns st). lia.
  + pose proof (round_progress n turns st Hok Hn Hround E). lia.
Qed.

Lemma work_start n w : work (start n w) = (6 * n)%nat.
Proof.
unfold work, start. cbn [pcs]. induction n as [|n IH]; [reflexivity|].
cbn [replicate map sum_list]. rewrite IH. cbn. lia.
Qed.

(** After enough rounds every caller is through. *)
Lemma fair_done n w schedule i p :
_redis_instance w = None -> constructed w = 0%nat ->
fair n (6 * n) schedule ->
pcs (run s url_error schedule (start n w)) !! i = Some p -> remaining p = 0%nat.
Proof.
intros Hi Hc Hfair.
pose proof (fair_work n (6 * n) schedule Hfair (start n w) (start_ok n w Hi Hc)
              (length_replicate _ _)) as H.
rewrite work_start in H. apply work_done. unfold work in H. lia.
Qed.

(** A step under a URL the library refuses leaves the world as it was. *)
Lemma step_refused e i st st' :
url_error (Config.redis_url s) = Some e ->
step s url_error i st = Some st' -> shared st' = shared st.
Proof.
intros Hu. unfold step, at_pc, from_url, bind. rewrite Hu. intros Hstep.
destruct (pcs st !! i) as [p|]; [|discriminate].
destruct p; try discriminate; try (now injection Hstep as <-).
destruct (lock st); [discriminate|]. now injection Hstep as <-.
Qed.

Lemma run_refused e schedule : forall st,
url_error (Config.redis_url s) = Some e ->
shared (run s url_error schedule st) = shared st.
Proof.
induction schedule as [|i schedule IH]; intros st Hu; cbn [run]; [reflexivity|].
rewrite IH by exact Hu. destruct (step s url_error i st) as [st'|] eqn:E; [|reflexivity].
exact (step_refused e i st st' Hu E).
Qed.
End Callers.

Section GetRedis.
Variable s : Config.Settings.
Variable url_error : string -> option exn.

Lemma get_redis_first w :
url_error (Config.redis_url s) = None ->
_redis_instance w = None ->
exists w',
  get_redis s url_error w = (Ok (Some {| client_no := constructed w |}), w') /\
  _redis_instance w' = Some {| client_no := constructed w |} /\
  constructed w' = S (constructed w).
Proof.
intros Hu H. unfold get_redis, read_instance, from_url, write_instance, bind, ret.
rewrite ?H, ?Hu. cbn. rewrite ?H, ?Hu. cbn. eexists. split; [reflexivity|].
split; reflexivity.
Qed.

Lemma get_redis_again w c :
_redis_instance w = Some c -> get_redis s url_error w = (Ok (Some c), w).
Proof.
intros H. unfold get_redis, read_instance, bind, ret. rewrite H. cbn. now rewrite H.
Qed.

Lemma get_redis_refused w e :
url_error (Config.redis_url s) = Some e ->
_redis_instance w = None -> get_redis s url_error w = (Raise e, w).
Proof.
intros Hu H. unfold get_redis, read_instance, from_url, bind, ret.
rewrite ?H, ?Hu. cbn. now rewrite ?H, ?Hu.
Qed.

(** C9, as the code has it.  When the client library accepts the
  configured URL, [get_redis] never raises, whatever the state of the
  server, and leaves the global set to the client it returns; called again
  it returns that same client and builds nothing.  When any number of
  callers race through it from a fresh process, under any schedule, at
  most one client is ever built, every caller that has returned holds that
  one client, and some caller can always take a step while one has yet to
  return; under a schedule that keeps no caller waiting for ever, all of
  them return that one client.  When the library refuses the URL, the call
  raises the library's error and leaves the world as it was, global unset,
  and so does every later call; racing callers build nothing, none of
  them returns a client, and under a fair schedule all of them raise. *)
Theorem C9_get_redis_once :
(url_error (Config.redis_url s) = None ->
 (forall w, exists c,
    fst (get_redis s url_error w) = Ok (Some c) /\
    _redis_instance (snd (get_redis s url_error w)) = Some c /\
    constructed (snd (get_redis s url_error w)) =
      (constructed w + if is_none (_redis_instance w) then 1 else 0)%nat) /\
 (forall w c, _redis_instance w = Some c -> get_redis s url_error w = (Ok (Some c), w)) /\
 (forall n w schedule,
    _redis_instance w = None -> constructed w = 0%nat ->
    let st := run s url_error schedule (start n w) in
    (constructed (shared st) <= 1)%nat /\
    (forall i c, pcs st !! i = Some (Returned c) -> c = Some first_client) /\
    ((exists i p, pcs st !! i = Some p /\ forall c, p <> Returned c) ->
     exists i st', step s url_error i st = Some st') /\
    (fair n (6 * n) schedule ->
     pcs st = replicate n (Returned (Some first_client))))) /\
(forall e, url_error (Config.redis_url s) = Some e ->
 (forall w, _redis_instance w = None -> get_redis s url_error w = (Raise e, w)) /\
 (forall n w schedule,
    _redis_instance w = None -> constructed w = 0%nat ->
    let st := run s url_error schedule (start n w) in
    shared st = w /\
    (forall i c, pcs st !! i <> Some (Returned c)) /\
    (fair n (6 * n) schedule -> pcs st = replicate n (Raised e)))).
Proof.
split.
- intros Hu. split; [|split].
  + intros w. destruct (_redis_instance w) as [c|] eqn:H.
    * exists c. rewrite (get_redis_again w c H). cbn. rewrite H. repeat split. lia.
    * destruct (get_redis_first w Hu H) as (w' & E & Hi & Hc).
      eexists. rewrite E. cbn. repeat split; [exact Hi | lia].
  + exact get_redis_again.
  + intros n w schedule Hi Hc st.
    assert (Hok : callers_ok s url_error st) by (apply run_ok, start_ok; assumption).
    split; [|split; [|split]].
    * pose proof (ok_built _ _ st Hok) as Hb.
      destruct (_redis_instance (shared st)); [destruct Hb as [_ ->] | rewrite Hb]; lia.
    * intros i c Hp. exact (proj1 (ok_returned _ _ st Hok i c Hp)).
    * intros (i & p & Hp & Hr). apply (no_deadlock s url_error st Hok).
      exists i, p. split; [exact Hp|].
      destruct p; cbn; try discriminate.
      -- now destruct (Hr c).
      -- pose proof (ok_raised _ _ st Hok i e Hp). congruence.
    * intros Hfair. symmetry. apply replicate_as_Forall. split.
      -- subst st. rewrite run_length. apply length_replicate.
      -- apply Forall_lookup. intros i p Hp.
         pose proof (fair_done s url_error n w schedule i p Hi Hc Hfair Hp) as Hr.
         destruct p; try discriminate.
         ++ now rewrite (proj1 (ok_returned _ _ st Hok i c Hp)).
         ++ pose proof (ok_raised _ _ st Hok i e Hp). congruence.
- intros e Hu. split.
  + intros w H. now apply get_redis_refused.
  + intros n w schedule Hi Hc st.
    assert (Hok : callers_ok s url_error st) by (apply run_ok, start_ok; assumption).
    assert (Hnone : _redis_instance (shared st) = None)
      by (apply (ok_rejected _ _ st Hok); congruence).
    split; [|split].
    * subst st. now rewrite (run_refused s url_error e schedule _ Hu).
    * intros i c Hp. pose proof (proj2 (ok_returned _ _ st Hok i c Hp)). congruence.
    * intros Hfair. symmetry. apply replicate_as_Forall. split.
      -- subst st. rewrite run_length. apply length_replicate.
      -- apply Forall_lookup. intros i p Hp.
         pose proof (fair_done s url_error n w schedule i p Hi Hc Hfair Hp) as Hr.
         destruct p; try discriminate.
         ++ pose proof (proj2 (ok_returned _ _ st Hok i c Hp)). congruence.
         ++ pose proof (ok_raised _ _ st Hok i e0 Hp). congruence.
Qed.
End GetRedis.

End GetRedisFacts.

(** ** Batches at the server *)

Section AtomicityFacts.
Import Redis.

Section Atomicity.
Variable s : Config.Settings.
Hypothesis Hlimit : 1 <= Config.recent_notes_limit s.

Lemma store_list_other k k' l ttl (db : gmap string entry) :
k' <> k -> store_list k l ttl db !! k' = db !! k'.
Proof.
intros H. unfold store_list.
destruct l; [now apply lookup_delete_ne | now apply lookup_insert_ne].
Qed.

Lemma exec_other now c (db : gmap string entry) k' :
k' <> key_of c -> snd (exec now c db) !! k' = db !! k'.
Proof.
intros H. destruct c; cbn [exec key_of] in *;
  repeat match goal with
  | |- context [match ?x with _ => _ end] => destruct x
  end; cbn [snd fst];
  rewrite ?store_list_other, ?lookup_insert_ne, ?lookup_delete_ne by congruence;
  reflexivity.
Qed.

Lemma run_other now c (db : gmap string entry) k' :
k' <> key_of c -> snd (run now c db) !! k' = db !! k'.
Proof.
intros H. unfold run. rewrite exec_other by exact H.
apply expire_if_needed_other. congruence.
Qed.

Lemma run_all_other now cs k' : forall (db : gmap string entry),
Forall (fun c => k' <> key_of c) cs -> snd (run_all now cs db) !! k' = db !! k'.
Proof.
induction cs as [|c cs IH]; intros db H; [reflexivity|].
inversion H as [|? ? Hc Hcs]; subst. rewrite run_all_cons.
pose proof (run_other now c db k' Hc) as E.
destruct (run now c db) as [r db1]. cbn [snd] in E.
specialize (IH db1 Hcs). destruct (run_all now cs db1) as [rs db2]. cbn [snd] in *.
congruence.
Qed.


Lemma note_not_rate n a : Cache._note_cache_key n <> RateLimit._rate_limit_key a.
Proof.
unfold Cache._note_cache_key, RateLimit._rate_limit_key. intros H.
change ("note:" +:+ str n) with (String "n" ("ote:" +:+ str n)) in H.
change ("rate:ip:" +:+ a) with (String "r" ("ate:ip:" +:+ a)) in H.
discriminate.
Qed.

Lemma note_not_recent n a : Cache._note_cache_key n <> Recent._recent_key a.
Proof.
unfold Cache._note_cache_key, Recent._recent_key. intros H.
change ("note:" +:+ str n) with (String "n" ("ote:" +:+ str n)) in H.
change ("recent:ip:" +:+ a) with (String "r" ("ecent:ip:" +:+ a)) in H.
discriminate.
Qed.









End Atomicity.


End AtomicityFacts.

(** ** The properties at concrete inputs *)

(** The scenario of the specification: with a limit of 3 in a window of 60
    seconds, three requests pass, a fourth in the window is rejected, and a
    request after the window passes again. *)
Lemma C1_rate_limiter_counts_witness :
  let wN := snd (requests three_a_minute a_request (Some a_client)
                   [1000; 2000; 3000] quiet_world) in
  counter "203.0.113.7" (at_time 4000 wN) = 3 /\
  fst (RateLimit.rate_limiter three_a_minute a_request (Some a_client) (at_time 4000 wN))
    = Raise too_many /\
  fst (RateLimit.rate_limiter three_a_minute a_request (Some a_client) (at_time 61001 wN))
    = Ok tt.
Proof.
  intros wN.
  assert (H1 : 0 < Config.rate_limit_window_seconds three_a_minute) by (cbn; lia).
  assert (H2 : redis_fault quiet_world = None) by reflexivity.
  assert (H3 : Redis.peek 1000 (rate_key a_request) (redis_db quiet_world) = None)
    by reflexivity.
  assert (H4 : Forall (in_window three_a_minute 1000) [2000; 3000])
    by (repeat constructor; cbn; lia).
  destruct (C1_rate_limiter_counts three_a_minute a_request a_client quiet_world
              1000 [2000; 3000] H1 H2 H3 H4) as (Ha & Hb & Hc).
  split; [|split].
  - apply (Ha 4000). unfold in_window. cbn. lia.
  - apply (Hb 4000); [unfold in_window; cbn; lia | cbn; lia].
  - specialize (Hc 61001). fold wN in Hc.
    destruct (RateLimit.rate_limiter three_a_minute a_request (Some a_client)
                (at_time 61001 wN)) as [r w'].
    apply Hc; cbn; lia.
Defined.

(** An increment half a minute into the window leaves the expiry time the
    first increment set. *)
Lemma C6_expiry_set_once_witness :
  let w1 := snd (RateLimit.rate_limiter three_a_minute a_request (Some a_client)
                   quiet_world) in
  let w2 := snd (RateLimit.rate_limiter three_a_minute a_request (Some a_client)
                   (at_time 31000 w1)) in
  expiry (rate_key a_request) w1 = Some 61000 /\
  expiry (rate_key a_request) w2 = Some 61000.
Proof.
  intros w1 w2.
  destruct (C6_expiry_set_once three_a_minute a_request a_client quiet_world eq_refl)
    as (_ & Hfirst & _).
  assert (H1 : expiry (rate_key a_request) w1 = Some 61000)
    by (apply Hfirst; [reflexivity | cbn; lia]).
  split; [exact H1|].
  destruct (C6_expiry_set_once three_a_minute a_request a_client (at_time 31000 w1))
    as (_ & _ & Hkept); [reflexivity|].
  apply Hkept. vm_compute. reflexivity.
Defined.





(** A record put at second 1 and fetched at second 2 comes back as it
    was. *)
Lemma C5_cache_round_trip_witness :
  Schemas.valid a_note = true /\
  (let w1 := at_time 2000
               (snd (Cache.cache_note three_a_minute (Some a_client) a_note quiet_world)) in
   fst (Cache.get_cached_note (Some a_client) 1 w1) = Ok (Some a_note) /\
   fst (Cache.get_cached_note (Some a_client) 1
          (at_time 3000 (snd (Cache.invalidate_note_cache (Some a_client) 1 w1))))
     = Ok None).
Proof.
  split; [reflexivity|]. intros w1.
  destruct (C5_cache_round_trip three_a_minute a_client a_note quiet_world 2000)
    as [Hget Hgone]; [reflexivity | reflexivity | cbn; lia |].
  split; [exact Hget | exact (Hgone 3000)].
Defined.

(** A read of a soft-deleted record that asks for deleted records succeeds
    and sends the push. *)
Lemma C7_push_on_every_successful_read_witness :
  let '(r, w') :=
    Main.read_note three_a_minute 1 a_request (Some a_client) false true
      world_with_deleted_row in
  exists sent,
    redis_wire w' = (sent ++ redis_wire world_with_deleted_row)%list /\
    match r with
    | Ok _ => head sent = Some (push_batch three_a_minute "203.0.113.7" 1)
    | Raise _ => push_batch three_a_minute "203.0.113.7" 1 ∉ sent
    end.
Proof.
  exact (C7_push_on_every_successful_read three_a_minute a_client 1 a_request
           {| host := "203.0.113.7"; port := 51234 |} false true
           world_with_deleted_row eq_refl eq_refl).
Defined.

(** The specification has no push on the read of a soft-deleted record.
    At that read the record returned has its soft-delete flag set, and its
    identifier is on the client's recent list afterwards. *)
Lemma C7_deleted_read_counterexample :
  let '(r, w') :=
    Main.read_note three_a_minute 1 a_request (Some a_client) false true
      world_with_deleted_row in
  (exists n, r = Ok n /\ Schemas.is_deleted n = true) /\
  fst (Recent.get_recent_notes three_a_minute (Some a_client) "203.0.113.7" w') = Ok [1].
Proof. vm_compute. split; [eexists; split; reflexivity | reflexivity]. Qed.




(** Rounds in which the callers take turns in order make a fair schedule. *)
Lemma fair_rounds n k : fair n k (concat (replicate k (seq 0 n))).
Proof.
  induction k as [|k IH]; [constructor|].
  change (fair n (S k) (seq 0 n ++ concat (replicate k (seq 0 n)))).
  constructor; [|exact IH].
  intros i Hi. apply elem_of_seq. lia.
Qed.

(** Three callers racing through [get_redis] under a round-robin schedule
    build one client between them, and all three return it. *)
Lemma C9_get_redis_once_witness :
  let st := RedisClientModule.run three_a_minute scheme_required round_robin
              (RedisClientModule.start 3 quiet_world) in
  scheme_required (Config.redis_url three_a_minute) = None /\
  (constructed (RedisClientModule.shared st) <= 1)%nat /\
  RedisClientModule.pcs st = replicate 3 (RedisClientModule.Returned (Some first_client)).
Proof.
  intros st.
  assert (Hu : scheme_required (Config.redis_url three_a_minute) = None) by reflexivity.
  destruct (C9_get_redis_once three_a_minute scheme_required) as (Hgood & _).
  destruct (Hgood Hu) as (_ & _ & Hrace).
  destruct (Hrace 3%nat quiet_world round_robin eq_refl eq_refl)
    as (Hbuilt & _ & _ & Hlive).
  split; [exact Hu|]. split; [exact Hbuilt|].
  apply Hlive. exact (fair_rounds 3 18).
Defined.

(** The specification has every call return the one client and none
    throw.  With [REDIS_URL=localhost:6379] the library refuses the URL: the
    first call raises [ValueError], and so does the next; no client is built
    and the global stays unset. *)
Lemma C9_refused_url_counterexample :
  let '(r1, w1) := RedisClientModule.get_redis no_scheme scheme_required quiet_world in
  let '(r2, w2) := RedisClientModule.get_redis no_scheme scheme_required w1 in
  scheme_required (Config.redis_url no_scheme) = Some ValueError /\
  r1 = Raise ValueError /\ r2 = Raise ValueError /\
  _redis_instance w2 = None /\ constructed w2 = 0%nat.
Proof. vm_compute. repeat split; reflexivity. Qed.

(** Under that schedule all three have returned, with the one client. *)
Example round_robin_run :
  let st := RedisClientModule.run three_a_minute scheme_required round_robin
              (RedisClientModule.start 3 quiet_world) in
  RedisClientModule.pcs st =
    [RedisClientModule.Returned (Some first_client);
     RedisClientModule.Returned (Some first_client);
     RedisClientModule.Returned (Some first_client)] /\
  constructed (RedisClientModule.shared st) = 1%nat.
Proof. vm_compute. split; reflexivity. Qed.



(** * The table and the handlers around the store *)

(** ** Round trips leave the rest of the world alone *)

Section Frames.
Variable s : Config.Settings.

Lemma with_redis_same w : with_redis (redis_db w) (redis_wire w) w = w.
Proof. now destruct w. Qed.

Lemma store_only_refl w : store_only w w.
Proof. exists (redis_db w), (redis_wire w). symmetry. apply with_redis_same. Qed.

Lemma store_only_trans w1 w2 w3 : store_only w1 w2 -> store_only w2 w3 -> store_only w1 w3.
Proof. intros (db & wire & ->) (db' & wire' & ->). now exists db', wire'. Qed.

Lemma store_only_rows w w' : store_only w w' -> sql_rows w' = sql_rows w.
Proof. now intros (db & wire & ->). Qed.

Lemma store_only_fault w w' : store_only w w' -> redis_fault w' = redis_fault w.
Proof. now intros (db & wire & ->). Qed.

Lemma store_only_now w w' : store_only w w' -> redis_now w' = redis_now w.
Proof. now intros (db & wire & ->). Qed.

(** A round trip ends in a reply or in an error of the store, and changes
    the store and the log alone. *)
Lemma send_frame b w :
  store_only w (snd (send b w)) /\
  match fst (send b w) with Ok _ | Raise (RedisError _) => True | _ => False end.
Proof.
  unfold send. destruct (redis_fault w).
  - split; [apply store_only_refl | exact I].
  - destruct (Redis.run_all _ _ _) as [rs db].
    destruct (first_error rs); (split; [now eexists _, _ | exact I]).
Qed.

Lemma call_frame cmd w :
  store_only w (snd (call cmd w)) /\
  match fst (call cmd w) with Ok _ | Raise (RedisError _) => True | _ => False end.
Proof.
  unfold call, bind. destruct (send_frame (Batch false [cmd]) w) as [Hw Hr].
  destruct (send _ w) as [[rs|e] w']; cbn in *; [|auto].
  destruct rs as [|r [|r' rs]]; cbn; auto.
Qed.

(** The three wrappers that return nothing never raise. *)
Lemma safe_cache_note_frame client_ note w :
  exists w', Main._safe_cache_note s client_ note w = (Ok tt, w') /\ store_only w w'.
Proof.
  destruct client_ as [c|]; [|exists w; split; [reflexivity | apply store_only_refl]].
  unfold Main._safe_cache_note, Cache.cache_note, Client.set, deref,
    try_except_RedisError, bind, ret. cbn [Main.is_none].
  destruct (call_frame (Redis.SET (Cache._note_cache_key (Schemas.id note))
              (Schemas.model_dump_json note) (Some (Config.note_cache_ttl_seconds s))) w)
    as [Hw Hr].
  destruct (call _ w) as [[r|[]] w']; cbn in *; try contradiction; eauto.
Qed.

Lemma safe_invalidate_cache_frame client_ note_id w :
  exists w', Main._safe_invalidate_cache client_ note_id w = (Ok tt, w') /\ store_only w w'.
Proof.
  destruct client_ as [c|]; [|exists w; split; [reflexivity | apply store_only_refl]].
  unfold Main._safe_invalidate_cache, Cache.invalidate_note_cache, Client.delete, deref,
    try_except_RedisError, bind, ret. cbn [Main.is_none].
  destruct (call_frame (Redis.DEL (Cache._note_cache_key note_id)) w) as [Hw Hr].
  destruct (call _ w) as [[r|[]] w']; cbn in *; try contradiction; eauto.
Qed.

Lemma safe_push_recent_frame client_ request note_id w :
  exists w', Main._safe_push_recent s client_ request note_id w = (Ok tt, w') /\
             store_only w w'.
Proof.
  destruct client_ as [c|]; [|exists w; split; [reflexivity | apply store_only_refl]].
  unfold Main._safe_push_recent. cbn [Main.is_none].
  destruct (client request) as [a|]; cbn [Main.is_none];
    [|exists w; split; [reflexivity | apply store_only_refl]].
  unfold Recent.push_recent_note, Client.pipeline, Client.execute, deref,
    try_except_RedisError, bind, ret.
  match goal with |- context [send ?b w] =>
    destruct (send_frame b w) as [Hw Hr]; destruct (send b w) as [[r|[]] w']
  end; cbn in *; try contradiction; eauto.
Qed.

Lemma safe_get_cached_note_frame client_ note_id w :
  store_only w (snd (Main._safe_get_cached_note client_ note_id w)).
Proof.
  destruct client_ as [c|]; [|apply store_only_refl].
  unfold Main._safe_get_cached_note, Cache.get_cached_note, Client.get, deref,
    try_except_RedisError, bind, ret. cbn [Main.is_none].
  destruct (call_frame (Redis.GET (Cache._note_cache_key note_id)) w) as [Hw Hr].
  destruct (call _ w) as [[r|[]] w']; cbn in *; try contradiction; auto.
  destruct r; cbn; auto. destruct s0; cbn; auto.
  destruct (Json.loads _) as [j|]; cbn; auto.
  unfold Schemas.new. destruct j; cbn; auto.
  destruct (Schemas.validate _); cbn; auto.
Qed.

Lemma ints_world values w : snd (Recent.ints values w) = w.
Proof.
  induction values as [|v values IH]; [reflexivity|]. cbn [Recent.ints].
  destruct (py_int v); [|reflexivity]. unfold bind.
  destruct (Recent.ints values w) as [[ns|e] w']; cbn in *; now subst.
Qed.

Lemma safe_get_recent_frame client_ request w :
  store_only w (snd (Main._safe_get_recent s client_ request w)).
Proof.
  destruct client_ as [c|]; [|apply store_only_refl].
  unfold Main._safe_get_recent. cbn [Main.is_none orb].
  destruct (client request) as [a|]; cbn [Main.is_none]; [|apply store_only_refl].
  unfold Recent.get_recent_notes, Client.lrange, deref, try_except_RedisError, bind, ret.
  match goal with |- context [call ?cmd w] =>
    destruct (call_frame cmd w) as [Hw Hr]; destruct (call cmd w) as [[r|[]] w']
  end; cbn in *; try contradiction; auto.
  destruct r; cbn; auto.
  pose proof (ints_world l w') as Hi.
  destruct (Recent.ints l w') as [[ns|[]] w'']; cbn in *; subst; auto.
Qed.

Lemma rate_limiter_frame request client_ w :
  store_only w (snd (RateLimit.rate_limiter s request client_ w)).
Proof.
  destruct client_ as [c|]; [|apply store_only_refl].
  unfold RateLimit.rate_limiter, Client.pipeline, Client.execute, deref,
    try_except_RedisError, bind, ret.
  match goal with |- context [send ?b w] =>
    destruct (send_frame b w) as [Hw Hr]; destruct (send b w) as [[rs|[]] w']
  end; cbn in *; try contradiction; auto.
  destruct rs as [|r1 [|r2 [|r3 rs]]]; cbn; auto.
  destruct (py_truthy r1); cbn; auto.
  unfold py_int_of. destruct r1; cbn; auto.
  - destruct (py_int s0); cbn; auto. destruct (_ >? _); cbn; auto.
  - destruct (_ >? _); cbn; auto.
Qed.

End Frames.

(** ** The handlers that read *)

Section ReadOnly.
Variable s : Config.Settings.

Lemma bound_ret {A} (a : A) : store_bound (ret a).
Proof. intros w. apply store_only_refl. Qed.

Lemma bound_raise {A} e : store_bound (@raise A e).
Proof. intros w. apply store_only_refl. Qed.

Lemma bound_bind {A B} (m : Py A) (k : A -> Py B) :
  store_bound m -> (forall a, store_bound (k a)) -> store_bound (bind m k).
Proof.
  intros Hm Hk w. unfold bind. specialize (Hm w).
  destruct (m w) as [[a|e] w1]; cbn in *; [|exact Hm].
  eapply store_only_trans; [exact Hm | apply Hk].
Qed.

Lemma bound_model_validate row : store_bound (Schemas.model_validate row).
Proof.
  intros w. unfold Schemas.model_validate.
  destruct (Schemas.fields_ok _ _ _); apply store_only_refl.
Qed.

Lemma bound_get_note note_id include_deleted :
  store_bound (Crud.get_note note_id include_deleted).
Proof.
  intros w. unfold Crud.get_note.
  destruct (sql_rows w !! note_id); [|destruct (Sql.fits_integer note_id)];
    apply store_only_refl.
Qed.

Lemma bound_safe_cache_note client_ note : store_bound (Main._safe_cache_note s client_ note).
Proof.
  intros w. destruct (safe_cache_note_frame s client_ note w) as (w' & E & H).
  now rewrite E.
Qed.

Lemma bound_safe_push_recent client_ request note_id :
  store_bound (Main._safe_push_recent s client_ request note_id).
Proof.
  intros w. destruct (safe_push_recent_frame s client_ request note_id w) as (w' & E & H).
  now rewrite E.
Qed.

Lemma bound_safe_invalidate_cache client_ note_id :
  store_bound (Main._safe_invalidate_cache client_ note_id).
Proof.
  intros w. destruct (safe_invalidate_cache_frame client_ note_id w) as (w' & E & H).
  now rewrite E.
Qed.

Lemma bound_read_note note_id request client_ use_cache include_deleted :
  store_bound (Main.read_note s note_id request client_ use_cache include_deleted).
Proof.
  unfold Main.read_note. apply bound_bind.
  - destruct use_cache; [|apply bound_ret]. apply bound_bind.
    + intros w. apply safe_get_cached_note_frame.
    + intros [n|]; [|apply bound_ret]. apply bound_bind.
      * apply bound_safe_push_recent.
      * intros _. apply bound_ret.
  - intros [n|]; [apply bound_ret|]. apply bound_bind; [apply bound_get_note|].
    intros [row|]; [|apply bound_raise]. apply bound_bind; [apply bound_model_validate|].
    intros n. apply bound_bind; [apply bound_safe_cache_note|].
    intros _. apply bound_bind; [apply bound_safe_push_recent|].
    intros _. apply bound_ret.
Qed.

Lemma bound_for_note_id note_ids : forall items,
  store_bound (Main.for_note_id note_ids items).
Proof.
  induction note_ids as [|note_id note_ids IH]; intros items; cbn [Main.for_note_id].
  - apply bound_ret.
  - apply bound_bind; [apply bound_get_note|].
    intros [row|]; [|apply IH]. apply bound_bind; [apply bound_model_validate|].
    intros n. apply IH.
Qed.

Lemma bound_recent_notes request client_ : store_bound (Main.recent_notes s request client_).
Proof.
  unfold Main.recent_notes. apply bound_bind.
  - intros w. apply safe_get_recent_frame.
  - intros ids. apply bound_for_note_id.
Qed.

Lemma model_validate_each_world notes w : snd (Main.model_validate_each notes w) = w.
Proof.
  induction notes as [|row notes IH]; [reflexivity|]. cbn [Main.model_validate_each].
  unfold bind, Schemas.model_validate.
  destruct (Schemas.fields_ok _ _ _); cbn; [|reflexivity].
  destruct (Main.model_validate_each notes w) as [[ns|e] w']; cbn in *; now subst.
Qed.

Lemma list_notes_world tag title_contains include_deleted w :
  snd (Main.list_notes tag title_contains include_deleted w) = w.
Proof.
  unfold Main.list_notes, bind. cbn.
  match goal with |- context [Main.model_validate_each ?l w] =>
    pose proof (model_validate_each_world l w) as H;
    destruct (Main.model_validate_each l w) as [[ns|e] w']
  end; cbn in *; now subst.
Qed.

(** X18.  The handlers that read, and the limiter in front of every route,
    never write to the table, whatever the store does: a read of a record, a
    listing, the recent records and the limiter leave every row as it was,
    and a listing changes nothing at all. *)
Theorem readers_leave_the_table request client_ w :
  (forall note_id use_cache include_deleted,
     sql_rows (snd (Main.read_note s note_id request client_ use_cache include_deleted w))
       = sql_rows w) /\
  (forall tag title_contains include_deleted,
     snd (Main.list_notes tag title_contains include_deleted w) = w) /\
  sql_rows (snd (Main.recent_notes s request client_ w)) = sql_rows w /\
  sql_rows (snd (RateLimit.rate_limiter s request client_ w)) = sql_rows w.
Proof.
  split; [|split; [|split]].
  - intros. apply store_only_rows, bound_read_note.
  - intros. apply list_notes_world.
  - apply store_only_rows, bound_recent_notes.
  - apply store_only_rows, rate_limiter_frame.
Qed.

End ReadOnly.

(** ** The handlers that write *)

Section Writers.
Variable s : Config.Settings.

Lemma largest_rowid_bound (ks : list Z) k :
  In k ks ->
  exists m,
    foldr (fun k acc => Some (match acc with Some m => Z.max k m | None => k end)) None ks
      = Some m /\ k <= m.
Proof.
  induction ks as [|k' ks IH]; [intros []|]. intros [->|Hin]; cbn [foldr].
  - destruct (foldr _ None ks) as [m|]; eexists; (split; [reflexivity | lia]).
  - destruct (IH Hin) as (m & -> & Hm). eexists; split; [reflexivity | lia].
Qed.

(** The rowid of an inserted row is above every rowid of the table. *)
Lemma next_rowid_above {A} (rows : gmap Z A) k x :
  rows !! k = Some x -> k < Sql.next_rowid rows.
Proof.
  intros H. unfold Sql.next_rowid, Sql.largest_rowid.
  destruct (largest_rowid_bound (map fst (map_to_list rows)) k) as (m & -> & Hm); [|lia].
  apply (in_map fst _ (k, x)), list_elem_of_In, elem_of_map_to_list, H.
Qed.

Lemma next_rowid_fresh {A} (rows : gmap Z A) : rows !! Sql.next_rowid rows = None.
Proof.
  destruct (rows !! Sql.next_rowid rows) as [x|] eqn:E; [|reflexivity].
  apply next_rowid_above in E. lia.
Qed.

Lemma fields_ok_created note_in :
  Schemas.fields_ok (Schemas.nc_title note_in) (Schemas.nc_content note_in)
    (Schemas.nc_tags note_in) = true ->
  Schemas.fields_ok (Schemas.nc_title note_in) (Schemas.nc_content note_in)
    (Some (match Schemas.nc_tags note_in with
           | Some ((_ :: _) as tags) => tags
           | _ => []
           end)) = true.
Proof.
  unfold Schemas.fields_ok. destruct (Schemas.nc_tags note_in) as [[|t l]|]; auto.
Qed.

(** The insertion, in the table alone. *)
Lemma crud_create_note note_in w :
  exists row,
    Crud.create_note note_in w =
      (Ok row, with_rows (<[Models.id row := row]> (sql_rows w)) (tick (tick w))) /\
    Models.id row = Sql.next_rowid (sql_rows w) /\
    Models.title row = Schemas.nc_title note_in /\
    Models.content row = Schemas.nc_content note_in /\
    Models.tags row = Some (match Schemas.nc_tags note_in with
                            | Some ((_ :: _) as tags) => tags
                            | _ => []
                            end) /\
    Models.created_at row = utcnow w /\
    Models.updated_at row = utcnow (tick w) /\
    Models.is_deleted row = false /\
    Models.deleted_at row = None.
Proof.
  unfold Crud.create_note, datetime_utcnow, bind. cbv beta iota.
  rewrite !rows_tick. eexists. split; [reflexivity|]. repeat split.
Qed.

Lemma create_note_effect note_in client_ w :
  Schemas.fields_ok (Schemas.nc_title note_in) (Schemas.nc_content note_in)
    (Schemas.nc_tags note_in) = true ->
  exists row w',
    Main.create_note s note_in client_ w = (Ok (to_schema row), w') /\
    Models.id row = Sql.next_rowid (sql_rows w) /\
    (forall k old, sql_rows w !! k = Some old -> k < Models.id row) /\
    Models.title row = Schemas.nc_title note_in /\
    Models.content row = Schemas.nc_content note_in /\
    Models.tags row = Some (default [] (Schemas.nc_tags note_in)) /\
    Models.created_at row = utcnow w /\
    Models.updated_at row = utcnow (tick w) /\
    Models.is_deleted row = false /\
    Models.deleted_at row = None /\
    sql_rows w' = <[Models.id row := row]> (sql_rows w).
Proof.
  intros Hok. apply fields_ok_created in Hok.
  destruct (crud_create_note note_in w)
    as (row & E & Hid & Htitle & Hcontent & Htags & Hca & Hua & Hdel & Hda).
  unfold Main.create_note. unfold bind at 1. rewrite E.
  set (w1 := with_rows _ _).
  unfold bind at 1. unfold Schemas.model_validate.
  rewrite Htitle, Hcontent, Htags, Hok. cbn [ret].
  unfold bind.
  match goal with |- context [Main._safe_cache_note s client_ ?n w1] =>
    destruct (safe_cache_note_frame s client_ n w1) as (w' & E' & Hw); rewrite E'
  end.
  exists row, w'. split.
  { f_equal. f_equal. unfold to_schema. now rewrite Htitle, Hcontent, Htags. }
  split; [exact Hid|].
  split; [intros k old H; rewrite Hid; apply (next_rowid_above _ _ _ H)|].
  split; [exact Htitle|]. split; [exact Hcontent|].
  split; [rewrite Htags; now destruct (Schemas.nc_tags note_in) as [[|]|]|].
  split; [exact Hca|]. split; [exact Hua|]. split; [exact Hdel|]. split; [exact Hda|].
  rewrite (store_only_rows _ _ Hw). subst w1. cbn [with_rows sql_rows]. reflexivity.
Qed.

Lemma largest_rowid_le (ks : list Z) b m :
  (forall k, In k ks -> k <= b) ->
  foldr (fun k acc => Some (match acc with Some m => Z.max k m | None => k end)) None ks
    = Some m -> m <= b.
Proof.
  revert m. induction ks as [|k ks IH]; intros m Hb; [discriminate|].
  cbn [foldr]. intros [= <-].
  pose proof (Hb k (or_introl eq_refl)).
  destruct (foldr _ None ks) as [m'|] eqn:E; [|lia].
  specialize (IH m' (fun k' H' => Hb k' (or_intror H')) eq_refl). lia.
Qed.

(** In a table whose rowids are below the largest there is, the rowid of
    an inserted row is one the column can hold. *)
Lemma next_rowid_fits {A} (rows : gmap Z A) :
  (forall k x, rows !! k = Some x -> 0 < k < Sql.max_integer) ->
  0 < Sql.next_rowid rows <= Sql.max_integer.
Proof.
  intros Hb. unfold Sql.next_rowid, Sql.largest_rowid.
  destruct (foldr _ None (map fst (map_to_list rows))) as [m|] eqn:E;
    [|unfold Sql.max_integer; lia].
  assert (Hin : forall k, In k (map fst (map_to_list rows)) -> 0 < k <= Sql.max_integer - 1).
  { intros k Hk. apply in_map_iff in Hk as ([k' x] & <- & Hk).
    apply list_elem_of_In, elem_of_map_to_list in Hk. specialize (Hb _ _ Hk). cbn. lia. }
  pose proof (largest_rowid_le _ (Sql.max_integer - 1) m (fun k Hk => proj2 (Hin k Hk)) E).
  destruct (map fst (map_to_list rows)) as [|k0 ks] eqn:Eks; [discriminate|].
  destruct (largest_rowid_bound (k0 :: ks) k0 (or_introl eq_refl)) as (m' & Em & Hm).
  rewrite E in Em. injection Em as <-.
  pose proof (Hin k0 (or_introl eq_refl)). lia.
Qed.

(** X1.  Creation. Over a table whose identifiers are positive and below
    the largest a 64-bit column can hold, a request body that has passed
    validation becomes a row under an identifier above every one of the
    table, and one the column can hold; it has the tags given (none when the
    body has no tags) and the deletion mark clear, its creation time is a
    reading of the application's clock and its update time is the reading
    after that one.  The handler returns that row, whatever the state of the
    store, and no other row of the table changes. *)
Theorem create_note_inserts note_in client_ w :
  Schemas.fields_ok (Schemas.nc_title note_in) (Schemas.nc_content note_in)
    (Schemas.nc_tags note_in) = true ->
  (forall k old, sql_rows w !! k = Some old -> 0 < k < Sql.max_integer) ->
  exists row w',
    Main.create_note s note_in client_ w = (Ok (to_schema row), w') /\
    (forall k old, sql_rows w !! k = Some old -> k < Models.id row) /\
    0 < Models.id row <= Sql.max_integer /\
    Models.title row = Schemas.nc_title note_in /\
    Models.content row = Schemas.nc_content note_in /\
    Models.tags row = Some (default [] (Schemas.nc_tags note_in)) /\
    Models.created_at row = utcnow w /\
    Models.updated_at row = utcnow (tick w) /\
    Models.is_deleted row = false /\
    Models.deleted_at row = None /\
    sql_rows w' = <[Models.id row := row]> (sql_rows w).
Proof.
  intros Hok Hb.
  destruct (create_note_effect note_in client_ w Hok) as (row & w' & E & Hid & Habove & H).
  exists row, w'. split; [exact E|]. split; [exact Habove|].
  split; [rewrite Hid; now apply next_rowid_fits | exact H].
Qed.

End Writers.

(** ** Reads of a record: the cache in front of the table *)

Section Reads.
Variable s : Config.Settings.
Variable c : RedisClient.

Lemma try_except_world {A} (body : Py A) (a : A) w :
  snd (try_except_RedisError body (ret a) w) = snd (body w).
Proof. unfold try_except_RedisError, ret. now destruct (body w) as [[x|[]] w']. Qed.

Lemma safe_cache_note_world note w :
  Main._safe_cache_note s (Some c) note w = (Ok tt, snd (Cache.cache_note s (Some c) note w)).
Proof.
  destruct (safe_cache_note_frame s (Some c) note w) as (w' & E & _). rewrite E. f_equal.
  change w' with (snd (Ok tt, w')). rewrite <- E. apply try_except_world.
Qed.

Lemma safe_invalidate_cache_world note_id w :
  Main._safe_invalidate_cache (Some c) note_id w =
    (Ok tt, snd (Cache.invalidate_note_cache (Some c) note_id w)).
Proof.
  destruct (safe_invalidate_cache_frame (Some c) note_id w) as (w' & E & _). rewrite E.
  f_equal. change w' with (snd (Ok tt, w')). rewrite <- E. apply try_except_world.
Qed.

(** A live entry that holds the text of a record reads back as that
    record. *)
Lemma get_cached_note_hit note_id w n ttl :
  redis_fault w = None ->
  Schemas.valid n = true ->
  cached (redis_now w) note_id (redis_db w)
    = Some (Redis.Entry (Redis.VString (Schemas.model_dump_json n)) ttl) ->
  fst (Cache.get_cached_note (Some c) note_id w) = Ok (Some n).
Proof.
  intros Hf Hv Hp.
  rewrite (get_cached_note_stored c note_id w (Schemas.model_dump_json n) ttl Hf Hp).
  destruct (new_dumped n w Hv) as (payload & Hl & Hn).
  change (Schemas.model_dump_json n)
    with (String "{" (Json.items_with member_text "}"
            [("title", Json.JStr (Schemas.title n));
             ("content", Json.JStr (Schemas.content n));
             ("tags", match Schemas.tags n with
                      | Some l => Json.JArr (map Json.JStr l)
                      | None => Json.JNull
                      end);
             ("id", Json.JInt (Schemas.id n));
             ("created_at", Schemas.json_of_datetime (Schemas.created_at n));
             ("updated_at", Schemas.json_of_datetime (Schemas.updated_at n));
             ("is_deleted", Json.JBool (Schemas.is_deleted n));
             ("deleted_at", match Schemas.deleted_at n with
                            | Some d => Schemas.json_of_datetime d
                            | None => Json.JNull
                            end)])) at 1.
  cbv iota. rewrite Hl. unfold Schemas.new in Hn.
  destruct payload; try discriminate.
  destruct (Schemas.validate members); [|discriminate].
  injection Hn as ->. reflexivity.
Qed.

Lemma safe_get_cached_note_result note_id w x :
  fst (Cache.get_cached_note (Some c) note_id w) = Ok x ->
  exists w', Main._safe_get_cached_note (Some c) note_id w = (Ok x, w') /\ store_only w w'.
Proof.
  intros H. pose proof (safe_get_cached_note_frame (Some c) note_id w) as Hw.
  pose proof (try_except_passes (Cache.get_cached_note (Some c) note_id) (ret None) w) as Hr.
  rewrite H in Hr. specialize (Hr I). rewrite <- safe_get_cached_note_unfold in Hr.
  destruct (Main._safe_get_cached_note (Some c) note_id w) as [r w']. cbn in *. subst r.
  now exists w'.
Qed.

(** The part of [read_note] that asks the table. *)
Lemma read_note_table note_id request client_ use_cache include_deleted w :
  (use_cache = true ->
   exists w0, Main._safe_get_cached_note client_ note_id w = (Ok None, w0) /\
              store_only w w0) ->
  fst (Main.read_note s note_id request client_ use_cache include_deleted w)
    = table_read note_id include_deleted (sql_rows w).
Proof.
  intros H. unfold Main.read_note. unfold bind at 1.
  assert (Hw : exists w0,
    (if use_cache
     then do note_schema <- Main._safe_get_cached_note client_ note_id;
          match note_schema with
          | Some _ =>
              do _ <- Main._safe_push_recent s client_ request note_id;
              ret note_schema
          | None => ret None
          end
     else ret None) w = (Ok None, w0) /\ sql_rows w0 = sql_rows w).
  { destruct use_cache.
    - destruct (H eq_refl) as (w0 & E & Hs). exists w0. unfold bind. rewrite E.
      split; [reflexivity | now apply store_only_rows].
    - now exists w. }
  destruct Hw as (w0 & -> & Hrows). unfold table_read. rewrite <- Hrows.
  unfold Crud.get_note, bind at 1.
  destruct (sql_rows w0 !! note_id) as [row|];
    [|now destruct (Sql.fits_integer note_id)].
  destruct (negb include_deleted && Models.is_deleted row); [reflexivity|].
  unfold bind at 1. unfold Schemas.model_validate.
  destruct (Schemas.fields_ok _ _ _); [|reflexivity]. cbn [ret].
  unfold bind.
  match goal with |- context [Main._safe_cache_note s client_ ?n w0] =>
    destruct (safe_cache_note_frame s client_ n w0) as (w1 & -> & _)
  end.
  destruct (safe_push_recent_frame s client_ request note_id w1) as (w2 & -> & _).
  reflexivity.
Qed.

Lemma safe_get_cached_note_miss note_id w :
  redis_fault w = None ->
  cached (redis_now w) note_id (redis_db w) = None ->
  exists w0, Main._safe_get_cached_note (Some c) note_id w = (Ok None, w0) /\
             store_only w w0.
Proof.
  intros Hf Hp. apply safe_get_cached_note_result.
  now apply get_cached_note_missing.
Qed.

Lemma read_note_falls_back note_id request client_ use_cache include_deleted w :
  use_cache = false \/
  store_fails client_ w \/
  (client_ = Some c /\ redis_fault w = None /\
   cached (redis_now w) note_id (redis_db w) = None) ->
  fst (Main.read_note s note_id request client_ use_cache include_deleted w)
    = table_read note_id include_deleted (sql_rows w).
Proof.
  intros H. apply read_note_table. intros ->.
  destruct H as [H|[H|(-> & Hf & Hp)]]; [discriminate | |].
  - exists w. split; [now apply safe_get_cached_note_fails | apply store_only_refl].
  - now apply safe_get_cached_note_miss.
Qed.


(** The part of [read_note] that answers from the cache. *)
Lemma read_note_hit note_id request include_deleted w n ttl :
  redis_fault w = None ->
  Schemas.valid n = true ->
  cached (redis_now w) note_id (redis_db w)
    = Some (Redis.Entry (Redis.VString (Schemas.model_dump_json n)) ttl) ->
  fst (Main.read_note s note_id request (Some c) true include_deleted w) = Ok n.
Proof.
  intros Hf Hv Hp.
  destruct (safe_get_cached_note_result note_id w (Some n)) as (w0 & E & _);
    [now apply (get_cached_note_hit note_id w n ttl)|].
  unfold Main.read_note, bind. rewrite E.
  destruct (safe_push_recent_frame s (Some c) request note_id w0) as (w1 & -> & _).
  reflexivity.
Qed.

End Reads.

(** ** Writes and the reads that follow them *)

Section Compositions.
Variable s : Config.Settings.
Variable c : RedisClient.

Lemma send_other b w k :
  Forall (fun cmd => k <> Redis.key_of cmd) (commands b) ->
  redis_db (snd (send b w)) !! k = redis_db w !! k.
Proof.
  intros H. unfold send. destruct (redis_fault w); [reflexivity|].
  pose proof (run_all_other (redis_now w) (commands b) k (redis_db w) H) as E.
  destruct (Redis.run_all _ _ _) as [rs db]. cbn in E.
  now destruct (first_error rs).
Qed.

(** A push touches the key of the caller's list and no other. *)
Lemma safe_push_recent_other client_ request note_id w k :
  (forall ip, k <> Recent._recent_key ip) ->
  redis_db (snd (Main._safe_push_recent s client_ request note_id w)) !! k
    = redis_db w !! k.
Proof.
  intros Hk. destruct client_ as [c'|]; [|reflexivity].
  unfold Main._safe_push_recent. cbn [Main.is_none].
  destruct (client request) as [a|]; cbn [Main.is_none]; [|reflexivity].
  rewrite try_except_world.
  unfold Recent.push_recent_note, Client.pipeline, Client.execute, deref, bind, ret.
  match goal with |- context [send ?b w] =>
    pose proof (send_other b w k) as E; destruct (send b w) as [[rs|e] w']
  end; cbn in *; apply E; repeat constructor; apply Hk.
Qed.

Lemma cached_after_push client_ request note_id w t id :
  cached t id (redis_db (snd (Main._safe_push_recent s client_ request note_id w)))
    = cached t id (redis_db w).
Proof.
  unfold cached, Redis.peek. rewrite safe_push_recent_other; [reflexivity|].
  intros ip. apply note_not_recent.
Qed.

(** What a put leaves in the cache, to a client that comes before the
    time to live has run out. *)
Lemma cached_after_put note w t :
  redis_fault w = None ->
  0 < Config.note_cache_ttl_seconds s ->
  t <= redis_now w + Config.note_cache_ttl_seconds s * 1000 ->
  cached t (Schemas.id note) (redis_db (snd (Cache.cache_note s (Some c) note w)))
    = Some (Redis.Entry (Redis.VString (Schemas.model_dump_json note))
              (Some (redis_now w + Config.note_cache_ttl_seconds s * 1000))).
Proof.
  intros Hf Httl Ht. destruct (cache_note_stored s c note w Hf Httl) as [_ Hk].
  unfold cached, Redis.peek. rewrite Hk. now rewrite expired_live.
Qed.

Lemma create_note_world note_in w :
  Schemas.fields_ok (Schemas.nc_title note_in) (Schemas.nc_content note_in)
    (Schemas.nc_tags note_in) = true ->
  exists row w1,
    Crud.create_note note_in w = (Ok row, w1) /\
    redis_fault w1 = redis_fault w /\ redis_now w1 = redis_now w /\
    row_ok row /\
    Models.created_at row = utcnow w /\ Models.updated_at row = utcnow (tick w) /\
    Models.deleted_at row = None /\
    Main.create_note s note_in (Some c) w =
      (Ok (to_schema row), snd (Cache.cache_note s (Some c) (to_schema row) w1)).
Proof.
  intros Hok. apply fields_ok_created in Hok.
  destruct (crud_create_note note_in w)
    as (row & E & Hid & Htitle & Hcontent & Htags & Hca & Hua & Hdel & Hda).
  assert (Hrow : row_ok row) by (unfold row_ok; now rewrite Htitle, Hcontent, Htags).
  eexists row, _. split; [exact E|].
  split; [cbn [with_rows redis_fault]; now rewrite !fault_tick|].
  split; [cbn [with_rows redis_now]; now rewrite !now_tick|].
  split; [exact Hrow|].
  split; [exact Hca|]. split; [exact Hua|]. split; [exact Hda|].
  unfold Main.create_note. unfold bind at 1. rewrite E.
  unfold bind at 1. unfold Schemas.model_validate. unfold row_ok in Hrow.
  rewrite Hrow. cbn [ret]. unfold bind. now rewrite safe_cache_note_world.
Qed.

(** The clock shows a date of the calendar at every reading. *)
Lemma valid_tick w :
  Datetime.valid (utcnow w) = true -> Datetime.valid (utcnow (tick w)) = true.
Proof.
  intros H. unfold tick. destruct (utc_later w) as [|t later]; [exact H|].
  exact (Datetime.reading_valid t).
Qed.

(** X2.  Creation fills the cache. With the store in reach, a read of the
    new record that comes before the time to live of its entry has run out
    is answered from the cache: it returns the record as it was created,
    whatever the table holds by then. *)
Theorem created_note_is_cached note_in request include_deleted w t rows :
  Schemas.fields_ok (Schemas.nc_title note_in) (Schemas.nc_content note_in)
    (Schemas.nc_tags note_in) = true ->
  Datetime.valid (utcnow w) = true ->
  redis_fault w = None ->
  0 < Config.note_cache_ttl_seconds s ->
  t <= redis_now w + Config.note_cache_ttl_seconds s * 1000 ->
  exists note w1,
    Main.create_note s note_in (Some c) w = (Ok note, w1) /\
    fst (Main.read_note s (Schemas.id note) request (Some c) true include_deleted
           (with_rows rows (at_time t w1))) = Ok note.
Proof.
  intros Hok Hd Hf Httl Ht.
  destruct (create_note_world note_in w Hok)
    as (row & w1 & _ & Hf1 & Hn1 & Hrow & Hca & Hua & Hda & E).
  eexists _, _. split; [exact E|].
  rewrite Hf in Hf1.
  destruct (cache_note_stored s c (to_schema row) w1 Hf1 Httl) as [Hf2 _].
  eapply read_note_hit.
  - exact Hf2.
  - unfold Schemas.valid, to_schema. cbn. unfold row_ok in Hrow.
    now rewrite Hrow, Hca, Hua, Hda, Hd, (valid_tick w Hd).
  - cbn [redis_now redis_db with_rows at_time].
    apply cached_after_put; [exact Hf1 | exact Httl | lia].
Qed.

Lemma delete_note_of_deleted note_id client_ row w :
  sql_rows w !! note_id = Some row ->
  Models.is_deleted row = true ->
  Main.delete_note note_id client_ w = (Raise not_found, w).
Proof.
  intros Hrow Hdel. unfold Main.delete_note, Crud.get_note, bind. cbn [negb andb].
  rewrite Hrow. cbv beta iota. now rewrite Hdel.
Qed.

(** The soft delete, in the table alone. *)
Lemma crud_soft_delete_note row w :
  Crud.soft_delete_note row w =
    (Ok (marked_deleted (utcnow w) (utcnow (tick w)) row),
     with_rows
       (<[Models.id row := marked_deleted (utcnow w) (utcnow (tick w)) row]> (sql_rows w))
       (tick (tick w))).
Proof.
  unfold Crud.soft_delete_note, datetime_utcnow, bind. cbv beta iota.
  now rewrite !rows_tick.
Qed.

Lemma delete_note_live note_id client_ row w :
  sql_rows w !! note_id = Some row ->
  Models.id row = note_id ->
  Models.is_deleted row = false ->
  row_ok row ->
  Main.delete_note note_id client_ w =
    (Ok (to_schema (marked_deleted (utcnow w) (utcnow (tick w)) row)),
     snd (Main._safe_invalidate_cache client_ note_id
            (with_rows
               (<[note_id := marked_deleted (utcnow w) (utcnow (tick w)) row]> (sql_rows w))
               (tick (tick w))))).
Proof.
  intros Hrow Hid Hlive Hok. subst note_id.
  unfold Main.delete_note, Crud.get_note. unfold bind at 1. cbn [negb andb].
  rewrite Hrow. cbv beta iota. rewrite Hlive.
  unfold bind at 1. rewrite crud_soft_delete_note.
  unfold bind at 1. unfold Schemas.model_validate.
  cbn [marked_deleted Models.title Models.content Models.tags].
  unfold row_ok in Hok. rewrite Hok. cbn [ret]. unfold bind.
  match goal with |- context [Main._safe_invalidate_cache client_ ?i ?w1] =>
    destruct (safe_invalidate_cache_frame client_ i w1) as (w2 & E & _)
  end.
  cbn [Models.id] in *. rewrite E. reflexivity.
Qed.

Lemma delete_note_effect note_id client_ row w :
  sql_rows w !! note_id = Some row ->
  Models.id row = note_id ->
  Models.is_deleted row = false ->
  row_ok row ->
  exists w',
    Main.delete_note note_id client_ w
      = (Ok (to_schema (marked_deleted (utcnow w) (utcnow (tick w)) row)), w') /\
    sql_rows w' =
      <[note_id := marked_deleted (utcnow w) (utcnow (tick w)) row]> (sql_rows w) /\
    (client_ = Some c -> redis_fault w = None ->
     redis_wire w' = del_batch note_id :: redis_wire w /\
     forall t, cached t note_id (redis_db w') = None).
Proof.
  intros Hrow Hid Hlive Hok.
  rewrite (delete_note_live note_id client_ row w Hrow Hid Hlive Hok).
  eexists. split; [reflexivity|].
  set (w1 := with_rows _ _). split.
  - destruct (safe_invalidate_cache_frame client_ note_id w1) as (w2 & E & Hw).
    rewrite E. cbn [snd]. now rewrite (store_only_rows _ _ Hw).
  - intros -> Hf.
    assert (Hf1 : redis_fault w1 = None)
      by (subst w1; cbn [with_rows redis_fault]; now rewrite !fault_tick).
    split.
    + destruct (safe_invalidate_cache_up c note_id w1 Hf1) as (db & E). rewrite E.
      subst w1. cbn [snd with_redis with_rows redis_wire]. now rewrite !wire_tick.
    + intros t. rewrite safe_invalidate_cache_world. cbn [snd].
      destruct (invalidate_note_cache_gone c note_id w1 Hf1) as [_ Hk].
      unfold cached, Redis.peek. now rewrite Hk.
Qed.

(** X4.  A soft delete. Deleting a record whose row is live marks the row as
    deleted, stamps its deletion time with a reading of the application's
    clock and its update time with the reading after that one, and returns
    it, whatever the state of the store; no other row changes. With the
    store in reach, the one thing sent is the [DEL] of the record's cache
    entry, and the cache holds no entry for the record afterwards. *)
Theorem delete_note_marks note_id client_ row w :
  sql_rows w !! note_id = Some row ->
  Models.id row = note_id ->
  Models.is_deleted row = false ->
  row_ok row ->
  exists w',
    Main.delete_note note_id client_ w
      = (Ok (to_schema (marked_deleted (utcnow w) (utcnow (tick w)) row)), w') /\
    sql_rows w' =
      <[note_id := marked_deleted (utcnow w) (utcnow (tick w)) row]> (sql_rows w) /\
    (client_ = Some c -> redis_fault w = None ->
     redis_wire w' = del_batch note_id :: redis_wire w /\
     forall t, cached t note_id (redis_db w') = None).
Proof. apply delete_note_effect. Qed.

(** X5.  Right after a soft delete. When a record has been deleted with
    the store in reach, then on the world the delete left, whatever time has
    passed on the server's clock and before any other request has written to
    the store, a read that does not ask for deleted records is a 404, with
    the cache or without it; a second delete is a 404 and changes nothing; a
    read that asks for deleted records returns the marked row. *)
Theorem deleted_note_is_gone note_id row w request use_cache t :
  sql_rows w !! note_id = Some row ->
  Models.id row = note_id ->
  Models.is_deleted row = false ->
  row_ok row ->
  redis_fault w = None ->
  let w' := snd (Main.delete_note note_id (Some c) w) in
  fst (Main.read_note s note_id request (Some c) use_cache false (at_time t w'))
    = Raise not_found /\
  Main.delete_note note_id (Some c) w' = (Raise not_found, w') /\
  fst (Main.read_note s note_id request (Some c) use_cache true (at_time t w'))
    = Ok (to_schema (marked_deleted (utcnow w) (utcnow (tick w)) row)).
Proof.
  intros Hrow Hid Hlive Hok Hf w'.
  destruct (delete_note_effect note_id (Some c) row w Hrow Hid Hlive Hok)
    as (w1 & E & Hrows & Hstore).
  destruct (Hstore eq_refl Hf) as [_ Hgone].
  assert (Hw : w' = w1) by (subst w'; now rewrite E).
  assert (Hf1 : redis_fault w' = None).
  { subst w'. rewrite (delete_note_live note_id (Some c) row w Hrow Hid Hlive Hok).
    rewrite <- Hf. cbn [snd].
    rewrite (store_only_fault _ _ (bound_safe_invalidate_cache (Some c) note_id _)).
    cbn [with_rows redis_fault]. now rewrite !fault_tick. }
  rewrite Hw in *. clear Hw w' E Hstore.
  assert (Hk : sql_rows w1 !! note_id
               = Some (marked_deleted (utcnow w) (utcnow (tick w)) row))
    by (rewrite Hrows; apply lookup_insert_eq).
  assert (Hread : forall include_deleted,
    fst (Main.read_note s note_id request (Some c) use_cache include_deleted
           (at_time t w1))
      = table_read note_id include_deleted (sql_rows w1)).
  { intros include_deleted.
    apply (read_note_falls_back s c note_id request (Some c) use_cache include_deleted
             (at_time t w1)).
    right. right. repeat split; [exact Hf1 | apply Hgone]. }
  split; [|split].
  - rewrite Hread. unfold table_read. now rewrite Hk.
  - apply delete_note_of_deleted
      with (row := marked_deleted (utcnow w) (utcnow (tick w)) row);
      [exact Hk | reflexivity].
  - rewrite Hread. unfold table_read. rewrite Hk. cbn.
    unfold row_ok in Hok. now rewrite Hok.
Qed.

Lemma valid_row_ok row : Schemas.valid (to_schema row) = true -> row_ok row.
Proof.
  unfold Schemas.valid, row_ok. cbn [to_schema Schemas.title Schemas.content Schemas.tags].
  intros H. do 3 (apply andb_true_iff in H as [H _]). exact H.
Qed.

(** X6.  A delete while the store is away leaves the cache behind. When a
    live record is deleted with the store out of reach, its cache entry is
    not invalidated: once the store is back, and for as long as the entry
    lives, a read through the cache still returns the record as it was
    before the delete, while a read with the cache turned off is a 404. *)
Theorem unreachable_delete_leaves_stale_entry note_id row w f ttl t request :
  sql_rows w !! note_id = Some row ->
  Models.id row = note_id ->
  Models.is_deleted row = false ->
  Schemas.valid (to_schema row) = true ->
  redis_fault w = Some f ->
  cached t note_id (redis_db w)
    = Some (Redis.Entry (Redis.VString (Schemas.model_dump_json (to_schema row))) ttl) ->
  let w' := with_fault None (at_time t (snd (Main.delete_note note_id (Some c) w))) in
  fst (Main.read_note s note_id request (Some c) true false w') = Ok (to_schema row) /\
  fst (Main.read_note s note_id request (Some c) false false w') = Raise not_found.
Proof.
  intros Hrow Hid Hlive Hv Hf Hc w'.
  pose proof (valid_row_ok row Hv) as Hok.
  assert (Hw : w' = with_fault None (at_time t
            (with_rows
               (<[note_id := marked_deleted (utcnow w) (utcnow (tick w)) row]> (sql_rows w))
               (tick (tick w))))).
  { subst w'. rewrite (delete_note_live note_id (Some c) row w Hrow Hid Hlive Hok).
    rewrite safe_invalidate_cache_fails; [reflexivity|]. right.
    cbn [with_rows redis_fault]. now rewrite !fault_tick, Hf. }
  rewrite Hw. split.
  - apply (read_note_hit s c note_id request false _ (to_schema row) ttl);
      [reflexivity | exact Hv |].
    cbn [with_fault at_time with_rows redis_now redis_db]. now rewrite !db_tick.
  - rewrite (read_note_falls_back s c) by now left.
    unfold table_read. cbn [sql_rows with_fault at_time with_rows].
    now rewrite lookup_insert_eq.
Qed.

Lemma read_note_table_world note_id request client_ include_deleted row w :
  sql_rows w !! note_id = Some row ->
  negb include_deleted && Models.is_deleted row = false ->
  row_ok row ->
  snd (Main.read_note s note_id request client_ false include_deleted w)
    = snd (Main._safe_push_recent s client_ request note_id
             (snd (Main._safe_cache_note s client_ (to_schema row) w))).
Proof.
  intros Hrow Hvis Hok. unfold Main.read_note. unfold bind at 1. cbn [ret].
  unfold Crud.get_note, bind at 1. rewrite Hrow, Hvis.
  unfold bind at 1. unfold Schemas.model_validate. unfold row_ok in Hok. rewrite Hok.
  cbn [ret]. fold (to_schema row). unfold bind.
  destruct (safe_cache_note_frame s client_ (to_schema row) w) as (w1 & E1 & _).
  rewrite E1. cbn [snd].
  destruct (safe_push_recent_frame s client_ request note_id w1) as (w2 & E2 & _).
  now rewrite E2.
Qed.

(** X7.  A hit does not look at the deletion mark. A read that asks for
    deleted records and finds one in the table puts it in the cache; until
    that entry expires, a read through the cache that does not ask for
    deleted records is handed the deleted record all the same, where the
    table alone answers 404. *)
Theorem cached_deleted_note_is_served note_id row w t request request' :
  sql_rows w !! note_id = Some row ->
  Models.id row = note_id ->
  Models.is_deleted row = true ->
  Schemas.valid (to_schema row) = true ->
  redis_fault w = None ->
  0 < Config.note_cache_ttl_seconds s ->
  t <= redis_now w + Config.note_cache_ttl_seconds s * 1000 ->
  let w' := at_time t (snd (Main.read_note s note_id request (Some c) false true w)) in
  fst (Main.read_note s note_id request' (Some c) true false w') = Ok (to_schema row) /\
  fst (Main.read_note s note_id request' (Some c) false false w') = Raise not_found.
Proof.
  intros Hrow Hid Hdel Hv Hf Httl Ht w'.
  pose proof (valid_row_ok row Hv) as Hok.
  pose proof (bound_read_note s note_id request (Some c) false true w) as Hb.
  assert (Hf' : redis_fault w' = None).
  { subst w'. cbn [at_time redis_fault]. now rewrite (store_only_fault _ _ Hb). }
  split.
  - apply (read_note_hit s c note_id request' false w' (to_schema row)
             (Some (redis_now w + Config.note_cache_ttl_seconds s * 1000)));
      [exact Hf' | exact Hv |].
    subst w'. cbn [at_time redis_now redis_db].
    rewrite (read_note_table_world note_id request (Some c) true row w Hrow eq_refl Hok).
    rewrite cached_after_push, safe_cache_note_world. cbn [snd].
    rewrite <- Hid. now apply (cached_after_put (to_schema row) w t).
  - rewrite (read_note_falls_back s c) by now left.
    unfold table_read. subst w'. cbn [at_time sql_rows].
    now rewrite (store_only_rows _ _ Hb), Hrow, Hdel.
Qed.

End Compositions.

(** ** The recent records of a client *)

Section RecentNotes.
Variable s : Config.Settings.
Variable c : RedisClient.

Lemma for_note_id_live rows ids : forall items w,
  sql_rows w = rows ->
  table_ok rows ->
  Forall (fun id => is_Some (rows !! id) \/ Sql.fits_integer id = true) ids ->
  Main.for_note_id ids items w = (Ok (items ++ live_notes rows ids)%list, w).
Proof.
  induction ids as [|id ids IH]; intros items w Hrows Hok Hids.
  - cbn. now rewrite app_nil_r.
  - apply Forall_cons in Hids as [Hid Hids].
    cbn [Main.for_note_id live_notes omap list_omap].
    unfold Crud.get_note, bind at 1. rewrite Hrows. cbn [negb andb].
    destruct (rows !! id) as [row|] eqn:E.
    2:{ destruct Hid as [[? Hid]|Hid]; [discriminate|]. rewrite Hid. now apply IH. }
    cbv beta iota.
    destruct (Models.is_deleted row); [now apply IH|].
    unfold bind at 1. unfold Schemas.model_validate.
    destruct (Hok id row E) as [_ Hrow]. unfold row_ok in Hrow. rewrite Hrow.
    cbn [ret]. fold (to_schema row). rewrite (IH _ w Hrows Hok Hids).
    now rewrite <- app_assoc.
Qed.

(** An identifier that no row has and no row can have stops the loop. *)
Lemma for_note_id_overflow rows ids : forall items w,
  sql_rows w = rows ->
  table_ok rows ->
  Exists (fun id => rows !! id = None /\ Sql.fits_integer id = false) ids ->
  Main.for_note_id ids items w = (Raise OverflowError, w).
Proof.
  induction ids as [|id ids IH]; intros items w Hrows Hok Hids.
  - now apply Exists_nil in Hids.
  - cbn [Main.for_note_id].
    unfold Crud.get_note, bind at 1. rewrite Hrows. cbn [negb andb].
    apply Exists_cons in Hids as [[Hnone Hfit]|Hids].
    { now rewrite Hnone, Hfit. }
    destruct (rows !! id) as [row|] eqn:E.
    2:{ destruct (Sql.fits_integer id); [now apply IH | reflexivity]. }
    cbv beta iota.
    destruct (Models.is_deleted row); [now apply IH|].
    unfold bind at 1. unfold Schemas.model_validate.
    destruct (Hok id row E) as [_ Hrow]. unfold row_ok in Hrow. rewrite Hrow.
    cbn [ret]. now apply IH.
Qed.

Lemma live_notes_not_deleted rows ids :
  Forall (fun n => Schemas.is_deleted n = false) (live_notes rows ids).
Proof.
  induction ids as [|id ids IH]; [constructor|].
  cbn [live_notes omap list_omap]. fold (live_notes rows ids).
  destruct (rows !! id) as [row|]; [|exact IH].
  destruct (Models.is_deleted row) eqn:E; [exact IH|].
  constructor; [exact E | exact IH].
Qed.

Lemma live_notes_ids rows ids :
  table_ok rows -> sublist (map Schemas.id (live_notes rows ids)) ids.
Proof.
  intros Hok. induction ids as [|id ids IH]; [constructor|].
  cbn [live_notes omap list_omap]. fold (live_notes rows ids).
  destruct (rows !! id) as [row|] eqn:E; [|now constructor].
  destruct (Models.is_deleted row); [now constructor|].
  cbn [map to_schema Schemas.id]. destruct (Hok id row E) as [-> _]. now constructor.
Qed.

Lemma safe_get_recent_result request a w ids :
  client request = Some a ->
  fst (Recent.get_recent_notes s (Some c) (host a) w) = Ok ids ->
  exists w', Main._safe_get_recent s (Some c) request w = (Ok ids, w') /\ store_only w w'.
Proof.
  intros Ha H. pose proof (safe_get_recent_frame s (Some c) request w) as Hw.
  unfold Main._safe_get_recent in *. rewrite Ha in *. cbn [Main.is_none orb deref] in *.
  pose proof (try_except_passes
                (do a0 <- ret a; Recent.get_recent_notes s (Some c) (host a0))
                (ret []) w) as Hr.
  unfold bind at 1 in Hr. cbn [ret] in Hr. rewrite H in Hr. specialize (Hr I).
  destruct (try_except_RedisError _ _ w) as [r w']. cbn in *. rewrite H in Hr. subst r.
  now exists w'.
Qed.

(** X11.  The recent records. With the store in reach and the list of the
    client in order, when every identifier of the list is one a row has or
    a 64-bit column could hold (as is every identifier a read has pushed),
    the handler returns the records of the list that are in the table and
    not deleted, most recent first: a record that was deleted after it was
    viewed is left out, no record returned carries the deletion mark, and
    the identifiers returned follow the order of the list.  An identifier
    in the list that no row has and no column could hold makes the handler
    fail with the driver's [OverflowError]. *)
Theorem recent_notes_lists_live request a w ids :
  redis_fault w = None ->
  client request = Some a ->
  1 <= Config.recent_notes_limit s ->
  table_ok (sql_rows w) ->
  no_string (redis_now w) (Recent._recent_key (host a)) (redis_db w) ->
  stored_list (redis_now w) (Recent._recent_key (host a)) (redis_db w) = map str ids ->
  (length ids <= limit_of s)%nat ->
  (Forall (fun id => is_Some (sql_rows w !! id) \/ Sql.fits_integer id = true) ids ->
   exists items,
     fst (Main.recent_notes s request (Some c) w) = Ok items /\
     items = live_notes (sql_rows w) ids /\
     Forall (fun n => Schemas.is_deleted n = false) items /\
     sublist (map Schemas.id items) ids) /\
  (Exists (fun id => sql_rows w !! id = None /\ Sql.fits_integer id = false) ids ->
   fst (Main.recent_notes s request (Some c) w) = Raise OverflowError).
Proof.
  intros Hf Ha Hl Hok Hns Hst Hlen.
  destruct (safe_get_recent_result request a w ids Ha) as (w' & E & Hw).
  { now apply get_recent_notes_up. }
  split.
  - intros Hids.
    exists (live_notes (sql_rows w) ids). split; [|split; [reflexivity|split]].
    + unfold Main.recent_notes, bind. rewrite E.
      now rewrite (for_note_id_live (sql_rows w) ids [] w' (store_only_rows _ _ Hw)
                     Hok Hids).
    + apply live_notes_not_deleted.
    + now apply live_notes_ids.
  - intros Hids. unfold Main.recent_notes, bind. rewrite E.
    now rewrite (for_note_id_overflow (sql_rows w) ids [] w' (store_only_rows _ _ Hw)
                   Hok Hids).
Qed.

(** X12.  Without the store, or without a client address on the request, the
    handler returns no record and changes nothing. *)
Theorem recent_notes_without_store request client_ w :
  store_fails client_ w \/ client request = None ->
  Main.recent_notes s request client_ w = (Ok [], w).
Proof.
  intros H. unfold Main.recent_notes, bind.
  assert (E : Main._safe_get_recent s client_ request w = (Ok [], w)).
  { destruct H as [H|H]; [now apply safe_get_recent_fails|].
    unfold Main._safe_get_recent. rewrite H. cbn [Main.is_none].
    now rewrite orb_true_r. }
  now rewrite E.
Qed.

Lemma peek_insert_expired t k v e (db : gmap string Redis.entry) :
  e < t -> Redis.peek t k (<[k := Redis.Entry v (Some e)]> db) = None.
Proof.
  intros H. unfold Redis.peek. rewrite lookup_insert_eq. unfold Redis.expired. cbn.
  destruct (Z.ltb_spec e t); [reflexivity | lia].
Qed.

(** X13.  The list of a client lives one window past its last push. A push
    sets the expiry time of the list to one window from now, whatever it was
    before; a read that comes later than that finds no list. *)
Theorem recent_list_expires ip note_id w t :
  redis_fault w = None ->
  1 <= Config.recent_notes_limit s ->
  0 < Config.rate_limit_window_seconds s ->
  no_string (redis_now w) (Recent._recent_key ip) (redis_db w) ->
  let w' := snd (Recent.push_recent_note s (Some c) ip note_id w) in
  expiry (Recent._recent_key ip) w'
    = Some (redis_now w + Config.rate_limit_window_seconds s * 1000) /\
  (redis_now w + Config.rate_limit_window_seconds s * 1000 < t ->
   fst (Recent.get_recent_notes s (Some c) ip (at_time t w')) = Ok []).
Proof.
  intros Hf Hl HW Hns w'. subst w'.
  rewrite (push_recent_note_up s c ip note_id w Hf Hl Hns). cbn [snd].
  destruct (Z.leb_spec (Config.rate_limit_window_seconds s) 0) as [E|E]; [lia|].
  split.
  - unfold expiry, Redis.peek. cbn [redis_db redis_now with_redis].
    rewrite lookup_insert_eq. now rewrite expired_live by lia.
  - intros Ht.
    apply (get_recent_notes_up s c ip Hl _ []).
    + exact Hf.
    + intros v e. cbn [at_time redis_now redis_db with_redis].
      rewrite peek_insert_expired by lia. discriminate.
    + unfold stored_list. cbn [at_time redis_now redis_db with_redis].
      now rewrite peek_insert_expired by lia.
    + cbn. lia.
Qed.

End RecentNotes.

(** ** The life of a cache entry *)

Section CacheEntries.
Variable s : Config.Settings.
Variable c : RedisClient.


End CacheEntries.

(** ** One key for each operation *)

Section Keys.
Variable s : Config.Settings.

Lemma leaves_ret {A} k (a : A) : leaves_key k (ret a).
Proof. now intros w. Qed.

Lemma leaves_raise {A} k e : leaves_key k (@raise A e).
Proof. now intros w. Qed.

Lemma leaves_bind {A B} k (m : Py A) (f : A -> Py B) :
  leaves_key k m -> (forall a, leaves_key k (f a)) -> leaves_key k (bind m f).
Proof.
  intros Hm Hf w. unfold bind. specialize (Hm w).
  destruct (m w) as [[a|e] w1]; cbn in *; [|exact Hm].
  now rewrite Hf.
Qed.

Lemma leaves_try {A} k (body handler : Py A) :
  leaves_key k body -> leaves_key k handler ->
  leaves_key k (try_except_RedisError body handler).
Proof.
  intros Hb Hh w. unfold try_except_RedisError. specialize (Hb w).
  destruct (body w) as [[a|[]] w1]; cbn in *; try exact Hb.
  now rewrite Hh.
Qed.

Lemma leaves_send k b :
  Forall (fun cmd => k <> Redis.key_of cmd) (commands b) -> leaves_key k (send b).
Proof. intros H w. now apply send_other. Qed.

Lemma leaves_call k cmd : k <> Redis.key_of cmd -> leaves_key k (call cmd).
Proof.
  intros H. unfold call. apply leaves_bind.
  - apply leaves_send. now repeat constructor.
  - intros [|r [|r' rs]]; (apply leaves_ret || apply leaves_raise).
Qed.

Lemma leaves_deref {A} k (o : option A) : leaves_key k (deref o).
Proof. destruct o; [apply leaves_ret | apply leaves_raise]. Qed.

Lemma leaves_ints k values : leaves_key k (Recent.ints values).
Proof. intros w. now rewrite ints_world. Qed.

Lemma leaves_rate_limiter k request client_ :
  k <> rate_key request -> leaves_key k (RateLimit.rate_limiter s request client_).
Proof.
  intros Hk w. destruct client_ as [c|]; [|reflexivity].
  destruct (redis_fault w) as [f|] eqn:Hf.
  - rewrite rate_limiter_fails_open; [reflexivity | now rewrite Hf].
  - rewrite rate_limiter_world by exact Hf. cbn [redis_db with_redis].
    apply run_all_other. now repeat constructor.
Qed.

Lemma leaves_push_recent_note k client_ ip note_id :
  k <> Recent._recent_key ip ->
  leaves_key k (Recent.push_recent_note s client_ ip note_id).
Proof.
  intros Hk w. destruct client_ as [c|]; [|reflexivity].
  unfold Recent.push_recent_note, Client.pipeline, Client.execute, deref, bind, ret.
  match goal with |- context [send ?b w] =>
    pose proof (send_other b w k) as E; destruct (send b w) as [[rs|e] w']
  end; cbn in *; apply E; now repeat constructor.
Qed.

Lemma leaves_get_recent_notes k client_ ip :
  k <> Recent._recent_key ip ->
  leaves_key k (Recent.get_recent_notes s client_ ip).
Proof.
  intros Hk. unfold Recent.get_recent_notes, Client.lrange.
  apply leaves_bind; [|intros; apply leaves_ints].
  apply leaves_bind; [apply leaves_deref|]. intros _.
  apply leaves_bind; [now apply leaves_call|].
  intros []; apply leaves_ret.
Qed.

Lemma leaves_cache_note k client_ note :
  k <> Cache._note_cache_key (Schemas.id note) ->
  leaves_key k (Cache.cache_note s client_ note).
Proof.
  intros Hk. unfold Cache.cache_note, Client.set.
  apply leaves_bind; [apply leaves_deref|]. intros _.
  apply leaves_bind; [now apply leaves_call | intros; apply leaves_ret].
Qed.

Lemma leaves_invalidate_note_cache k client_ note_id :
  k <> Cache._note_cache_key note_id ->
  leaves_key k (Cache.invalidate_note_cache client_ note_id).
Proof.
  intros Hk. unfold Cache.invalidate_note_cache, Client.delete.
  apply leaves_bind; [apply leaves_deref|]. intros _.
  apply leaves_bind; [now apply leaves_call | intros; apply leaves_ret].
Qed.

Lemma leaves_get_cached_note k client_ note_id :
  k <> Cache._note_cache_key note_id ->
  leaves_key k (Cache.get_cached_note client_ note_id).
Proof.
  intros Hk. unfold Cache.get_cached_note, Client.get.
  apply leaves_bind.
  - apply leaves_bind; [apply leaves_deref|]. intros _.
    apply leaves_bind; [now apply leaves_call|]. intros []; apply leaves_ret.
  - intros [[|ch data]|]; try apply leaves_ret.
    destruct (Json.loads _) as [j|]; [|apply leaves_raise].
    apply leaves_bind; [|intros; apply leaves_ret].
    unfold Schemas.new. destruct j; try apply leaves_raise.
    destruct (Schemas.validate _); [apply leaves_ret | apply leaves_raise].
Qed.

Lemma prefix_inj (p a b : string) : p +:+ a = p +:+ b -> a = b.
Proof.
  induction p as [|x p IH]; [now rewrite !app_nil_s|].
  rewrite !app_cons_s. intros [= H]. now apply IH.
Qed.

Lemma rate_limit_key_inj a b :
  RateLimit._rate_limit_key a = RateLimit._rate_limit_key b -> a = b.
Proof. apply prefix_inj. Qed.

Lemma recent_key_inj a b : Recent._recent_key a = Recent._recent_key b -> a = b.
Proof. apply prefix_inj. Qed.

Lemma note_cache_key_inj a b : Cache._note_cache_key a = Cache._note_cache_key b -> a = b.
Proof. intros H. apply prefix_inj in H. now apply str_inj. Qed.

(** X21.  Every operation on the store touches the one key it is about and
    no other: the limiter the counter of the caller, a push and a read of
    the recent list the list of the caller, a put, a fetch and an
    invalidation the entry of the record. So a client cannot move the
    counter or the list of another, and the limiter and the list never
    disturb the cache. *)
Theorem operations_touch_one_key client_ w k :
  (forall request, k <> rate_key request ->
     redis_db (snd (RateLimit.rate_limiter s request client_ w)) !! k = redis_db w !! k) /\
  (forall ip note_id, k <> Recent._recent_key ip ->
     redis_db (snd (Recent.push_recent_note s client_ ip note_id w)) !! k
       = redis_db w !! k) /\
  (forall ip, k <> Recent._recent_key ip ->
     redis_db (snd (Recent.get_recent_notes s client_ ip w)) !! k = redis_db w !! k) /\
  (forall note, k <> Cache._note_cache_key (Schemas.id note) ->
     redis_db (snd (Cache.cache_note s client_ note w)) !! k = redis_db w !! k) /\
  (forall note_id, k <> Cache._note_cache_key note_id ->
     redis_db (snd (Cache.get_cached_note client_ note_id w)) !! k = redis_db w !! k) /\
  (forall note_id, k <> Cache._note_cache_key note_id ->
     redis_db (snd (Cache.invalidate_note_cache client_ note_id w)) !! k
       = redis_db w !! k).
Proof.
  repeat split; intros.
  - now apply leaves_rate_limiter.
  - now apply leaves_push_recent_note.
  - now apply leaves_get_recent_notes.
  - now apply leaves_cache_note.
  - now apply leaves_get_cached_note.
  - now apply leaves_invalidate_note_cache.
Qed.

(** X22.  No client moves what belongs to another. A request counted for one
    client address leaves the count of every other address as it was, a push
    onto the list of one address leaves the list of every other as it was, a
    put of one record leaves the cache entry of every other as it was, and
    neither the limiter nor a push changes any cache entry. *)
Theorem clients_do_not_interfere client_ w :
  (forall request request',
     client_ip request' <> client_ip request ->
     counter (client_ip request') (snd (RateLimit.rate_limiter s request client_ w))
       = counter (client_ip request') w) /\
  (forall ip ip' note_id t,
     ip' <> ip ->
     stored_list t (Recent._recent_key ip')
       (redis_db (snd (Recent.push_recent_note s client_ ip note_id w)))
       = stored_list t (Recent._recent_key ip') (redis_db w)) /\
  (forall note note_id t,
     note_id <> Schemas.id note ->
     cached t note_id (redis_db (snd (Cache.cache_note s client_ note w)))
       = cached t note_id (redis_db w)) /\
  (forall request note_id t,
     cached t note_id (redis_db (snd (RateLimit.rate_limiter s request client_ w)))
       = cached t note_id (redis_db w)) /\
  (forall ip id note_id t,
     cached t note_id (redis_db (snd (Recent.push_recent_note s client_ ip id w)))
       = cached t note_id (redis_db w)).
Proof.
  split; [|split; [|split; [|split]]].
  - intros request request' Hne. unfold counter, Redis.peek.
    rewrite (store_only_now _ _ (rate_limiter_frame s request client_ w)).
    rewrite leaves_rate_limiter; [reflexivity|].
    intros H. apply rate_limit_key_inj in H. contradiction.
  - intros ip ip' note_id t Hne. unfold stored_list, Redis.peek.
    rewrite leaves_push_recent_note; [reflexivity|].
    intros H. apply recent_key_inj in H. contradiction.
  - intros note note_id t Hne. unfold cached, Redis.peek.
    rewrite leaves_cache_note; [reflexivity|].
    intros H. apply note_cache_key_inj in H. contradiction.
  - intros request note_id t. unfold cached, Redis.peek.
    rewrite leaves_rate_limiter; [reflexivity | apply note_not_rate].
  - intros ip id note_id t. unfold cached, Redis.peek.
    rewrite leaves_push_recent_note; [reflexivity | apply note_not_recent].
Qed.

End Keys.

(** ** The limiter in front of a route *)

Section Routes.
Variable s : Config.Settings.

Lemma incrby_reply now k amount (db : gmap string Redis.entry) :
  match fst (Redis.run now (Redis.INCRBY k amount) db) with
  | Redis.Integer _ | Redis.Error _ => True
  | _ => False
  end.
Proof.
  unfold Redis.run. cbn [Redis.key_of Redis.exec].
  destruct (Redis.expire_if_needed now k db !! k) as [[[v|l] ttl]|]; cbn; auto.
  destruct (Redis.string2ll v); cbn; auto.
Qed.

Lemma expire_reply now k secs nx (db : gmap string Redis.entry) :
  exists n, fst (Redis.run now (Redis.EXPIRE k secs nx) db) = Redis.Integer n.
Proof.
  unfold Redis.run. cbn [Redis.key_of Redis.exec].
  destruct (Redis.expire_if_needed now k db !! k) as [[v ttl]|]; cbn; eauto.
  destruct (nx && _); cbn; eauto. destruct (secs <=? 0); cbn; eauto.
Qed.

(** With a client in hand the limiter has two outcomes: it lets the
    request through, or it rejects it with 429. *)
Lemma rate_limiter_outcome request c w :
  fst (RateLimit.rate_limiter s request (Some c) w) = Ok tt \/
  fst (RateLimit.rate_limiter s request (Some c) w) = Raise too_many.
Proof.
  destruct (redis_fault w) as [f|] eqn:Hf.
  { left. rewrite rate_limiter_fails_open; [reflexivity | now rewrite Hf]. }
  pose proof (incrby_reply (redis_now w) (rate_key request) 1 (redis_db w)) as H1.
  destruct (Redis.run (redis_now w) (Redis.INCRBY (rate_key request) 1) (redis_db w))
    as [r1 db1] eqn:E1.
  destruct (expire_reply (redis_now w) (rate_key request)
              (Config.rate_limit_window_seconds s) true db1) as (m & H2).
  destruct (Redis.run (redis_now w)
              (Redis.EXPIRE (rate_key request) (Config.rate_limit_window_seconds s) true)
              db1) as [r2 db2] eqn:E2.
  cbn in H1, H2. subst r2.
  destruct r1 as [| |n| | |msg]; try contradiction.
  - rewrite (rate_limiter_counted s request c w n m db2 Hf).
    + cbn. destruct (_ && _); auto.
    + cbn [commands rate_batch]. unfold Redis.run_all. now rewrite E1, E2.
  - left. unfold RateLimit.rate_limiter, Client.pipeline, Client.execute, Client.incr,
      Client.expire, deref, try_except_RedisError, bind, ret, send.
    cbn [app commands]. rewrite Hf. fold (client_ip request). fold (rate_key request).
    unfold Redis.run_all. now rewrite E1, E2.
Qed.

(** X19.  Handed a client, the limiter lets the request through or rejects
    it with 429 and does nothing else: whatever the store holds or answers,
    and whether or not it can be reached, no other error leaves it. *)
Theorem limiter_passes_or_rejects request c w :
  fst (RateLimit.rate_limiter s request (Some c) w) = Ok tt \/
  fst (RateLimit.rate_limiter s request (Some c) w) = Raise too_many.
Proof. apply rate_limiter_outcome. Qed.

Section Dependency.
Variable url_error : string -> option exn.

Lemma redis_dependency_client w :
_redis_instance w <> None \/ url_error (Config.redis_url s) = None ->
exists c w0,
  RedisClientModule.redis_dependency s url_error w = (Ok (Some c), w0) /\
  sql_rows w0 = sql_rows w /\ redis_db w0 = redis_db w /\
  redis_wire w0 = redis_wire w /\ redis_now w0 = redis_now w /\
  redis_fault w0 = redis_fault w.
Proof.
intros H.
unfold RedisClientModule.redis_dependency, RedisClientModule.get_redis,
  RedisClientModule.read_instance, RedisClientModule.write_instance,
  RedisClientModule.from_url, bind, ret.
destruct (_redis_instance w) as [c|] eqn:E; cbn; rewrite ?E; cbn.
- eexists _, _; repeat split; reflexivity.
- destruct H as [H|H]; [now destruct H|]. rewrite H. cbn.
  eexists _, _; repeat split; reflexivity.
Qed.

Lemma redis_dependency_refused w e :
_redis_instance w = None -> url_error (Config.redis_url s) = Some e ->
RedisClientModule.redis_dependency s url_error w = (Raise e, w).
Proof.
intros Hi Hu.
unfold RedisClientModule.redis_dependency, RedisClientModule.get_redis,
  RedisClientModule.read_instance, RedisClientModule.from_url, bind, ret.
rewrite ?Hi, ?Hu. cbn. now rewrite ?Hi, ?Hu.
Qed.

(** X20.  Behind a route. When the process holds a client already, or
  the library accepts the configured URL, the framework hands the limiter
  and the handler the client of [redis_dependency]; the limiter then
  either rejects the request with 429, in which case the handler does not
  run and the table is as it was, or it returns and the handler runs with
  that client, on a world in which only the store and the log of round
  trips may have changed.  When the process holds no client and the
  library refuses the URL, the request ends with the library's error:
  neither the limiter nor the handler runs, and nothing changes. *)
Theorem route_runs_the_limiter_first {A} request (handler : option RedisClient -> Py A) w :
(_redis_instance w <> None \/ url_error (Config.redis_url s) = None ->
 exists c w1,
   fst (RedisClientModule.redis_dependency s url_error w) = Ok (Some c) /\
   sql_rows w1 = sql_rows w /\
   (Main.route s url_error request handler w = (Raise too_many, w1) \/
    Main.route s url_error request handler w = handler (Some c) w1)) /\
(forall e,
   _redis_instance w = None -> url_error (Config.redis_url s) = Some e ->
   Main.route s url_error request handler w = (Raise e, w)).
Proof.
split.
- intros H.
  destruct (redis_dependency_client w H) as (c & w0 & E & Hrows & _).
  pose proof (rate_limiter_frame s request (Some c) w0) as Hw.
  pose proof (rate_limiter_outcome request c w0) as Ho.
  unfold Main.route, bind. rewrite E.
  destruct (RateLimit.rate_limiter s request (Some c) w0) as [r w1].
  cbn in Hw, Ho. exists c, w1. split; [reflexivity|].
  split; [now rewrite (store_only_rows _ _ Hw)|].
  destruct Ho as [-> | ->]; auto.
- intros e Hi Hu. unfold Main.route, bind.
  now rewrite (redis_dependency_refused w e Hi Hu).
Qed.
End Dependency.

End Routes.

(** ** Listings *)

Section Listings.

(** *** The order of the rows *)

Lemma lex_leb_total a : forall b,
  Datetime.lex_leb a b = true \/ Datetime.lex_leb b a = true.
Proof.
  induction a as [|x a IH]; intros b; [now left|].
  destruct b as [|y b]; [now right|]. cbn [Datetime.lex_leb].
  destruct (Z.ltb_spec x y); [now left|].
  destruct (Z.ltb_spec y x); [now right|].
  replace (x =? y) with true by lia. replace (y =? x) with true by lia.
  cbn. apply IH.
Qed.

Lemma lex_leb_trans a : forall b c,
  Datetime.lex_leb a b = true -> Datetime.lex_leb b c = true ->
  Datetime.lex_leb a c = true.
Proof.
  induction a as [|x a IH]; intros b c Hab Hbc; [reflexivity|].
  destruct b as [|y b]; [discriminate|]. destruct c as [|z c]; [discriminate|].
  cbn [Datetime.lex_leb] in *.
  apply orb_true_iff in Hab as [Hab|Hab]; apply orb_true_iff in Hbc as [Hbc|Hbc].
  - apply orb_true_iff. left. lia.
  - apply andb_true_iff in Hbc as [E _]. apply orb_true_iff. left. lia.
  - apply andb_true_iff in Hab as [E _]. apply orb_true_iff. left. lia.
  - apply andb_true_iff in Hab as [E1 H1]. apply andb_true_iff in Hbc as [E2 H2].
    apply orb_true_iff. right. apply andb_true_iff. split; [lia | now apply (IH b c)].
Qed.

Lemma newer_total a b : newer a b \/ newer b a.
Proof. unfold newer, Datetime.leb. apply lex_leb_total. Qed.

Lemma newer_trans a b c : newer a b -> newer b c -> newer a c.
Proof. unfold newer, Datetime.leb. intros H1 H2. now apply (lex_leb_trans _ _ _ H2 H1). Qed.

Local Abbreviation by_created :=
  (fun a b : Models.Note => Datetime.leb (Models.created_at b) (Models.created_at a)).

Lemma insert_row_perm x l : Sql.insert_row by_created x l ≡ₚ x :: l.
Proof.
  induction l as [|y l IH]; [reflexivity|]. cbn [Sql.insert_row].
  destruct (Datetime.leb _ _); [reflexivity|].
  rewrite IH. apply Permutation_swap.
Qed.

Lemma order_by_perm l : Sql.order_by by_created l ≡ₚ l.
Proof.
  induction l as [|x l IH]; [reflexivity|].
  unfold Sql.order_by in *. cbn [foldr]. now rewrite insert_row_perm, IH.
Qed.

Lemma insert_row_sorted x l :
  StronglySorted newer l -> StronglySorted newer (Sql.insert_row by_created x l).
Proof.
  induction 1 as [|y l Hs IH Hy]; [repeat constructor|].
  cbn [Sql.insert_row]. destruct (Datetime.leb _ _) eqn:E.
  - constructor; [now constructor|]. constructor; [exact E|].
    eapply Forall_impl; [exact Hy|]. intros z Hz. now apply (newer_trans x y z).
  - constructor; [exact IH|].
    rewrite insert_row_perm. constructor; [|exact Hy].
    destruct (newer_total x y) as [H|H]; [|exact H].
    unfold newer in H. congruence.
Qed.

Lemma order_by_sorted l : StronglySorted newer (Sql.order_by by_created l).
Proof.
  induction l as [|x l IH]; [constructor|].
  unfold Sql.order_by in *. cbn [foldr]. now apply insert_row_sorted.
Qed.

Lemma filter_sorted (P : Models.Note -> Prop) `{!forall x, Decision (P x)} l :
  StronglySorted newer l -> StronglySorted newer (filter P l).
Proof.
  induction 1 as [|y l Hs IH Hy]; [constructor|].
  destruct (decide (P y)).
  - rewrite filter_cons_True by assumption. constructor; [exact IH|].
    apply Forall_forall. intros z Hz. apply list_elem_of_filter in Hz as [_ Hz].
    revert z Hz. now apply Forall_forall.
  - now rewrite filter_cons_False.
Qed.

(** *** The rows of a listing *)

Lemma scan_elem (rows : gmap Z Models.Note) row :
  row ∈ Sql.scan rows <-> exists k, rows !! k = Some row.
Proof.
  unfold Sql.scan. rewrite list_elem_of_In, in_map_iff. split.
  - intros ([k r] & <- & H). exists k. now apply elem_of_map_to_list, list_elem_of_In.
  - intros (k & H). exists (k, row). split; [reflexivity|].
    now apply list_elem_of_In, elem_of_map_to_list.
Qed.

Lemma scan_ids (rows : gmap Z Models.Note) :
  table_ok rows -> NoDup (map Models.id (Sql.scan rows)).
Proof.
  intros Hok. unfold Sql.scan. rewrite map_map.
  rewrite (map_ext_in _ fst).
  - apply (NoDup_fst_map_to_list rows).
  - intros [k row] H. apply list_elem_of_In, elem_of_map_to_list in H.
    now destruct (Hok k row H).
Qed.

Lemma tagged_spec tag row :
  Crud.tagged tag row = true <-> exists tags, Models.tags row = Some tags /\ tag ∈ tags.
Proof.
  unfold Crud.tagged. destruct (Models.tags row) as [[|t l]|].
  - split; [discriminate|]. intros (tags & [= <-] & H). inversion H.
  - rewrite existsb_exists. split.
    + intros (x & Hin & E). apply String.eqb_eq in E. subst x.
      eexists. split; [reflexivity | now apply list_elem_of_In].
    + intros (tags & [= <-] & H). exists tag. split; [now apply list_elem_of_In|].
      apply String.eqb_refl.
  - split; [discriminate|]. now intros (tags & [= ] & _).
Qed.

Lemma stage_deleted (include_deleted : bool) (l : list Models.Note) row :
  row ∈ (if negb include_deleted
         then filter (fun note => negb (Models.is_deleted note)) l
         else l) <->
  row ∈ l /\ (include_deleted = false -> Models.is_deleted row = false).
Proof.
  destruct include_deleted; cbn [negb].
  - split; [intros H; split; [exact H | discriminate] | now intros [H _]].
  - rewrite list_elem_of_filter. split.
    + intros [Hd H]. split; [exact H|]. intros _. now destruct (Models.is_deleted row).
    + intros [H Hd]. split; [|exact H]. now rewrite Hd.
Qed.

Lemma stage_title (title_contains : option string) (l : list Models.Note) row :
  row ∈ match title_contains with
        | Some ((String _ _) as title_contains) =>
            filter (fun note =>
                      Sql.ilike (Models.title note) ("%" +:+ title_contains +:+ "%")) l
        | _ => l
        end <->
  row ∈ l /\
  (forall t, title_contains = Some t -> t <> EmptyString ->
     Sql.ilike (Models.title row) ("%" +:+ t +:+ "%") = true).
Proof.
  destruct title_contains as [[|ch t]|].
  - split; [intros H; split; [exact H|] | now intros [H _]].
    intros t [= <-] Hne. contradiction.
  - rewrite list_elem_of_filter. split.
    + intros [Hm H]. split; [exact H|]. intros t' [= <-] _.
      now apply Is_true_true.
    + intros [H Hm]. split; [|exact H]. apply Is_true_true. now apply Hm.
  - split; [intros H; split; [exact H|] | now intros [H _]]. discriminate.
Qed.

Lemma stage_tag (tag : option string) (l : list Models.Note) row :
  row ∈ match tag with
        | Some ((String _ _) as tag) => filter (fun note => Crud.tagged tag note) l
        | _ => l
        end <->
  row ∈ l /\
  (forall t, tag = Some t -> t <> EmptyString ->
     exists tags, Models.tags row = Some tags /\ t ∈ tags).
Proof.
  destruct tag as [[|ch t]|].
  - split; [intros H; split; [exact H|] | now intros [H _]].
    intros t [= <-] Hne. contradiction.
  - rewrite list_elem_of_filter. split.
    + intros [Hm H]. split; [exact H|]. intros t' [= <-] _.
      now apply tagged_spec, Is_true_true.
    + intros [H Hm]. split; [|exact H]. apply Is_true_true, tagged_spec. now apply Hm.
  - split; [intros H; split; [exact H|] | now intros [H _]]. discriminate.
Qed.

Lemma ids_filter (P : Models.Note -> Prop) `{!forall x, Decision (P x)} l :
  NoDup (map Models.id l) -> NoDup (map Models.id (filter P l)).
Proof.
  intros Hnd. eapply sublist_NoDup; [exact Hnd|].
  apply (fmap_sublist Models.id), sublist_filter.
Qed.

Lemma list_notes_rows tag title_contains include_deleted w :
  table_ok (sql_rows w) ->
  exists rows,
    Crud.list_notes tag title_contains include_deleted w = (Ok rows, w) /\
    (forall row,
       row ∈ rows <->
       (exists k, sql_rows w !! k = Some row) /\
       selected tag title_contains include_deleted row) /\
    NoDup (map Models.id rows) /\
    StronglySorted newer rows.
Proof.
  intros Hok. eexists. split; [reflexivity|]. split; [|split].
  - intros row. rewrite <- scan_elem. unfold selected.
    rewrite stage_tag, order_by_perm, stage_title, stage_deleted. tauto.
  - pose proof (scan_ids (sql_rows w) Hok) as H.
    destruct tag as [[|ch2 t2]|]; try apply ids_filter.
    all: rewrite order_by_perm.
    all: destruct title_contains as [[|ch1 t1]|]; try apply ids_filter.
    all: destruct include_deleted; cbn [negb]; try apply ids_filter; exact H.
  - destruct tag as [[|ch2 t2]|]; try apply filter_sorted; apply order_by_sorted.
Qed.

Lemma model_validate_each_ok rows w :
  Forall row_ok rows ->
  Main.model_validate_each rows w = (Ok (map to_schema rows), w).
Proof.
  induction 1 as [|row rows Hrow _ IH]; [reflexivity|].
  cbn [Main.model_validate_each map]. unfold bind at 1. unfold Schemas.model_validate.
  unfold row_ok in Hrow. rewrite Hrow. cbn [ret]. fold (to_schema row).
  unfold bind. now rewrite IH.
Qed.

(** The listing of the handler, from the rows of the statement. *)
Lemma list_notes_listing tag title_contains include_deleted w :
  table_ok (sql_rows w) ->
  exists rows,
    Main.list_notes tag title_contains include_deleted w
      = (Ok {| Schemas.total := Z.of_nat (length rows);
               Schemas.items := map to_schema rows |}, w) /\
    (forall row,
       row ∈ rows <->
       (exists k, sql_rows w !! k = Some row) /\
       selected tag title_contains include_deleted row) /\
    NoDup (map Models.id rows) /\
    StronglySorted newer rows.
Proof.
  intros Hok.
  destruct (list_notes_rows tag title_contains include_deleted w Hok)
    as (rows & E & Hin & Hnd & Hs).
  exists rows. split; [|auto].
  unfold Main.list_notes, bind. rewrite E.
  rewrite model_validate_each_ok.
  - now rewrite length_map.
  - apply Forall_forall. intros row Hrow. apply Hin in Hrow as [(k & Hk) _].
    now destruct (Hok k row Hk).
Qed.


(** *** The filter on the title *)










End Listings.

(** ** What the table keeps *)

Section TableInvariant.
Variable s : Config.Settings.

Lemma rows_kept_refl rows : rows_kept rows rows.
Proof. intros k row H. exists row. split; [exact H|]. now repeat split. Qed.

Lemma delete_note_absent note_id client_ w :
  sql_rows w !! note_id = None ->
  snd (Main.delete_note note_id client_ w) = w.
Proof.
  intros H. unfold Main.delete_note, Crud.get_note, bind. rewrite H.
  now destruct (Sql.fits_integer note_id).
Qed.

Lemma writers_keep client_ w :
  table_ok (sql_rows w) ->
  (forall note_in,
     Schemas.fields_ok (Schemas.nc_title note_in) (Schemas.nc_content note_in)
       (Schemas.nc_tags note_in) = true ->
     let rows' := sql_rows (snd (Main.create_note s note_in client_ w)) in
     table_ok rows' /\ rows_kept (sql_rows w) rows') /\
  (forall note_id,
     let rows' := sql_rows (snd (Main.delete_note note_id client_ w)) in
     table_ok rows' /\ rows_kept (sql_rows w) rows').
Proof.
  intros Hok. split.
  - intros note_in Hin rows'.
    destruct (create_note_effect s note_in client_ w Hin)
      as (row & w' & E & _ & Hfresh & Ht & Hc & Htg & _ & _ & _ & _ & Hrows).
    subst rows'. rewrite E. cbn [snd]. rewrite Hrows.
    assert (Hnew : sql_rows w !! Models.id row = None).
    { destruct (sql_rows w !! Models.id row) as [old|] eqn:Eo; [|reflexivity].
      specialize (Hfresh _ _ Eo). lia. }
    split.
    + intros k r Hk. destruct (decide (k = Models.id row)) as [->|Hne].
      * rewrite lookup_insert_eq in Hk. injection Hk as <-. split; [reflexivity|].
        unfold row_ok. rewrite Ht, Hc, Htg.
        unfold Schemas.fields_ok in *.
        destruct (Schemas.nc_tags note_in) as [[|]|]; exact Hin.
      * rewrite lookup_insert_ne in Hk by congruence. now apply Hok.
    + intros k r Hk. exists r. split; [|now repeat split].
      rewrite lookup_insert_ne; [exact Hk|]. intros <-. congruence.
  - intros note_id rows'. subst rows'.
    destruct (sql_rows w !! note_id) as [row|] eqn:Erow.
    2:{ rewrite delete_note_absent by exact Erow. split; [exact Hok | apply rows_kept_refl]. }
    destruct (Models.is_deleted row) eqn:Edel.
    { rewrite (delete_note_of_deleted note_id client_ row w Erow Edel).
      split; [exact Hok | apply rows_kept_refl]. }
    destruct (Hok note_id row Erow) as [Hid Hrow].
    rewrite (delete_note_live note_id client_ row w Erow Hid Edel Hrow). cbn [snd].
    rewrite (store_only_rows _ _ (bound_safe_invalidate_cache client_ note_id _)).
    cbn [sql_rows with_rows]. split.
    + intros k r Hk. destruct (decide (k = note_id)) as [->|Hne].
      * rewrite lookup_insert_eq in Hk. injection Hk as <-. split; [exact Hid | exact Hrow].
      * rewrite lookup_insert_ne in Hk by congruence. now apply Hok.
    + intros k r Hk. destruct (decide (k = note_id)) as [->|Hne].
      * rewrite Erow in Hk. injection Hk as <-. eexists. split; [apply lookup_insert_eq|].
        repeat split. congruence.
      * exists r. split; [now rewrite lookup_insert_ne by congruence | now repeat split].
Qed.

(** X17.  The table under the two handlers that write. Over a table whose
    rows sit under their identifiers and pass validation, a creation and a
    delete leave such a table; neither removes a row or changes the
    identifier, the title, the content, the tags or the creation time of
    one; and a row that is marked deleted is never changed again. *)
Theorem writers_keep_the_table client_ w :
  table_ok (sql_rows w) ->
  (forall note_in,
     Schemas.fields_ok (Schemas.nc_title note_in) (Schemas.nc_content note_in)
       (Schemas.nc_tags note_in) = true ->
     let rows' := sql_rows (snd (Main.create_note s note_in client_ w)) in
     table_ok rows' /\ rows_kept (sql_rows w) rows') /\
  (forall note_id,
     let rows' := sql_rows (snd (Main.delete_note note_id client_ w)) in
     table_ok rows' /\ rows_kept (sql_rows w) rows').
Proof. apply writers_keep. Qed.

(** X16.  Listings follow the writes. Over a table in order, a record that
    has just been created is an item of the plain listing, whatever the
    state of the store; a record that has just been deleted is an item of no
    listing that leaves deleted records out, and is an item of the listing
    that asks for them. *)
Theorem listing_follows_the_writes client_ w :
  table_ok (sql_rows w) ->
  (forall note_in,
     Schemas.fields_ok (Schemas.nc_title note_in) (Schemas.nc_content note_in)
       (Schemas.nc_tags note_in) = true ->
     exists note w' listing,
       Main.create_note s note_in client_ w = (Ok note, w') /\
       fst (Main.list_notes None None false w') = Ok listing /\
       note ∈ Schemas.items listing) /\
  (forall note_id row,
     sql_rows w !! note_id = Some row ->
     Models.is_deleted row = false ->
     exists note w' listing listing',
       Main.delete_note note_id client_ w = (Ok note, w') /\
       fst (Main.list_notes None None false w') = Ok listing /\
       Forall (fun item => Schemas.id item <> note_id) (Schemas.items listing) /\
       fst (Main.list_notes None None true w') = Ok listing' /\
       note ∈ Schemas.items listing').
Proof.
  intros Hok. destruct (writers_keep client_ w Hok) as [Hc Hd]. split.
  - intros note_in Hin. destruct (Hc note_in Hin) as [Hok' _].
    destruct (create_note_effect s note_in client_ w Hin)
      as (row & w' & E & _ & _ & _ & _ & _ & _ & _ & Hlive & _ & Hrows).
    rewrite E in Hok'. cbn [snd] in Hok'.
    destruct (list_notes_listing None None false w' Hok') as (rows & El & Hin' & _).
    eexists _, w', _. split; [exact E|]. rewrite El. split; [reflexivity|].
    cbn [Schemas.items]. apply list_elem_of_In, in_map, list_elem_of_In, Hin'. split.
    + exists (Models.id row). rewrite Hrows. apply lookup_insert_eq.
    + split; [intros _; exact Hlive|]. split; discriminate.
  - intros note_id row Hrow Hlive. destruct (Hd note_id) as [Hok' _].
    destruct (Hok note_id row Hrow) as [Hid Hrok].
    destruct (delete_note_effect a_client note_id client_ row w
                Hrow Hid Hlive Hrok) as (w' & E & Hrows & _).
    rewrite E in Hok'. cbn [snd] in Hok'.
    destruct (list_notes_listing None None false w' Hok') as (rows & El & Hin' & _).
    destruct (list_notes_listing None None true w' Hok') as (rows' & El' & Hin'' & _).
    eexists _, w', _, _. split; [exact E|]. rewrite El, El'.
    split; [reflexivity|]. split; [|split; [reflexivity|]]; cbn [Schemas.items].
    + apply Forall_forall. intros item Hitem.
      apply list_elem_of_In, in_map_iff in Hitem as (r & <- & Hr).
      apply list_elem_of_In, Hin' in Hr as [(k & Hk) (Hsel & _)].
      cbn [to_schema Schemas.id]. destruct (Hok' k r Hk) as [-> _]. intros ->.
      rewrite Hrows, lookup_insert_eq in Hk. injection Hk as <-.
      specialize (Hsel eq_refl). discriminate.
    + apply list_elem_of_In, in_map, list_elem_of_In, Hin''. split.
      * exists note_id. rewrite Hrows. apply lookup_insert_eq.
      * split; [discriminate|]. split; discriminate.
Qed.

End TableInvariant.

(** ** From a read to the recent records *)

Section ReadThenRecent.
Variable s : Config.Settings.
Variable c : RedisClient.

Lemma safe_push_recent_world request a note_id w :
  client request = Some a ->
  Main._safe_push_recent s (Some c) request note_id w =
    (Ok tt, snd (Recent.push_recent_note s (Some c) (host a) note_id w)).
Proof.
  intros Ha. destruct (safe_push_recent_frame s (Some c) request note_id w) as (w' & E & _).
  rewrite E. f_equal. change w' with (snd (Ok tt, w')). rewrite <- E.
  unfold Main._safe_push_recent. rewrite Ha. cbn [Main.is_none].
  rewrite try_except_world. reflexivity.
Qed.

(** The world of a read: up to the push, only the cache entry of the
    record can have changed; a read that succeeds ends with the push, a read
    that fails ends there. *)
Lemma read_note_world note_id request a use_cache include_deleted w k :
  client request = Some a ->
  k <> Cache._note_cache_key note_id ->
  (forall row, sql_rows w !! note_id = Some row -> Models.id row = note_id) ->
  exists w1 r,
    store_only w w1 /\ redis_db w1 !! k = redis_db w !! k /\
    Main.read_note s note_id request (Some c) use_cache include_deleted w =
      (r, match r with
          | Ok _ => snd (Recent.push_recent_note s (Some c) (host a) note_id w1)
          | Raise _ => w1
          end).
Proof.
  intros Ha Hk Hkey.
  assert (Htable : forall w0,
    sql_rows w0 = sql_rows w ->
    exists w1 r,
      store_only w0 w1 /\ redis_db w1 !! k = redis_db w0 !! k /\
      (do note <- Crud.get_note note_id include_deleted;
       match note with
       | None => raise (HTTPException Main.HTTP_404_NOT_FOUND "Note not found")
       | Some note =>
           do note_schema <- Schemas.model_validate note;
           do _ <- Main._safe_cache_note s (Some c) note_schema;
           do _ <- Main._safe_push_recent s (Some c) request note_id;
           ret note_schema
       end) w0 =
        (r, match r with
            | Ok _ => snd (Recent.push_recent_note s (Some c) (host a) note_id w1)
            | Raise _ => w1
            end)).
  { intros w0 Hrows. unfold Crud.get_note, bind at 1. rewrite Hrows.
    destruct (sql_rows w !! note_id) as [row|] eqn:Erow.
    2:{ destruct (Sql.fits_integer note_id); eexists w0, (Raise _);
          (split; [apply store_only_refl | now split]). }
    destruct (negb include_deleted && Models.is_deleted row).
    { eexists w0, (Raise _). split; [apply store_only_refl | now split]. }
    unfold bind at 1. unfold Schemas.model_validate.
    destruct (Schemas.fields_ok _ _ _).
    2:{ eexists w0, (Raise _). split; [apply store_only_refl | now split]. }
    cbn [ret]. unfold bind. rewrite safe_cache_note_world.
    rewrite (safe_push_recent_world request a note_id _ Ha).
    match goal with |- context [Cache.cache_note s (Some c) ?n w0] =>
      pose proof (bound_safe_cache_note s (Some c) n w0) as Hb;
      rewrite safe_cache_note_world in Hb; cbn [snd] in Hb;
      exists (snd (Cache.cache_note s (Some c) n w0))
    end.
    eexists (Ok _). split; [exact Hb|]. split; [|reflexivity].
    apply leaves_cache_note. cbn [Schemas.id]. now rewrite (Hkey row eq_refl). }
  unfold Main.read_note. unfold bind at 1. destruct use_cache.
  2:{ cbn [ret]. apply (Htable w eq_refl). }
  unfold bind at 1.
  pose proof (safe_get_cached_note_frame (Some c) note_id w) as Hb.
  assert (Hl : redis_db (snd (Main._safe_get_cached_note (Some c) note_id w)) !! k
               = redis_db w !! k).
  { rewrite safe_get_cached_note_unfold, try_except_world.
    now apply leaves_get_cached_note. }
  destruct (Main._safe_get_cached_note (Some c) note_id w) as [[[n|]|e] w0];
    cbn [fst snd] in Hb, Hl.
  - unfold bind. rewrite (safe_push_recent_world request a note_id w0 Ha). cbn.
    eexists w0, (Ok _). auto.
  - cbn [ret]. destruct (Htable w0 (store_only_rows _ _ Hb)) as (w1 & r & Hs & Hl1 & E).
    exists w1, r. split; [now apply (store_only_trans w w0 w1)|].
    split; [now rewrite Hl1 | exact E].
  - eexists w0, (Raise _). cbn. auto.
Qed.

(** X10.  A read and the list. With the store in reach, a configured
    maximum of at least 1, a window of at least a second and the list of the
    client in order, a read that returns a record leaves under the client's
    key, at the server, the list with that record in front, any earlier
    occurrence removed and the list cut to the maximum, and a read of the
    list returns just that; a read that fails leaves the list as it was. *)
Theorem read_note_moves_the_record_to_the_front
    note_id request a use_cache include_deleted w ids :
  redis_fault w = None ->
  client request = Some a ->
  1 <= Config.recent_notes_limit s ->
  0 < Config.rate_limit_window_seconds s ->
  (forall row, sql_rows w !! note_id = Some row -> Models.id row = note_id) ->
  no_string (redis_now w) (Recent._recent_key (host a)) (redis_db w) ->
  stored_list (redis_now w) (Recent._recent_key (host a)) (redis_db w) = map str ids ->
  (length ids <= limit_of s)%nat ->
  let '(r, w') :=
    Main.read_note s note_id request (Some c) use_cache include_deleted w in
  let l := match r with
           | Ok _ => move_to_front (limit_of s) note_id ids
           | Raise _ => ids
           end in
  stored_list (redis_now w) (Recent._recent_key (host a)) (redis_db w') = map str l /\
  fst (Recent.get_recent_notes s (Some c) (host a) w') = Ok l.
Proof.
  intros Hf Ha Hl HW Hkey Hns Hst Hlen.
  destruct (read_note_world note_id request a use_cache include_deleted w
              (Recent._recent_key (host a)) Ha) as (w1 & r & Hs & Hk & ->).
  { intros E. symmetry in E. now apply note_not_recent in E. }
  { exact Hkey. }
  assert (Hf1 : redis_fault w1 = None) by now rewrite (store_only_fault _ _ Hs).
  assert (Hn1 : redis_now w1 = redis_now w) by apply (store_only_now _ _ Hs).
  assert (Hns1 : no_string (redis_now w1) (Recent._recent_key (host a)) (redis_db w1)).
  { intros v t. unfold Redis.peek. rewrite Hn1, Hk. apply Hns. }
  assert (Hst1 : stored_list (redis_now w1) (Recent._recent_key (host a)) (redis_db w1)
                 = map str ids).
  { unfold stored_list, Redis.peek. rewrite Hn1, Hk. exact Hst. }
  destruct r as [n|e].
  - destruct (push_stored s c (host a) Hl w1 note_id ids (redis_now w1) HW Hf1 Hns1 Hst1)
      as (Hf2 & Hns2 & Hst2); [lia|].
    pose proof (push_keeps_clock s (Some c) (host a) note_id w1) as Hclock.
    split; [now rewrite <- Hn1|].
    apply (get_recent_notes_up s c (host a) Hl).
    + exact Hf2.
    + now rewrite Hclock.
    + now rewrite Hclock.
    + apply move_to_front_length.
  - split; [now rewrite <- Hn1|].
    now apply (get_recent_notes_up s c (host a) Hl).
Qed.

End ReadThenRecent.

(** ** The handlers at concrete inputs *)

Lemma table_ok_one k row :
  Models.id row = k -> row_ok row -> table_ok {[ k := row ]}.
Proof.
  intros Hid Hok k' row' H. apply lookup_singleton_Some in H as [<- <-]. now split.
Qed.

Lemma table_ok_insert k row rows :
  Models.id row = k -> row_ok row -> table_ok rows -> table_ok (<[ k := row ]> rows).
Proof.
  intros Hid Hok Hrows k' row' H. apply lookup_insert_Some in H as [[<- <-]|[_ H]].
  - now split.
  - now apply Hrows.
Qed.

Lemma one_row_in_range k (old : Models.Note) :
  ({[ 1 := a_row ]} : gmap Z Models.Note) !! k = Some old -> 0 < k < Sql.max_integer.
Proof. intros H. apply lookup_singleton_Some in H as [<- _]. vm_compute. split; reflexivity. Qed.

(** A creation next to record 1, while the clock moves on: the new row
    comes after record 1, created at noon and updated a moment later. *)
Lemma create_note_inserts_witness :
  exists row w',
    Main.create_note three_a_minute a_new_note (Some a_client) world_with_row_ticking
      = (Ok (to_schema row), w') /\
    1 < Models.id row <= Sql.max_integer /\
    Models.title row = "groceries" /\
    Models.tags row = Some ["home"; "todo"] /\
    Models.created_at row = noon /\
    Models.updated_at row = Datetime.Datetime 2024 2 29 12 0 5 180 /\
    Models.is_deleted row = false /\
    sql_rows w' = <[ Models.id row := row ]> {[ 1 := a_row ]}.
Proof.
  destruct (create_note_inserts three_a_minute a_new_note (Some a_client)
              world_with_row_ticking eq_refl one_row_in_range)
    as (row & w' & E & Habove & Hfit & Ht & _ & Htg & Hca & Hua & Hd & _ & Hrows).
  exists row, w'. split; [exact E|].
  split; [split; [exact (Habove 1 a_row eq_refl) | exact (proj2 Hfit)]|].
  split; [exact Ht|]. split; [exact Htg|]. split; [exact Hca|]. split; [exact Hua|].
  split; [exact Hd | exact Hrows].
Defined.


(** A record created at second 1 is read from the cache at second 2, even
    from an empty table. *)
Lemma created_note_is_cached_witness :
  exists note w1,
    Main.create_note three_a_minute a_new_note (Some a_client) quiet_world = (Ok note, w1) /\
    fst (Main.read_note three_a_minute (Schemas.id note) a_request (Some a_client) true false
           (with_rows ∅ (at_time 2000 w1))) = Ok note.
Proof.
  apply (created_note_is_cached three_a_minute a_client a_new_note a_request false
           quiet_world 2000 ∅); [reflexivity | reflexivity | reflexivity | cbn; lia | cbn; lia].
Defined.

(** Deleting the live record 1 while the clock moves on: deleted at noon,
    updated a moment later. *)
Lemma delete_note_marks_witness :
  exists w',
    Main.delete_note 1 (Some a_client) world_with_row_ticking
      = (Ok (to_schema (marked_deleted noon (Datetime.Datetime 2024 2 29 12 0 5 180) a_row)),
         w') /\
    sql_rows w'
      = {[ 1 := marked_deleted noon (Datetime.Datetime 2024 2 29 12 0 5 180) a_row ]} /\
    redis_wire w' = [del_batch 1].
Proof.
  destruct (delete_note_marks a_client 1 (Some a_client) a_row world_with_row_ticking
              eq_refl eq_refl eq_refl eq_refl) as (w' & E & Hrows & Hstore).
  destruct (Hstore eq_refl eq_refl) as [Hwire _].
  exists w'. split; [exact E|]. split; [|exact Hwire].
  rewrite Hrows. apply insert_singleton_eq.
Defined.

(** After that delete, reads and a second delete. *)
Lemma deleted_note_is_gone_witness :
  let w' := snd (Main.delete_note 1 (Some a_client) world_with_row_ticking) in
  fst (Main.read_note three_a_minute 1 a_request (Some a_client) true false
         (at_time 5000 w')) = Raise not_found /\
  Main.delete_note 1 (Some a_client) w' = (Raise not_found, w') /\
  fst (Main.read_note three_a_minute 1 a_request (Some a_client) true true
         (at_time 5000 w'))
    = Ok (to_schema (marked_deleted noon (Datetime.Datetime 2024 2 29 12 0 5 180) a_row)).
Proof.
  exact (deleted_note_is_gone three_a_minute a_client 1 a_row world_with_row_ticking
           a_request true 5000 eq_refl eq_refl eq_refl eq_refl eq_refl).
Defined.

(** Record 1 is deleted while the server is away; at second 2, with the
    server back, the cache still serves it. *)
Lemma unreachable_delete_leaves_stale_entry_witness :
  let w' := with_fault None
              (at_time 2000 (snd (Main.delete_note 1 (Some a_client)
                                    world_cached_unreachable))) in
  fst (Main.read_note three_a_minute 1 a_request (Some a_client) true false w')
    = Ok (to_schema a_row) /\
  fst (Main.read_note three_a_minute 1 a_request (Some a_client) false false w')
    = Raise not_found.
Proof.
  exact (unreachable_delete_leaves_stale_entry three_a_minute a_client 1 a_row
           world_cached_unreachable ConnectionError (Some 301000) 2000 a_request
           eq_refl eq_refl eq_refl eq_refl eq_refl eq_refl).
Defined.

(** The deleted record 1, read once with deleted records asked for, is
    served from the cache to a read that does not ask for them. *)
Lemma cached_deleted_note_is_served_witness :
  let w' := at_time 2000
              (snd (Main.read_note three_a_minute 1 a_request (Some a_client) false true
                      world_with_deleted_row)) in
  fst (Main.read_note three_a_minute 1 a_request (Some a_client) true false w')
    = Ok (to_schema a_deleted_row) /\
  fst (Main.read_note three_a_minute 1 a_request (Some a_client) false false w')
    = Raise not_found.
Proof.
  apply (cached_deleted_note_is_served three_a_minute a_client 1 a_deleted_row
           world_with_deleted_row 2000 a_request a_request);
    [reflexivity | reflexivity | reflexivity | reflexivity | reflexivity | cbn; lia | cbn; lia].
Defined.

Lemma recent_table_ok : table_ok (sql_rows world_with_recent_list).
Proof.
  apply table_ok_insert; [reflexivity | reflexivity|].
  apply table_ok_one; reflexivity.
Qed.

(** Of the records 1 and 2 on the list, the deleted record 1 is left out. *)
Lemma recent_notes_lists_live_witness :
  fst (Main.recent_notes three_a_minute a_request (Some a_client) world_with_recent_list)
    = Ok [to_schema another_row].
Proof.
  destruct (recent_notes_lists_live three_a_minute a_client a_request
              {| host := "203.0.113.7"; port := 51234 |} world_with_recent_list [1; 2])
    as [Hlive _].
  - reflexivity.
  - reflexivity.
  - cbn. lia.
  - exact recent_table_ok.
  - intros v t. vm_compute. discriminate.
  - reflexivity.
  - vm_compute. lia.
  - destruct Hlive as (items & E & -> & _).
    + repeat constructor; right; reflexivity.
    + rewrite E. reflexivity.
Defined.

(** With the server out of reach there are no recent records. *)
Lemma recent_notes_without_store_witness :
  Main.recent_notes three_a_minute a_request (Some a_client) unreachable_world
    = (Ok [], unreachable_world).
Proof.
  apply recent_notes_without_store. left. right. discriminate.
Defined.

(** A list pushed at second 1 expires at second 61 and is gone at second
    70. *)
Lemma recent_list_expires_witness :
  let w' := snd (Recent.push_recent_note three_a_minute (Some a_client) "203.0.113.7" 1
                   quiet_world) in
  expiry (Recent._recent_key "203.0.113.7") w' = Some 61000 /\
  fst (Recent.get_recent_notes three_a_minute (Some a_client) "203.0.113.7"
         (at_time 70000 w')) = Ok [].
Proof.
  destruct (recent_list_expires three_a_minute a_client "203.0.113.7" 1 quiet_world 70000)
    as [He Hg].
  - reflexivity.
  - cbn. lia.
  - cbn. lia.
  - intros v t. vm_compute. discriminate.
  - split; [exact He|]. apply Hg. cbn. lia.
Defined.


(** A request counted for a client leaves a cache entry alone. *)
Lemma operations_touch_one_key_witness :
  redis_db (snd (RateLimit.rate_limiter three_a_minute a_request (Some a_client)
                   world_with_bad_entry)) !! "note:1"
    = redis_db world_with_bad_entry !! "note:1".
Proof.
  destruct (operations_touch_one_key three_a_minute (Some a_client) world_with_bad_entry
              "note:1") as (H & _).
  apply H. intros E. vm_compute in E. discriminate.
Defined.

(** A request of the client at 203.0.113.7 leaves the count of the clients
    without an address at 0. *)
Lemma clients_do_not_interfere_witness :
  counter "unknown"
    (snd (RateLimit.rate_limiter three_a_minute a_request (Some a_client) quiet_world))
    = counter "unknown" quiet_world.
Proof.
  destruct (clients_do_not_interfere three_a_minute (Some a_client) quiet_world) as (H & _).
  apply (H a_request {| client := None |}). intros E. vm_compute in E. discriminate.
Defined.



(** The listing itself. *)
Example list_notes_newest_first :
  Main.list_notes None None false world_with_two_rows
    = (Ok {| Schemas.total := 2;
             Schemas.items := [to_schema another_row; to_schema a_row] |},
       world_with_two_rows).
Proof. vm_compute. reflexivity. Qed.


(** A creation and a delete over the table of record 1. *)
Lemma writers_keep_the_table_witness :
  table_ok (sql_rows (snd (Main.create_note three_a_minute a_new_note (Some a_client)
                             world_with_row))) /\
  table_ok (sql_rows (snd (Main.delete_note 1 (Some a_client) world_with_row))).
Proof.
  destruct (writers_keep_the_table three_a_minute (Some a_client) world_with_row)
    as [Hc Hd]; [apply table_ok_one; reflexivity|].
  split; [apply (Hc a_new_note eq_refl) | apply (Hd 1)].
Defined.

(** Record 2 is created next to record 1 and listed; record 1 is deleted and
    listed no more. *)
Lemma listing_follows_the_writes_witness :
  (exists note w' listing,
     Main.create_note three_a_minute a_new_note (Some a_client) world_with_row
       = (Ok note, w') /\
     fst (Main.list_notes None None false w') = Ok listing /\
     note ∈ Schemas.items listing) /\
  (exists note w' listing listing',
     Main.delete_note 1 (Some a_client) world_with_row = (Ok note, w') /\
     fst (Main.list_notes None None false w') = Ok listing /\
     Forall (fun item => Schemas.id item <> 1) (Schemas.items listing) /\
     fst (Main.list_notes None None true w') = Ok listing' /\
     note ∈ Schemas.items listing').
Proof.
  destruct (listing_follows_the_writes three_a_minute (Some a_client) world_with_row)
    as [Hc Hd]; [apply table_ok_one; reflexivity|].
  split; [apply (Hc a_new_note eq_refl) | apply (Hd 1 a_row eq_refl eq_refl)].
Defined.

(** The list of the client holds 3, 1, 4, 5 and 6, the maximum.  A read of
    record 2 puts it in front and cuts 6 off the end. *)
Lemma read_note_moves_the_record_to_the_front_witness :
  let '(r, w') :=
    Main.read_note three_a_minute 2 a_request (Some a_client) true false
      world_with_full_list in
  r = Ok (to_schema another_row) /\
  stored_list 1000 (Recent._recent_key "203.0.113.7") (redis_db w')
    = ["2"; "3"; "1"; "4"; "5"] /\
  fst (Recent.get_recent_notes three_a_minute (Some a_client) "203.0.113.7" w')
    = Ok [2; 3; 1; 4; 5].
Proof.
  assert (H1 : 1 <= Config.recent_notes_limit three_a_minute) by (cbn; lia).
  assert (H2 : 0 < Config.rate_limit_window_seconds three_a_minute) by (cbn; lia).
  assert (H3 : forall row, sql_rows world_with_full_list !! 2 = Some row -> Models.id row = 2).
  { intros row H. vm_compute in H. now injection H as <-. }
  assert (H4 : no_string (redis_now world_with_full_list)
                 (Recent._recent_key "203.0.113.7") (redis_db world_with_full_list)).
  { intros v t. vm_compute. discriminate. }
  assert (H5 : (length [3; 1; 4; 5; 6] <= limit_of three_a_minute)%nat) by (vm_compute; lia).
  pose proof (read_note_moves_the_record_to_the_front three_a_minute a_client 2 a_request
                {| host := "203.0.113.7"; port := 51234 |} true false world_with_full_list
                [3; 1; 4; 5; 6] eq_refl eq_refl H1 H2 H3 H4 eq_refl H5) as H.
  assert (Hr : fst (Main.read_note three_a_minute 2 a_request (Some a_client) true false
                      world_with_full_list) = Ok (to_schema another_row))
    by (vm_compute; reflexivity).
  destruct (Main.read_note three_a_minute 2 a_request (Some a_client) true false
              world_with_full_list) as [r w'].
  cbn [fst] in Hr. subst r. destruct H as [Hst Hget].
  split; [reflexivity|]. split; [exact Hst | exact Hget].
Defined.

(** A read of record 1, which is in the list, moves it to the front and
    leaves the others as they were. *)
Example read_note_moves_within_the_list :
  let '(r, w') :=
    Main.read_note three_a_minute 1 a_request (Some a_client) true false
      world_with_full_list in
  r = Ok (to_schema a_row) /\
  stored_list 1000 (Recent._recent_key "203.0.113.7") (redis_db w')
    = ["1"; "3"; "4"; "5"; "6"].
Proof. vm_compute. split; reflexivity. Qed.
